(** * Linear mixed model synthetic experiment

    A shallow embedding of [autora/experiment_runner/synthetic/abstract/lmm.py]:
    the formula parser [_extract_variable_names] and the simulation closure
    [run] built by [lmm_experiment].

    Conventions of the embedding.
    - Python [str] is [string]; formulas are taken to be ASCII, so that the
      regular-expression class [\w] is [[A-Za-z0-9_]].
    - Numbers are exact rationals [Q]; numeric results are compared with
      [Qeq].  Rounding of double-precision arithmetic is not modelled,
      and neither is the wrap-around of [int64] arithmetic on integer
      columns: statements about computed values carry the hypothesis
      that the integer results stay in the [int64] range.
    - A [pandas.DataFrame] is a row count together with an ordered list of
      named numeric columns (group labels are numbers too, compared by
      value); all series of one frame share its index, so arithmetic
      between them is positional.  Columns of text or other objects are
      not represented; a table with a repeated column name, for which
      [df[name]] is not a series, is excluded by hypothesis
      ([proper_table]) where a statement speaks of every table.
    - Data frames are objects in a store and are reached through references;
      [conditions.copy()] allocates a new object.
    - A [numpy.random.Generator] is an abstract state with a
      standard-normal draw; [Generator.normal(loc, scale)] is
      [loc + scale * z] and rejects a negative scale;
      [numpy.random.default_rng(seed)] rejects a negative seed. *)

From Stdlib Require Import QArith Ascii.
From stdpp Require Import base gmap strings list sorting.

Open Scope string_scope.

(** ** Python string operations *)

Module Py.

(** Characters removed by [str.strip()] (ASCII whitespace). *)
Definition isspace (c : ascii) : bool :=
  let n := N_of_ascii c in
  ((9 <=? n) && (n <=? 13) || (28 <=? n) && (n <=? 32))%N.

Fixpoint lstrip (s : string) : string :=
  match s with
  | String c s' => if isspace c then lstrip s' else s
  | EmptyString => EmptyString
  end.

Fixpoint rstrip (s : string) : string :=
  match s with
  | String c s' =>
      match rstrip s' with
      | EmptyString => if isspace c then EmptyString else String c EmptyString
      | r => String c r
      end
  | EmptyString => EmptyString
  end.

(** [s.strip()] *)
Definition strip (s : string) : string := rstrip (lstrip s).

(** [s.split(sep)] for a one-character separator: never empty. *)
Fixpoint split (sep : ascii) (s : string) : list string :=
  match s with
  | EmptyString => [EmptyString]
  | String c s' =>
      if Ascii.eqb c sep then EmptyString :: split sep s'
      else match split sep s' with
           | h :: t => String c h :: t
           | [] => [String c EmptyString]
           end
  end.

(** [s.replace(old, new)] for a non-empty [old]: occurrences are found
    from the left and do not overlap.  [skip] counts the characters of
    an occurrence that remain to be dropped. *)
Fixpoint replace_from (old new : string) (skip : nat) (s : string) : string :=
  match s with
  | EmptyString => EmptyString
  | String c s' =>
      match skip with
      | S n => replace_from old new n s'
      | O =>
          if String.prefix old s
          then new ++ replace_from old new (String.length old - 1) s'
          else String c (replace_from old new 0 s')
      end
  end.

Definition replace (old new s : string) : string := replace_from old new 0 s.

(** Order of [str] comparison (by code point), used by [sorted]. *)
Definition str_le (a b : string) : Prop := String.leb a b = true.

#[export] Instance str_le_dec a b : Decision (str_le a b) :=
  decide (String.leb a b = true).

(** [sorted(list(set(l)))]: the distinct elements in increasing order.
    The result does not depend on the iteration order of the set. *)
Definition sorted_set (l : list string) : list string :=
  merge_sort str_le (remove_dups l).

End Py.

(** ** Regular expressions as used by the module

    A backtracking matcher with the priorities of Python's [re]: a greedy
    repetition tries the longest run first, a lazy one the shortest.
    Repetition is only needed over character classes. *)

Module Re.

Definition lower (c : ascii) : bool :=
  (Ascii.leb "a" c && Ascii.leb c "z")%char.
Definition upper (c : ascii) : bool :=
  (Ascii.leb "A" c && Ascii.leb c "Z")%char.
Definition digit (c : ascii) : bool :=
  (Ascii.leb "0" c && Ascii.leb c "9")%char.
(** [\w] *)
Definition word (c : ascii) : bool :=
  lower c || upper c || digit c || Ascii.eqb c "_".
(** [.]: anything but a newline *)
Definition dot (c : ascii) : bool := negb (Ascii.eqb c "010").
(** [[^c]] *)
Definition isnt (x : ascii) (c : ascii) : bool := negb (Ascii.eqb c x).

Inductive regex : Type :=
| Lit (c : ascii)                         (* a literal character *)
| Class (p : ascii -> bool)               (* [..], \w, . *)
| Rep (greedy : bool) (p : ascii -> bool) (* class* and class*? *)
| Cat (r1 r2 : regex)
| Group (r : regex)                       (* ( r ) *)
| NotAhead (r : regex)                    (* (?! r ) *)
| Boundary.                               (* \b *)

(** [class+] and [class+?] *)
Definition Rep1 (greedy : bool) (p : ascii -> bool) : regex :=
  Cat (Class p) (Rep greedy p).

(** The matcher's position: the character before the cursor (for [\b]),
    the text after it, and the groups closed so far. *)
Record cursor : Type := Cursor {
  before : option ascii;
  rest : string;
  caps : list string
}.

Definition orelse {A} (a b : option A) : option A :=
  match a with Some _ => a | None => b end.

(** Repetition of a class from [s], continuing with [k]. *)
Fixpoint rep {A} (greedy : bool) (p : ascii -> bool)
    (b : option ascii) (s : string)
    (k : option ascii -> string -> option A) : option A :=
  match s with
  | String c s' =>
      if p c then
        if greedy then orelse (rep greedy p (Some c) s' k) (k b s)
        else orelse (k b s) (rep greedy p (Some c) s' k)
      else k b s
  | EmptyString => k b s
  end.

Definition is_word_opt (o : option ascii) : bool :=
  match o with Some c => word c | None => false end.

Definition next_char (s : string) : option ascii :=
  match s with String c _ => Some c | EmptyString => None end.

(** Text consumed between two positions of the same string. *)
Definition consumed (from to : string) : string :=
  String.substring 0 (String.length from - String.length to) from.

Fixpoint exec {A} (r : regex) (cur : cursor) (k : cursor -> option A) : option A :=
  match r with
  | Lit c =>
      match rest cur with
      | String c' s' =>
          if Ascii.eqb c' c then k (Cursor (Some c') s' (caps cur)) else None
      | EmptyString => None
      end
  | Class p =>
      match rest cur with
      | String c' s' =>
          if p c' then k (Cursor (Some c') s' (caps cur)) else None
      | EmptyString => None
      end
  | Rep greedy p =>
      rep greedy p (before cur) (rest cur)
        (fun b s => k (Cursor b s (caps cur)))
  | Cat r1 r2 => exec r1 cur (fun cur' => exec r2 cur' k)
  | Group r1 =>
      exec r1 cur (fun cur' =>
        k (Cursor (before cur') (rest cur')
             (caps cur' ++ [consumed (rest cur) (rest cur')])))
  | NotAhead r1 =>
      match exec r1 cur Some with
      | Some _ => None
      | None => k cur
      end
  | Boundary =>
      if xorb (is_word_opt (before cur)) (is_word_opt (next_char (rest cur)))
      then k cur else None
  end.

(** One match attempt at the cursor: the matched text and its groups. *)
Definition match_at (r : regex) (b : option ascii) (s : string)
  : option (string * list string) :=
  match exec r (Cursor b s []) Some with
  | Some cur' => Some (consumed s (rest cur'), caps cur')
  | None => None
  end.

(** All non-overlapping matches from left to right ([re.finditer]).
    After a match the scan resumes at its end: [skip] counts the
    characters of the last match still to be passed.  None of the
    module's patterns matches the empty text, so the treatment of empty
    matches is immaterial. *)
Fixpoint scan (r : regex) (skip : nat) (b : option ascii) (s : string)
  : list (string * list string) :=
  match s with
  | EmptyString =>
      match skip, match_at r b s with
      | O, Some m => [m]
      | _, _ => []
      end
  | String c s' =>
      match skip with
      | S n => scan r n (Some c) s'
      | O =>
          match match_at r b s with
          | Some m => m :: scan r (String.length (fst m) - 1) (Some c) s'
          | None => scan r 0 (Some c) s'
          end
      end
  end.

(** [re.search(r, s) is not None] *)
Definition search (r : regex) (s : string) : bool :=
  match scan r 0 None s with [] => false | _ :: _ => true end.

(** [re.findall(r, s)] for a pattern without groups. *)
Definition findall (r : regex) (s : string) : list string :=
  fst <$> scan r 0 None s.

(** [re.findall(r, s)] for a pattern with two groups. *)
Definition findall2 (r : regex) (s : string) : list (string * string) :=
  (fun m => (nth 0 (snd m) EmptyString, nth 1 (snd m) EmptyString))
    <$> scan r 0 None s.

End Re.

(** ** Exceptions raised by the module *)

Inductive exn : Type :=
| UnpackError                (* ValueError: [a, b = formula.split('~')] *)
| GroupNotFound (g : string) (* ValueError: Group variable 'g' not found in the data *)
| KeyError (k : string)      (* KeyError from a [dict] or a frame subscript *)
| ScaleError                 (* ValueError: scale < 0, from [Generator.normal] *)
| SeedError                  (* ValueError: negative seed, from [numpy.random.default_rng] *)
| InvalidReference.          (* a reference to no object: unreachable from Python *)

(** ** The formula parser *)

Section Patterns.
Import Re.

(** [r'[a-z]\w*(?![^\(]*\))'] *)
Definition fixed_pattern : regex :=
  Cat (Class lower)
    (Cat (Rep true word)
       (NotAhead (Cat (Rep true (isnt "(")) (Lit ")")))).

(** [r'\(([^\|]+)\|([^\)]+)\)'] *)
Definition random_pattern : regex :=
  Cat (Lit "(")
    (Cat (Group (Rep1 true (isnt "|")))
       (Cat (Lit "|")
          (Cat (Group (Rep1 true (isnt ")"))) (Lit ")")))).

(** [r'\((.+?)\|(.+?)\)'] *)
Definition term_pattern : regex :=
  Cat (Lit "(")
    (Cat (Group (Rep1 false dot))
       (Cat (Lit "|")
          (Cat (Group (Rep1 false dot)) (Lit ")")))).

(** [r'\b0\b'] *)
Definition zero_pattern : regex :=
  Cat Boundary (Cat (Lit "0") Boundary).
End Patterns.

(** [fixed_effects.extend(reffect[0].replace('1 + ', '').split('+'))] *)
Definition extend_with_reffect (fixed_effects : list string)
    (reffect : string * string) : list string :=
  fixed_effects ++ Py.split "+" (Py.replace "1 + " "" (fst reffect)).

(** The dependent variable, the fixed-effect names and the grouping
    variables of a formula. *)
Definition _extract_variable_names (formula : string)
  : exn + (string * list string * list string) :=
  match Py.split "~" formula with
  | [dependent; rhs] =>
      let dependent := Py.strip dependent in
      let fixed_effects := Re.findall fixed_pattern rhs in
      let random_effects := Re.findall2 random_pattern rhs in
      let fixed_effects := foldl extend_with_reffect fixed_effects random_effects in
      let fixed_effects := Py.sorted_set (Py.strip <$> fixed_effects) in
      let random_groups :=
        Py.sorted_set ((fun reffect => Py.strip (snd reffect)) <$> random_effects) in
      inr (dependent, fixed_effects, random_groups)
  | _ => inl UnpackError
  end.

(** ** Data frames *)

(** A series is the list of its values in index order. *)
Definition series : Type := list Q.

Record frame : Type := Frame {
  nrows : nat;                        (* [len(df)] *)
  cols : list (string * series)       (* the columns, in order *)
}.

(** [df.columns] *)
Definition columns (df : frame) : list string := fst <$> cols df.

(** [name in df.columns] *)
Definition has_column (name : string) (df : frame) : bool :=
  bool_decide (name ∈ columns df).

(** The first column of that name. *)
Fixpoint lookup_col (name : string) (cs : list (string * series)) : option series :=
  match cs with
  | [] => None
  | (n, v) :: cs' => if String.eqb n name then Some v else lookup_col name cs'
  end.

(** [df[name]] *)
Definition getitem (name : string) (df : frame) : option series :=
  lookup_col name (cols df).

(** Replace the column of that name, or append one. *)
Fixpoint assign_col (name : string) (v : series) (cs : list (string * series))
  : list (string * series) :=
  match cs with
  | [] => [(name, v)]
  | (n, old) :: cs' =>
      if String.eqb n name then (n, v) :: cs' else (n, old) :: assign_col name v cs'
  end.

(** [df[name] = v]: an existing column is replaced where it stands, a new
    one is appended. *)
Definition setitem (name : string) (v : series) (df : frame) : frame :=
  Frame (nrows df) (assign_col name v (cols df)).

(** Every column has one value per row. *)
Definition well_formed (df : frame) : Prop :=
  Forall (fun c => length (snd c) = nrows df) (cols df).

(** Series arithmetic, position by position and exact.  The code computes
    in [float64], or in [int64] where both operands are integers; the
    rounding of the one and the wrap-around of the other are not
    represented here, and the statements about computed values assume
    that no integer result leaves the [int64] range ([in_int64]
    below). *)
Definition series_add (a b : series) : series := zip_with Qplus a b.
Definition series_mul (a b : series) : series := zip_with Qmult a b.
Definition series_scale (c : Q) (a : series) : series := Qmult c <$> a.

(** [s.unique()]: the distinct values in order of first appearance. *)
Fixpoint unique_from (seen : list Q) (s : series) : list Q :=
  match s with
  | [] => []
  | x :: s' =>
      if existsb (Qeq_bool x) seen then unique_from seen s'
      else x :: unique_from (x :: seen) s'
  end.
Definition unique (s : series) : list Q := unique_from [] s.

(** A [dict] keyed by group label. *)
Fixpoint dict_get (d : list (Q * Q)) (key : Q) : option Q :=
  match d with
  | [] => None
  | (k, v) :: d' => if Qeq_bool k key then Some v else dict_get d' key
  end.

(** [s.map(d)].  A label without an entry would give NaN; [series_map] is
    only applied to dictionaries built from [s.unique()], where every label
    has one (lemma [series_map_total] below). *)
Definition series_map (d : list (Q * Q)) (s : series) : series :=
  (fun x => default 0%Q (dict_get d x)) <$> s.

(** ** Statements

    The statements of [run] act on data frames through references and on
    the generator that the name [rng_] denotes.  They are written once,
    over any state that offers these two things. *)

(** References to data frames. *)
Definition loc : Type := nat.

Class Machine (Sigma : Type) : Type := {
  deref : loc -> Sigma -> option frame;     (* the object behind a reference *)
  store : loc -> frame -> Sigma -> Sigma;   (* update of that object in place *)
  variate : Sigma -> Q * Sigma              (* one standard-normal draw from [rng_] *)
}.

Definition St (Sigma A : Type) : Type := Sigma -> (exn + A) * Sigma.

Definition ret {Sigma A} (a : A) : St Sigma A := fun s => (inr a, s).
Definition raise {Sigma A} (e : exn) : St Sigma A := fun s => (inl e, s).
Definition bind {Sigma A B} (m : St Sigma A) (k : A -> St Sigma B) : St Sigma B :=
  fun s =>
    match m s with
    | (inr a, s') => k a s'
    | (inl e, s') => (inl e, s')
    end.

Notation "x <- m ;; k" := (bind m (fun x => k))
  (at level 100, m at next level, right associativity).
Notation "m ;;; k" := (bind m (fun _ => k))
  (at level 100, right associativity).

(** [for x in l: body(x)] *)
Fixpoint for_each {Sigma A} (l : list A) (body : A -> St Sigma unit) : St Sigma unit :=
  match l with
  | [] => ret tt
  | x :: l' => body x ;;; for_each l' body
  end.

Section Statements.
Context {Sigma : Type} `{Machine Sigma}.

(** *** Data-frame statements *)

Definition df_read (l : loc) : St Sigma frame :=
  fun s =>
    match deref l s with
    | Some df => (inr df, s)
    | None => (inl InvalidReference, s)
    end.

Definition df_write (l : loc) (df : frame) : St Sigma unit :=
  fun s => (inr tt, store l df s).

(** [name in df.columns] *)
Definition df_has_column (l : loc) (name : string) : St Sigma bool :=
  df <- df_read l ;; ret (has_column name df).

(** [df[name]] *)
Definition df_getitem (l : loc) (name : string) : St Sigma series :=
  df <- df_read l ;;
  match getitem name df with
  | Some v => ret v
  | None => raise (KeyError name)
  end.

(** [df[name] = v] for a series [v] *)
Definition df_setitem (l : loc) (name : string) (v : series) : St Sigma unit :=
  df <- df_read l ;; df_write l (setitem name v df).

(** [df[name] = c] for a scalar [c], broadcast over the rows *)
Definition df_setitem_scalar (l : loc) (name : string) (c : Q) : St Sigma unit :=
  df <- df_read l ;; df_write l (setitem name (replicate (nrows df) c) df).

(** [df[name] += v] *)
Definition df_iadd (l : loc) (name : string) (v : series) : St Sigma unit :=
  old <- df_getitem l name ;; df_setitem l name (series_add old v).

(** [len(df)] *)
Definition df_len (l : loc) : St Sigma nat :=
  df <- df_read l ;; ret (nrows df).

(** *** Generator statements *)

Definition draw_standard_normal : St Sigma Q :=
  fun s => (inr (fst (variate s)), snd (variate s)).

Definition check_scale (scale : Q) : St Sigma unit :=
  if Qle_bool 0 scale then ret tt else raise ScaleError.

(** [rng_.normal(loc, scale)] *)
Definition normal (loc_ scale : Q) : St Sigma Q :=
  check_scale scale ;;;
  z <- draw_standard_normal ;;
  ret (loc_ + scale * z)%Q.

Fixpoint draw_n (loc_ scale : Q) (n : nat) : St Sigma series :=
  match n with
  | O => ret []
  | S n' =>
      z <- draw_standard_normal ;;
      zs <- draw_n loc_ scale n' ;;
      ret ((loc_ + scale * z)%Q :: zs)
  end.

(** [rng_.normal(loc, scale, n)] *)
Definition normal_n (loc_ scale : Q) (n : nat) : St Sigma series :=
  check_scale scale ;;; draw_n loc_ scale n.

(** [{group: rng_.normal(0, std_dev) for group in labels}] *)
Fixpoint draw_per_group (std_dev : Q) (labels : list Q) : St Sigma (list (Q * Q)) :=
  match labels with
  | [] => ret []
  | group :: labels' =>
      v <- normal 0 std_dev ;;
      d <- draw_per_group std_dev labels' ;;
      ret ((group, v) :: d)
  end.

(** *** The statements of [run] after [experiment_data = conditions.copy()] *)

Section Run.
(** The variables [run] closes over. *)
Variable formula : string.
Variable fixed_effects : gmap string Q.
Variable random_effects : gmap string (gmap string Q).
Variable fixed_variables : list string.

(** [fixed_effects.get(var, 0)] *)
Definition coefficient (var : string) : Q :=
  default 0%Q (fixed_effects !! var).

(** [random_effects[group_var].get(part, 0.5)] *)
Definition resolve_std_dev (group_var part : string) : St Sigma Q :=
  match random_effects !! group_var with
  | Some d => ret (default (1 # 2)%Q (d !! part))
  | None => raise (KeyError group_var)
  end.

(** [has_intercept], from the text right of the tilde *)
Definition has_intercept_of (rhs : string) : bool :=
  bool_decide (is_Some (fixed_effects !! "1"))
  || negb (Re.search zero_pattern rhs).

(** The body of [for var in fixed_vars]. *)
Definition add_fixed_effect (experiment_data : loc) (dependent_var var : string)
  : St Sigma unit :=
  present <- df_has_column experiment_data var ;;
  if (present : bool) then
    x <- df_getitem experiment_data var ;;
    df_iadd experiment_data dependent_var (series_scale (coefficient var) x)
  else ret tt.

(** The body of [for part in random_effects_.split('+')]. *)
Definition add_random_part (experiment_data : loc) (dependent_var : string)
    (has_intercept : bool) (group_var part : string) : St Sigma unit :=
  let part := if String.eqb part "1" then "Intercept" else part in
  let part := Py.strip part in
  std_dev <- resolve_std_dev group_var part ;;
  groups <- df_getitem experiment_data group_var ;;
  random_effect_values <- draw_per_group std_dev (unique groups) ;;
  if String.eqb part "Intercept" then
    if has_intercept then
      groups <- df_getitem experiment_data group_var ;;
      df_iadd experiment_data dependent_var
        (series_map random_effect_values groups)
    else ret tt
  else
    present <- df_has_column experiment_data part ;;
    if (present : bool) then
      groups <- df_getitem experiment_data group_var ;;
      x <- df_getitem experiment_data part ;;
      df_iadd experiment_data dependent_var
        (series_mul (series_map random_effect_values groups) x)
    else ret tt.

(** The body of [for term in random_effect_terms]. *)
Definition add_random_term (experiment_data : loc) (dependent_var : string)
    (has_intercept : bool) (term : string * string) : St Sigma unit :=
  let random_effects_ := fst term in
  let group_var := Py.strip (snd term) in
  present <- df_has_column experiment_data group_var ;;
  if negb present then raise (GroupNotFound group_var)
  else
    for_each (Py.split "+" random_effects_)
      (add_random_part experiment_data dependent_var has_intercept group_var).

Definition simulate (experiment_data : loc) (dependent_var rhs : string)
    (added_noise : Q) : St Sigma unit :=
  let fixed_vars := fixed_variables in
  let has_intercept := has_intercept_of rhs in
  df_setitem_scalar experiment_data dependent_var
    (if has_intercept then coefficient "Intercept" else 0%Q) ;;;
  for_each fixed_vars (add_fixed_effect experiment_data dependent_var) ;;;
  let random_effect_terms := Re.findall2 term_pattern formula in
  for_each random_effect_terms
    (add_random_term experiment_data dependent_var has_intercept) ;;;
  n <- df_len experiment_data ;;
  noise <- normal_n 0 added_noise n ;;
  df_iadd experiment_data dependent_var noise.
End Run.
End Statements.

(** ** The interpreter state: a store of frames and the generators *)

(** [numpy.random]: seeding and one standard-normal variate. *)
Class RandomSource (G : Type) : Type := {
  default_rng : Z -> G;
  standard_normal : G -> Q * G
}.

(** [rng] is the generator created by [lmm_experiment] and shared by all
    calls of its [run]; [rng_] is the generator of the running call when it
    was given a [random_state], and [None] when the name [rng_] is bound to
    the shared generator itself. *)
Record world (G : Type) : Type := World {
  frames : gmap loc frame;
  rng : G;
  rng_ : option G
}.
Arguments World {G} _ _ _.
Arguments frames {G} _.
Arguments rng {G} _.
Arguments rng_ {G} _.

Section Simulation.
Context {G : Type} `{RandomSource G}.

Definition world_variate (w : world G) : Q * world G :=
  match rng_ w with
  | Some g =>
      (fst (standard_normal g),
       World (frames w) (rng w) (Some (snd (standard_normal g))))
  | None =>
      (fst (standard_normal (rng w)),
       World (frames w) (snd (standard_normal (rng w))) None)
  end.

#[export] Instance world_machine : Machine (world G) := {
  deref l w := frames w !! l;
  store l df w := World (<[l := df]> (frames w)) (rng w) (rng_ w);
  variate := world_variate
}.

(** [df.copy()]: a new object with the same contents. *)
Definition df_copy (l : loc) : St (world G) loc :=
  df <- df_read l ;;
  fun w =>
    let l' := fresh (dom (frames w)) in
    (inr l', World (<[l' := df]> (frames w)) (rng w) (rng_ w)).

(** [np.random.default_rng(seed)] raises for a negative seed. *)
Definition seed_ok (random_state : option Z) : bool :=
  match random_state with
  | Some seed => (0 <=? seed)%Z
  | None => true
  end.

(** The binding of [rng_] at the head of [run], for the extent of the
    call: the call's own generator when a [random_state] is given (which
    fails for a negative one, before anything else is done), the shared
    generator otherwise. *)
Definition with_generator {A} (random_state : option Z)
    (body : St (world G) A) : St (world G) A :=
  fun w =>
    if seed_ok random_state then
      let r := body (World (frames w) (rng w) (default_rng <$> random_state)) in
      (fst r, World (frames (snd r)) (rng (snd r)) (rng_ w))
    else (inl SeedError, w).

(** *** The closure [run] of [lmm_experiment] *)

Section Run.
Variable formula : string.
Variable fixed_effects : gmap string Q.
Variable random_effects : gmap string (gmap string Q).
Variable fixed_variables : list string.

Definition run_body (conditions : loc) (added_noise : Q) : St (world G) loc :=
  match Py.split "~" formula with
  | [dependent_var; rhs] =>
      let dependent_var := Py.strip dependent_var in
      experiment_data <- df_copy conditions ;;
      simulate formula fixed_effects random_effects fixed_variables
        experiment_data dependent_var rhs added_noise ;;;
      ret experiment_data
  | _ => raise UnpackError
  end.

Definition run (conditions : loc) (added_noise : Q) (random_state : option Z)
  : St (world G) loc :=
  with_generator random_state (run_body conditions added_noise).

(** [ground_truth = partial(run, added_noise=0.0)] *)
Definition ground_truth (conditions : loc) (random_state : option Z)
  : St (world G) loc :=
  run conditions 0 random_state.
End Run.

(** [lmm_experiment]: the parse of the formula fixes [fixed_variables];
    absent effect dictionaries are empty.  The result is the closure
    [run]; construction fails when the formula does not parse.  The
    parameters [X], [random_state] and [name] are left at their
    defaults: [random_state] only seeds the shared generator, which is
    the field [rng] of the world the closure is called in. *)
Definition lmm_experiment (formula : string)
    (fixed_effects : option (gmap string Q))
    (random_effects : option (gmap string (gmap string Q)))
  : exn + (loc -> Q -> option Z -> St (world G) loc) :=
  let fixed_effects := default ∅ fixed_effects in
  let random_effects := default ∅ random_effects in
  match _extract_variable_names formula with
  | inr (dependent, fixed_variables, random_variables) =>
      inr (run formula fixed_effects random_effects fixed_variables)
  | inl e => inl e
  end.

(** What the caller of [run] receives: the exception, or the frame behind
    the returned reference. *)
Definition outcome (r : (exn + loc) * world G) : exn + frame :=
  match r with
  | (inr l, w) =>
      match frames w !! l with
      | Some df => inr df
      | None => inl InvalidReference
      end
  | (inl e, _) => inl e
  end.

End Simulation.

(** ** The view of one call: its own frame and generator

    A second machine whose state is just the frame behind
    [experiment_data] and the generator that [rng_] denotes.  It gives the
    statements a store-free reading, related to the store-based one by
    [sim] below. *)

Section Local.
Context {G : Type} `{RandomSource G}.

#[export] Instance local_machine : Machine (frame * G) := {
  deref _ s := Some (fst s);
  store _ df s := (df, snd s);
  variate s :=
    (fst (standard_normal (snd s)), (fst s, snd (standard_normal (snd s))))
}.

(** The world in which [l] holds the frame of the local state and [rng_]
    denotes its generator: the call's own one ([own]) or the shared one. *)
Definition at_ (own : bool) (l : loc) (base : world G) (s : frame * G) : world G :=
  World (<[l := fst s]> (frames base))
    (if own then rng base else snd s)
    (if own then Some (snd s) else None).

Definition sim {A} (own : bool) (l : loc) (base : world G)
    (m : St (world G) A) (m' : St (frame * G) A) : Prop :=
  forall s, m (at_ own l base s) = (fst (m' s), at_ own l base (snd (m' s))).

(** The local reading of [simulate], as a function of frame and
    generator. *)
Definition simulate_local (formula : string) (fixed_effects : gmap string Q)
    (random_effects : gmap string (gmap string Q)) (fixed_variables : list string)
    (dependent_var rhs : string) (added_noise : Q) (df : frame) (g : G)
  : (exn + unit) * (frame * G) :=
  simulate formula fixed_effects random_effects fixed_variables
    0%nat dependent_var rhs added_noise (df, g).
End Local.

(** ** Vocabulary of the statements proved below *)

(** The text begins with a lowercase letter. *)
Definition starts_lower (s : string) : bool :=
  match s with
  | String c _ => Re.lower c
  | EmptyString => false
  end.

(** Every character of the text is in the class. *)
Fixpoint all_chars (p : ascii -> bool) (s : string) : bool :=
  match s with
  | String c s' => p c && all_chars p s'
  | EmptyString => true
  end.

(** A variable name made of word characters. *)
Definition identifier (s : string) : Prop := all_chars Re.word s = true.

(** A name the fixed-effect pattern matches as a whole: [[a-z]\w*]. *)
Definition lower_identifier (s : string) : Prop :=
  starts_lower s = true /\ all_chars Re.word s = true.

(** The name under which [add_random_part] treats a piece of a term list. *)
Definition part_name (part : string) : string :=
  Py.strip (if String.eqb part "1" then "Intercept" else part).

(** Every standard deviation of the random-effects specification is
    non-negative. *)
Definition std_devs_nonneg (random_effects : gmap string (gmap string Q)) : Prop :=
  forall group d name sd,
    random_effects !! group = Some d -> d !! name = Some sd -> (0 <= sd)%Q.

(** Every grouping variable that [run] finds in the formula is a column of
    the table and a key of the random-effects specification. *)
Definition groups_available (formula : string)
    (random_effects : gmap string (gmap string Q)) (df : frame) : Prop :=
  forall term, term ∈ Re.findall2 term_pattern formula ->
    has_column (Py.strip (snd term)) df = true /\
    is_Some (random_effects !! Py.strip (snd term)).

(** A frame with every cell in lowest terms, to compare tables by [=]. *)
Definition normalise (df : frame) : frame :=
  Frame (nrows df)
    (map (fun c : string * series => (fst c, map Qred (snd c))) (cols df)).

(** A result of [run] with its frame in that form. *)
Definition observed (r : exn + frame) : exn + frame :=
  match r with
  | inr df => inr (normalise df)
  | inl e => inl e
  end.

Section CallView.
Context {G : Type} `{RandomSource G}.

(** The generator that [rng_] denotes when the body of [run] starts. *)
Definition initial_generator (random_state : option Z) (w : world G) : G :=
  match random_state with
  | Some seed => default_rng seed
  | None => rng w
  end.

(** The frame after [m] is the frame before it, up to an assignment of
    column [dep]. *)
Definition written (dep : string) (df df' : frame) : Prop :=
  df' = df \/ exists v, df' = setitem dep v df.

(** A statement that assigns no column but [dep]. *)
Definition writes_only (dep : string) {A} (m : St (frame * G) A) : Prop :=
  forall s, written dep (fst s) (fst (snd (m s))).

(** From state [s] the statement raises nothing and assigns no column
    but [dep]. *)
Definition succeeds (dep : string) (m : St (frame * G) unit) (s : frame * G) : Prop :=
  exists s', m s = (inr tt, s') /\ written dep (fst s) (fst s').
End CallView.

(** ** Vocabulary of the further properties *)

(** The number of occurrences of a character. *)
Fixpoint count_char (c : ascii) (s : string) : nat :=
  match s with
  | String c' s' => (if Ascii.eqb c' c then 1 else 0) + count_char c s'
  | EmptyString => 0
  end.

(** The fixed-effect part of the dependent column, read off the caller's
    table: the intercept in every row, plus coefficient times column for
    each fixed variable that is a column, in the order of the list. *)
Definition fixed_part (fixed_effects : gmap string Q) (fixed_variables : list string)
    (intercept : Q) (df : frame) : series :=
  foldl
    (fun acc var =>
       match getitem var df with
       | Some x => series_add acc (series_scale (coefficient fixed_effects var) x)
       | None => acc
       end)
    (replicate (nrows df) intercept) fixed_variables.

(** A table as pandas holds it: one value per row in every column, and no
    column name twice (for a repeated name [df[name]] is a frame, not a
    series). *)
Definition proper_table (df : frame) : Prop :=
  well_formed df /\ NoDup (columns df).

(** A value that an [int64] cell or a C long can hold.  Where a column
    and a coefficient are integers pandas computes in [int64], which
    wraps around silently; the statements below about computed values are
    for inputs on which no such result leaves this range, so that the
    arithmetic of the code is the exact one (up to the rounding of
    doubles). *)
Definition in_int64 (q : Q) : bool :=
  Qle_bool (inject_Z (- 2 ^ 63)) q && negb (Qle_bool (inject_Z (2 ^ 63)) q).

Definition all_in_int64 (s : series) : bool := forallb in_int64 s.

(** No coefficient, column value, product or partial sum of the fixed
    part leaves the [int64] range. *)
Fixpoint fixed_steps_in_int64 (fixed_effects : gmap string Q)
    (fixed_variables : list string) (acc : series) (df : frame) : bool :=
  match fixed_variables with
  | [] => true
  | var :: fixed_variables' =>
      match getitem var df with
      | Some x =>
          let product := series_scale (coefficient fixed_effects var) x in
          in_int64 (coefficient fixed_effects var)
          && all_in_int64 x
          && all_in_int64 product
          && all_in_int64 (series_add acc product)
          && fixed_steps_in_int64 fixed_effects fixed_variables'
               (series_add acc product) df
      | None => fixed_steps_in_int64 fixed_effects fixed_variables' acc df
      end
  end.

Definition fixed_part_in_int64 (fixed_effects : gmap string Q)
    (fixed_variables : list string) (intercept : Q) (df : frame) : bool :=
  in_int64 intercept
  && fixed_steps_in_int64 fixed_effects fixed_variables
       (replicate (nrows df) intercept) df.

(** Every coefficient is in that range: a Python integer beyond it cannot
    be multiplied with an integer column. *)
Definition coefficients_in_int64 (fixed_effects : gmap string Q) : Prop :=
  map_Forall (fun _ c => in_int64 c = true) fixed_effects.

(** The exceptions of a call on a parsable formula: a grouping variable of
    the formula that is not a column, or one that is not a key of the
    random-effects specification. *)
Definition group_error (formula : string)
    (random_effects : gmap string (gmap string Q)) (df : frame) (e : exn) : Prop :=
  exists term,
    term ∈ Re.findall2 term_pattern formula /\
    ((e = GroupNotFound (Py.strip (snd term)) /\
      has_column (Py.strip (snd term)) df = false) \/
     (e = KeyError (Py.strip (snd term)) /\
      random_effects !! Py.strip (snd term) = None)).

(** The first parenthesis of the text is a closing one: what the
    lookahead [(?![^\(]*\))] of the fixed-effect pattern tests. *)
Fixpoint closing (s : string) : bool :=
  match s with
  | String c s' =>
      if Ascii.eqb c ")" then true
      else if Ascii.eqb c "(" then false
      else closing s'
  | EmptyString => false
  end.

Section Draws.
Context {G : Type} `{RandomSource G}.

(** The next [n] standard-normal variates of a generator, and the
    generator after them. *)
Fixpoint variates (n : nat) (g : G) : list Q :=
  match n with
  | O => []
  | S n' => fst (standard_normal g) :: variates n' (snd (standard_normal g))
  end.

Fixpoint advance (n : nat) (g : G) : G :=
  match n with
  | O => g
  | S n' => advance n' (snd (standard_normal g))
  end.

(** [normal(loc, scale)] values made from variates. *)
Definition scaled (loc_ scale : Q) (zs : list Q) : series :=
  (fun z => (loc_ + scale * z)%Q) <$> zs.
End Draws.

Section CallOutcome.
Context {G : Type} `{RandomSource G}.

(** From state [s] the statement assigns no column but [dep], and if it
    raises, the exception satisfies [E]. *)
Definition fails_only (dep : string) (E : exn -> Prop)
    (m : St (frame * G) unit) (s : frame * G) : Prop :=
  written dep (fst s) (fst (snd (m s))) /\
  match fst (m s) with
  | inr _ => True
  | inl e => E e
  end.
End CallOutcome.

Section ShapeView.
Context {G : Type} `{RandomSource G}.
Variable dep : string.
Variable table : frame.

(** The frame is the caller's table with the dependent column assigned
    one value per row. *)
Definition shaped (df : frame) : Prop :=
  exists ys, length ys = nrows table /\ df = setitem dep ys table.

(** From a state with such a frame the statement leads to one, and the
    value it returns satisfies [Q]. *)
Definition hoare {A} (m : St (frame * G) A) (Q : A -> Prop) : Prop :=
  forall s, shaped (fst s) ->
    shaped (fst (snd (m s))) /\ forall a, fst (m s) = inr a -> Q a.
End ShapeView.

(** ** Example data

    A generator whose state counts the draws made; the nth variate is
    [(n - 3) / 4]. *)

Definition counter_source : RandomSource nat := {|
  default_rng := fun seed => Z.to_nat seed;
  standard_normal := fun n => ((Z.of_nat n - 3) # 4, S n)
|}.

(** Conditions of the module's examples: two subjects, three rows each. *)
Definition example_conditions : frame :=
  Frame 6 [("x1", [0; 1 # 2; 1; 0; 1 # 2; 1]%Q);
           ("subject", [1; 1; 1; 2; 2; 2]%Q)].

Definition example_world : world nat :=
  World {[ 0%nat := example_conditions ]} 7%nat None.

(** The module's second example: [rt ~ 1 + x1] on five values of [x1]. *)
Definition linspace_conditions : frame :=
  Frame 5 [("x1", [0; 1 # 4; 1 # 2; 3 # 4; 1]%Q)].

(** A table with an upper-case covariate. *)
Definition upper_conditions : frame :=
  Frame 2 [("X1", [1; 2]%Q); ("subject", [1; 1]%Q)].

(** ** Lemmas: the monad *)

Section MonadLemmas.
Context {G : Type} `{RandomSource G}.
Variables (own : bool) (l : loc) (base : world G).

Lemma sim_ret {A} (a : A) : sim own l base (ret a) (ret a).
Proof. intros s. reflexivity. Qed.

Lemma sim_raise {A} (e : exn) : sim own l base (raise (A := A) e) (raise e).
Proof. intros s. reflexivity. Qed.

Lemma sim_bind {A B} (m : St (world G) A) m' (k : A -> St (world G) B) k' :
  sim own l base m m' ->
  (forall a, sim own l base (k a) (k' a)) ->
  sim own l base (bind m k) (bind m' k').
Proof.
  intros Hm Hk s. unfold bind. rewrite Hm.
  destruct (m' s) as [[e | a] s']; simpl; [reflexivity | apply Hk].
Qed.

Lemma sim_for_each {A} (xs : list A) (body : A -> St (world G) unit) body' :
  (forall x, sim own l base (body x) (body' x)) ->
  sim own l base (for_each xs body) (for_each xs body').
Proof.
  intros Hb. induction xs as [| x xs IH]; simpl.
  - apply sim_ret.
  - apply sim_bind; [apply Hb | intros _; exact IH].
Qed.

Lemma sim_if {A} (b : bool) (m1 m2 : St (world G) A) m1' m2' :
  sim own l base m1 m1' -> sim own l base m2 m2' ->
  sim own l base (if b then m1 else m2) (if b then m1' else m2').
Proof. destruct b; auto. Qed.

Lemma sim_df_read : sim own l base (df_read l) (df_read l).
Proof.
  intros s. unfold df_read, at_. simpl.
  rewrite lookup_insert_eq. reflexivity.
Qed.

Lemma sim_df_write df : sim own l base (df_write l df) (df_write l df).
Proof.
  intros s. unfold df_write, at_. simpl.
  rewrite insert_insert_eq. reflexivity.
Qed.

Lemma sim_draw_standard_normal :
  sim own l base draw_standard_normal draw_standard_normal.
Proof.
  intros s. unfold draw_standard_normal, at_. simpl.
  unfold world_variate. destruct own; reflexivity.
Qed.
End MonadLemmas.

Create HintDb sim.
#[local] Hint Resolve sim_ret sim_raise sim_df_read sim_df_write
  sim_draw_standard_normal : sim.

Ltac sim_step :=
  first
    [ solve [auto with sim]
    | apply sim_bind; [| intros ?]
    | apply sim_for_each; intros ?
    | apply sim_if ].

Section StatementLemmas.
Context {G : Type} `{RandomSource G}.
Variables (own : bool) (l : loc) (base : world G).

Lemma sim_df_has_column name :
  sim own l base (df_has_column l name) (df_has_column l name).
Proof. unfold df_has_column. repeat sim_step. Qed.

Lemma sim_df_getitem name :
  sim own l base (df_getitem l name) (df_getitem l name).
Proof.
  unfold df_getitem. sim_step; [sim_step |].
  destruct (getitem name a); sim_step.
Qed.

Lemma sim_df_setitem name v :
  sim own l base (df_setitem l name v) (df_setitem l name v).
Proof. unfold df_setitem. repeat sim_step. Qed.

Lemma sim_df_setitem_scalar name c :
  sim own l base (df_setitem_scalar l name c) (df_setitem_scalar l name c).
Proof. unfold df_setitem_scalar. repeat sim_step. Qed.

Hint Resolve sim_df_has_column sim_df_getitem sim_df_setitem
  sim_df_setitem_scalar : sim.

Lemma sim_df_iadd name v :
  sim own l base (df_iadd l name v) (df_iadd l name v).
Proof. unfold df_iadd. repeat sim_step. Qed.

Lemma sim_df_len : sim own l base (df_len l) (df_len l).
Proof. unfold df_len. repeat sim_step. Qed.

Lemma sim_check_scale scale :
  sim own l base (check_scale scale) (check_scale scale).
Proof. unfold check_scale. destruct (Qle_bool 0 scale); sim_step. Qed.

Hint Resolve sim_df_iadd sim_df_len sim_check_scale : sim.

Lemma sim_normal loc_ scale :
  sim own l base (normal loc_ scale) (normal loc_ scale).
Proof. unfold normal. repeat sim_step. Qed.

Lemma sim_draw_n loc_ scale n :
  sim own l base (draw_n loc_ scale n) (draw_n loc_ scale n).
Proof. induction n as [| n IH]; simpl; repeat sim_step. Qed.

Hint Resolve sim_normal sim_draw_n : sim.

Lemma sim_normal_n loc_ scale n :
  sim own l base (normal_n loc_ scale n) (normal_n loc_ scale n).
Proof. unfold normal_n. repeat sim_step. Qed.

Lemma sim_draw_per_group std_dev labels :
  sim own l base (draw_per_group std_dev labels) (draw_per_group std_dev labels).
Proof. induction labels as [| x xs IH]; simpl; repeat sim_step. Qed.

Hint Resolve sim_normal_n sim_draw_per_group : sim.

Section Run.
Variable formula : string.
Variable fixed_effects : gmap string Q.
Variable random_effects : gmap string (gmap string Q).
Variable fixed_variables : list string.

Lemma sim_resolve_std_dev group_var part :
  sim own l base (resolve_std_dev random_effects group_var part)
    (resolve_std_dev random_effects group_var part).
Proof.
  unfold resolve_std_dev. destruct (random_effects !! group_var); sim_step.
Qed.

Hint Resolve sim_resolve_std_dev : sim.

Lemma sim_add_fixed_effect dep var :
  sim own l base (add_fixed_effect fixed_effects l dep var)
    (add_fixed_effect fixed_effects l dep var).
Proof. unfold add_fixed_effect. repeat sim_step. Qed.

Lemma sim_add_random_part dep hi group_var part :
  sim own l base (add_random_part random_effects l dep hi group_var part)
    (add_random_part random_effects l dep hi group_var part).
Proof.
  unfold add_random_part. repeat sim_step.
Qed.

Hint Resolve sim_add_fixed_effect sim_add_random_part : sim.

Lemma sim_add_random_term dep hi term :
  sim own l base (add_random_term random_effects l dep hi term)
    (add_random_term random_effects l dep hi term).
Proof. unfold add_random_term. repeat sim_step. Qed.

Hint Resolve sim_add_random_term : sim.

Lemma sim_simulate dep rhs noise :
  sim own l base
    (simulate formula fixed_effects random_effects fixed_variables l dep rhs noise)
    (simulate formula fixed_effects random_effects fixed_variables l dep rhs noise).
Proof. unfold simulate. repeat sim_step. Qed.
End Run.
End StatementLemmas.

(** ** Lemmas: [run] in terms of the local reading *)

Section RunUnfold.
Context {G : Type} `{RandomSource G}.

Lemma world_eta (w : world G) : World (frames w) (rng w) (rng_ w) = w.
Proof. destruct w; reflexivity. Qed.

Lemma run_seed_error formula fe re fv c noise rs (w : world G) :
  seed_ok rs = false ->
  run formula fe re fv c noise rs w = (inl SeedError, w).
Proof. intros Hseed. unfold run, with_generator. rewrite Hseed. reflexivity. Qed.

Lemma run_unpack_error formula fe re fv c noise rs (w : world G) :
  seed_ok rs = true ->
  (forall d rhs, Py.split "~" formula <> [d; rhs]) ->
  run formula fe re fv c noise rs w = (inl UnpackError, w).
Proof.
  intros Hseed Hs. unfold run, with_generator, run_body. rewrite Hseed.
  destruct (Py.split "~" formula) as [| d [| rhs [| ? ?]]]; simpl;
    try (rewrite world_eta; reflexivity).
  exfalso. eapply Hs. reflexivity.
Qed.

Lemma run_body_unfold formula fe re fv c noise rs (w : world G) df d rhs :
  Py.split "~" formula = [d; rhs] ->
  frames w !! c = Some df ->
  let l := fresh (dom (frames w)) in
  let res := simulate_local formula fe re fv (Py.strip d) rhs noise df
               (initial_generator rs w) in
  run_body formula fe re fv c noise
    (World (frames w) (rng w) (default_rng <$> rs)) =
    (match fst res with inr _ => inr l | inl e => inl e end,
     at_ (bool_decide (is_Some rs)) l w (snd res)).
Proof.
  intros Hs Hc l res. unfold run_body. rewrite Hs.
  unfold bind at 1. unfold df_copy, bind at 1. unfold df_read at 1. simpl.
  rewrite Hc. simpl. fold l.
  set (g0 := initial_generator rs w).
  assert (Hw : World (<[l := df]> (frames w)) (rng w) (default_rng <$> rs)
               = at_ (bool_decide (is_Some rs)) l w (df, g0)).
  { unfold at_, g0, initial_generator. destruct rs; reflexivity. }
  rewrite Hw. unfold bind at 1.
  rewrite (sim_simulate _ l w formula fe re fv (Py.strip d) rhs noise (df, g0)).
  change (simulate formula fe re fv l (Py.strip d) rhs noise (df, g0)) with res.
  destruct res as [[e | []] s']; reflexivity.
Qed.

Lemma run_unfold formula fe re fv c noise rs (w : world G) df d rhs :
  Py.split "~" formula = [d; rhs] ->
  frames w !! c = Some df ->
  seed_ok rs = true ->
  run formula fe re fv c noise rs w =
    let l := fresh (dom (frames w)) in
    let res := simulate_local formula fe re fv (Py.strip d) rhs noise df
                 (initial_generator rs w) in
    (match fst res with inr _ => inr l | inl e => inl e end,
     World (<[l := fst (snd res)]> (frames w))
       (match rs with Some _ => rng w | None => snd (snd res) end)
       (rng_ w)).
Proof.
  intros Hs Hc Hseed. unfold run, with_generator. rewrite Hseed.
  rewrite (run_body_unfold _ _ _ _ _ _ _ _ _ _ _ Hs Hc). simpl.
  destruct rs; reflexivity.
Qed.

(** The caller's view of a call, from the local reading. *)
Lemma outcome_run formula fe re fv c noise rs (w : world G) df d rhs :
  Py.split "~" formula = [d; rhs] ->
  frames w !! c = Some df ->
  seed_ok rs = true ->
  outcome (run formula fe re fv c noise rs w) =
    let res := simulate_local formula fe re fv (Py.strip d) rhs noise df
                 (initial_generator rs w) in
    match fst res with inr _ => inr (fst (snd res)) | inl e => inl e end.
Proof.
  intros Hs Hc Hseed. rewrite (run_unfold _ _ _ _ _ _ _ _ _ _ _ Hs Hc Hseed). simpl.
  destruct (fst (simulate_local _ _ _ _ _ _ _ _ _)); [reflexivity |].
  unfold outcome. simpl. rewrite lookup_insert_eq. reflexivity.
Qed.
End RunUnfold.

(** ** Lemmas: data frames *)

Lemma lookup_assign_col_eq name v cs :
  lookup_col name (assign_col name v cs) = Some v.
Proof.
  induction cs as [| [n old] cs IH]; simpl.
  - rewrite String.eqb_refl. reflexivity.
  - destruct (String.eqb n name) eqn:E; simpl; rewrite E; [reflexivity | exact IH].
Qed.

Lemma lookup_assign_col_ne name name' v cs :
  name <> name' ->
  lookup_col name' (assign_col name v cs) = lookup_col name' cs.
Proof.
  intros Hne. induction cs as [| [n old] cs IH]; simpl.
  - destruct (String.eqb name name') eqn:E; [| reflexivity].
    apply String.eqb_eq in E. contradiction.
  - destruct (String.eqb n name) eqn:E; simpl.
    + apply String.eqb_eq in E. subst n.
      destruct (String.eqb name name') eqn:E'; [| reflexivity].
      apply String.eqb_eq in E'. contradiction.
    + rewrite IH. reflexivity.
Qed.

Lemma assign_col_twice name v1 v2 cs :
  assign_col name v2 (assign_col name v1 cs) = assign_col name v2 cs.
Proof.
  induction cs as [| [n old] cs IH]; simpl.
  - rewrite String.eqb_refl. reflexivity.
  - destruct (String.eqb n name) eqn:E; simpl; rewrite E; [reflexivity |].
    rewrite IH. reflexivity.
Qed.

Lemma lookup_col_elem_of name cs :
  is_Some (lookup_col name cs) <-> name ∈ cs.*1.
Proof.
  induction cs as [| [n v] cs IH]; simpl.
  - split; [intros [? ?]; discriminate | intros Hin; inversion Hin].
  - destruct (String.eqb n name) eqn:E.
    + apply String.eqb_eq in E. subst n. split; [intros _; left | eauto].
    + apply String.eqb_neq in E. rewrite IH. split.
      * intros Hin. right. exact Hin.
      * intros Hin. apply elem_of_cons in Hin as [-> | Hin]; [contradiction | exact Hin].
Qed.

Lemma names_assign_col name v cs :
  (assign_col name v cs).*1 = if bool_decide (name ∈ cs.*1) then cs.*1 else (cs.*1 ++ [name])%list.
Proof.
  induction cs as [| [n old] cs IH]; [reflexivity |].
  cbn [assign_col fmap list_fmap fst].
  destruct (String.eqb n name) eqn:E; cbn [fmap list_fmap fst].
  - apply String.eqb_eq in E. subst n.
    rewrite bool_decide_eq_true_2; [reflexivity | left].
  - apply String.eqb_neq in E. rewrite IH.
    destruct (bool_decide (name ∈ cs.*1)) eqn:B.
    + apply bool_decide_eq_true_1 in B.
      rewrite bool_decide_eq_true_2; [reflexivity | right; exact B].
    + apply bool_decide_eq_false_1 in B.
      rewrite bool_decide_eq_false_2; [reflexivity |].
      intros Hin. apply elem_of_cons in Hin as [-> | Hin]; contradiction.
Qed.

Lemma getitem_setitem_eq name v df : getitem name (setitem name v df) = Some v.
Proof. apply lookup_assign_col_eq. Qed.

Lemma getitem_setitem_ne name name' v df :
  name <> name' -> getitem name' (setitem name v df) = getitem name' df.
Proof. apply lookup_assign_col_ne. Qed.

Lemma setitem_setitem name v1 v2 df :
  setitem name v2 (setitem name v1 df) = setitem name v2 df.
Proof. unfold setitem. simpl. rewrite assign_col_twice. reflexivity. Qed.

Lemma has_column_getitem name df :
  has_column name df = true <-> is_Some (getitem name df).
Proof.
  unfold has_column, getitem, columns. rewrite lookup_col_elem_of.
  split; [apply bool_decide_eq_true_1 | apply bool_decide_eq_true_2].
Qed.

Lemma columns_setitem name v df :
  columns (setitem name v df) =
    if has_column name df then columns df else (columns df ++ [name])%list.
Proof. apply names_assign_col. Qed.

Lemma has_column_setitem_eq name v df : has_column name (setitem name v df) = true.
Proof. apply has_column_getitem. rewrite getitem_setitem_eq. eauto. Qed.

Lemma has_column_setitem_ne name name' v df :
  name <> name' -> has_column name' (setitem name v df) = has_column name' df.
Proof.
  intros Hne. apply eq_true_iff_eq.
  rewrite !has_column_getitem, getitem_setitem_ne by exact Hne. reflexivity.
Qed.

Lemma has_column_setitem_mono name name' v df :
  has_column name' df = true -> has_column name' (setitem name v df) = true.
Proof.
  intros Hc. destruct (decide (name = name')) as [-> | Hne].
  - apply has_column_setitem_eq.
  - rewrite has_column_setitem_ne by exact Hne. exact Hc.
Qed.

(** ** Lemmas: the statements only ever assign the dependent column *)

Section WritesOnly.
Context {G : Type} `{RandomSource G}.

Lemma written_refl dep df : written dep df df.
Proof. left. reflexivity. Qed.

Lemma written_trans dep df1 df2 df3 :
  written dep df1 df2 -> written dep df2 df3 -> written dep df1 df3.
Proof.
  intros [-> | [v ->]] [-> | [v' ->]].
  - left. reflexivity.
  - right. eauto.
  - right. eauto.
  - right. exists v'. apply setitem_setitem.
Qed.

Variable dep : string.

Lemma wo_ret {A} (a : A) : writes_only dep (ret (Sigma := frame * G) a).
Proof. intros s. apply written_refl. Qed.

Lemma wo_raise {A} e : writes_only dep (raise (Sigma := frame * G) (A := A) e).
Proof. intros s. apply written_refl. Qed.

Lemma wo_bind {A B} (m : St (frame * G) A) (k : A -> St (frame * G) B) :
  writes_only dep m -> (forall a, writes_only dep (k a)) ->
  writes_only dep (bind m k).
Proof.
  intros Hm Hk s. unfold bind. specialize (Hm s).
  destruct (m s) as [[e | a] s1]; simpl in *; [exact Hm |].
  eapply written_trans; [exact Hm | apply Hk].
Qed.

Lemma wo_for_each {A} (xs : list A) (body : A -> St (frame * G) unit) :
  (forall x, writes_only dep (body x)) -> writes_only dep (for_each xs body).
Proof.
  intros Hb. induction xs as [| x xs IH]; simpl.
  - apply wo_ret.
  - apply wo_bind; [apply Hb | intros _; exact IH].
Qed.

Lemma wo_if {A} (b : bool) (m1 m2 : St (frame * G) A) :
  writes_only dep m1 -> writes_only dep m2 ->
  writes_only dep (if b then m1 else m2).
Proof. destruct b; auto. Qed.

Lemma wo_df_read l : writes_only dep (df_read l).
Proof. intros s. apply written_refl. Qed.

Lemma wo_draw_standard_normal : writes_only dep draw_standard_normal.
Proof. intros s. apply written_refl. Qed.

Lemma wo_df_setitem l v : writes_only dep (df_setitem l dep v).
Proof. intros s. right. eexists. reflexivity. Qed.

Lemma wo_df_setitem_scalar l c : writes_only dep (df_setitem_scalar l dep c).
Proof. intros s. right. eexists. reflexivity. Qed.
End WritesOnly.

Create HintDb wo.
#[local] Hint Resolve wo_ret wo_raise wo_df_read wo_draw_standard_normal
  wo_df_setitem wo_df_setitem_scalar : wo.

Ltac wo_step :=
  first
    [ solve [auto with wo]
    | apply wo_bind; [| intros ?]
    | apply wo_for_each; intros ?
    | apply wo_if
    | match goal with
      | |- writes_only _ (match ?x with _ => _ end) => destruct x
      end ].

Section WritesOnlyRun.
Context {G : Type} `{RandomSource G}.
Variable dep : string.

Lemma wo_draw_n loc_ scale n :
  writes_only (G := G) dep (draw_n loc_ scale n).
Proof. induction n; simpl; repeat wo_step. Qed.

Lemma wo_draw_per_group std_dev labels :
  writes_only (G := G) dep (draw_per_group std_dev labels).
Proof.
  induction labels; simpl; [repeat wo_step |].
  unfold normal, check_scale. repeat wo_step.
Qed.

Hint Resolve wo_draw_n wo_draw_per_group : wo.

Lemma wo_simulate formula fe re fv l rhs noise :
  writes_only (G := G) dep (simulate formula fe re fv l dep rhs noise).
Proof.
  unfold simulate, add_fixed_effect, add_random_term, add_random_part,
    resolve_std_dev, normal_n, check_scale, df_iadd, df_getitem,
    df_has_column, df_len.
  repeat wo_step.
Qed.

(** The frame that [simulate] leaves is the initial one with the
    dependent column assigned. *)
Lemma simulate_local_written formula fe re fv rhs noise df (g : G) :
  exists v,
    fst (snd (simulate_local formula fe re fv dep rhs noise df g)) =
      setitem dep v df.
Proof.
  unfold simulate_local, simulate.
  set (m := bind (for_each fv _) _).
  assert (Hm : writes_only (G := G) dep m).
  { unfold m, add_fixed_effect, add_random_term, add_random_part,
      resolve_std_dev, normal_n, check_scale, df_iadd, df_getitem,
      df_has_column, df_len.
    repeat wo_step. }
  unfold bind at 1. unfold df_setitem_scalar at 1, bind at 1. simpl.
  match goal with |- context [m ?s] => specialize (Hm s) end.
  destruct (m _) as [r s']. simpl in *.
  destruct Hm as [-> | [v ->]]; [eauto |].
  exists v. apply setitem_setitem.
Qed.
End WritesOnlyRun.

(** ** Lemmas: what a call leaves in the store *)

Section RunFacts.
Context {G : Type} `{RandomSource G}.

(** Objects that exist before a call are the same after it. *)
Lemma run_keeps_store formula fe re fv conditions noise rs (w : world G) df l :
  frames w !! conditions = Some df ->
  is_Some (frames w !! l) ->
  frames (snd (run formula fe re fv conditions noise rs w)) !! l = frames w !! l.
Proof.
  intros Hc [x Hl].
  destruct (seed_ok rs) eqn:Hseed;
    [| rewrite run_seed_error by exact Hseed; reflexivity].
  destruct (Py.split "~" formula) as [| d [| rhs [| ? ?]]] eqn:Hs.
  1,2,4: rewrite run_unpack_error
           by first [exact Hseed | intros ? ?; rewrite Hs; discriminate];
         reflexivity.
  rewrite (run_unfold _ _ _ _ _ _ _ _ _ _ _ Hs Hc Hseed). simpl.
  apply lookup_insert_ne. intros E.
  pose proof (is_fresh (dom (frames w))) as Hfresh.
  rewrite E in Hfresh. apply Hfresh. apply elem_of_dom. eauto.
Qed.

(** With an explicit seed the caller's result is a function of the table
    contents and the seed. *)
Lemma outcome_run_seeded formula fe re fv noise seed (w : world G) c df :
  frames w !! c = Some df ->
  outcome (run formula fe re fv c noise (Some seed) w) =
    if seed_ok (Some seed) then
      match Py.split "~" formula with
      | [d; rhs] =>
          let res := simulate_local formula fe re fv (Py.strip d) rhs noise df
                       (default_rng seed) in
          match fst res with inr _ => inr (fst (snd res)) | inl e => inl e end
      | _ => inl UnpackError
      end
    else inl SeedError.
Proof.
  intros Hc.
  destruct (seed_ok (Some seed)) eqn:Hseed;
    [| rewrite run_seed_error by exact Hseed; reflexivity].
  destruct (Py.split "~" formula) as [| d [| rhs [| ? ?]]] eqn:Hs.
  1,2,4: rewrite run_unpack_error
           by first [exact Hseed | intros ? ?; rewrite Hs; discriminate];
         reflexivity.
  exact (outcome_run formula fe re fv c noise (Some seed) w df d rhs Hs Hc Hseed).
Qed.

(** With an explicit seed the shared generator is not advanced. *)
Lemma run_with_seed_keeps_rng formula fe re fv noise seed (w : world G) c df :
  frames w !! c = Some df ->
  rng (snd (run formula fe re fv c noise (Some seed) w)) = rng w.
Proof.
  intros Hc.
  destruct (seed_ok (Some seed)) eqn:Hseed;
    [| rewrite run_seed_error by exact Hseed; reflexivity].
  destruct (Py.split "~" formula) as [| d [| rhs [| ? ?]]] eqn:Hs.
  1,2,4: rewrite !run_unpack_error
           by first [exact Hseed | intros ? ?; rewrite Hs; discriminate];
         reflexivity.
  rewrite (run_unfold _ _ _ _ _ _ _ _ _ _ _ Hs Hc Hseed). reflexivity.
Qed.
End RunFacts.

(** ** Lemmas: the statements in the local reading *)

Lemma bind_ok {Sigma A B} (m : St Sigma A) (k : A -> St Sigma B) s a s' :
  m s = (inr a, s') -> bind m k s = k a s'.
Proof. intros E. unfold bind. rewrite E. reflexivity. Qed.

Lemma bind_fail {Sigma A B} (m : St Sigma A) (k : A -> St Sigma B) s e s' :
  m s = (inl e, s') -> bind m k s = (inl e, s').
Proof. intros E. unfold bind. rewrite E. reflexivity. Qed.

Lemma bind_ext {Sigma A B} (m : St Sigma A) (k k' : A -> St Sigma B) s :
  (forall a s', k a s' = k' a s') -> bind m k s = bind m k' s.
Proof. intros Hk. unfold bind. destruct (m s) as [[e | a] s']; auto. Qed.

Ltac run_stmt E := rewrite (bind_ok _ _ _ _ _ E).

Section LocalEquations.
Context {G : Type} `{RandomSource G}.
Implicit Types (df : frame) (g : G) (l : loc).

Lemma local_has_column l name df g :
  df_has_column l name (df, g) = (inr (has_column name df), (df, g)).
Proof. reflexivity. Qed.

Lemma local_len l df g : df_len l (df, g) = (inr (nrows df), (df, g)).
Proof. reflexivity. Qed.

Lemma local_setitem_scalar l name c df g :
  df_setitem_scalar l name c (df, g) =
    (inr tt, (setitem name (replicate (nrows df) c) df, g)).
Proof. reflexivity. Qed.

Lemma local_getitem l name df g v :
  getitem name df = Some v ->
  df_getitem l name (df, g) = (inr v, (df, g)).
Proof. intros Hv. unfold df_getitem, bind. simpl. rewrite Hv. reflexivity. Qed.

Lemma local_iadd l name v df g old :
  getitem name df = Some old ->
  df_iadd l name v (df, g) = (inr tt, (setitem name (series_add old v) df, g)).
Proof.
  intros Hv. unfold df_iadd. run_stmt (local_getitem l _ _ g _ Hv).
  reflexivity.
Qed.

(** Draws never touch the frame; they fail only on a negative scale. *)
Lemma local_draw_n loc_ scale n df g :
  exists zs g',
    draw_n loc_ scale n (df, g) = (inr zs, (df, g')) /\
    length zs = n /\
    Forall (fun z => exists v, z = (loc_ + scale * v)%Q) zs.
Proof.
  revert g. induction n as [| n IH]; intros g; simpl.
  - exists [], g. repeat split. constructor.
  - destruct (IH (snd (standard_normal g))) as (zs & g' & E & Hlen & Hall).
    exists ((loc_ + scale * fst (standard_normal g))%Q :: zs), g'.
    split; [| split].
    + erewrite bind_ok by reflexivity. run_stmt E. reflexivity.
    + simpl. congruence.
    + constructor; [eauto | exact Hall].
Qed.

Lemma local_check_scale scale df g :
  (0 <= scale)%Q -> check_scale scale (df, g) = (inr tt, (df, g)).
Proof.
  intros Hs. unfold check_scale. apply Qle_bool_iff in Hs. rewrite Hs.
  reflexivity.
Qed.

Lemma local_normal_n loc_ scale n df g :
  (0 <= scale)%Q ->
  exists zs g',
    normal_n loc_ scale n (df, g) = (inr zs, (df, g')) /\
    length zs = n /\
    Forall (fun z => exists v, z = (loc_ + scale * v)%Q) zs.
Proof.
  intros Hs. unfold normal_n. run_stmt (local_check_scale _ df g Hs).
  apply local_draw_n.
Qed.

Lemma local_draw_per_group std_dev labels df g :
  (0 <= std_dev)%Q ->
  exists d g', draw_per_group std_dev labels (df, g) = (inr d, (df, g')).
Proof.
  intros Hs.
  revert g. induction labels as [| x xs IH]; intros g; simpl.
  - eexists _, _. reflexivity.
  - destruct (IH (snd (standard_normal g))) as (d & g' & E).
    eexists _, g'.
    erewrite bind_ok; [run_stmt E; reflexivity |].
    unfold normal. run_stmt (local_check_scale _ df g Hs).
    erewrite bind_ok by reflexivity. reflexivity.
Qed.

(** Any world in which [l] holds a frame is the store view of a local
    state. *)
Lemma world_as_at (w : world G) l df :
  frames w !! l = Some df ->
  w = at_ (bool_decide (is_Some (rng_ w))) l w
        (df, match rng_ w with Some g => g | None => rng w end).
Proof.
  intros Hl. destruct w as [fr r [g |]]; unfold at_; simpl in *;
    rewrite insert_id by exact Hl; reflexivity.
Qed.
End LocalEquations.

(** ** Lemmas: when the statements raise nothing *)

Section NoError.
Context {G : Type} `{RandomSource G}.
Implicit Types (df : frame) (g : G) (l : loc).

Lemma has_column_written dep name df df' :
  written dep df df' -> has_column name df = true -> has_column name df' = true.
Proof.
  intros [-> | [v ->]] Hc; [exact Hc | apply has_column_setitem_mono; exact Hc].
Qed.

Lemma succeeds_for_each {A} dep (P : frame -> Prop) (xs : list A)
    (body : A -> St (frame * G) unit) :
  (forall df df', written dep df df' -> P df -> P df') ->
  (forall x s, x ∈ xs -> P (fst s) -> succeeds dep (body x) s) ->
  forall s, P (fst s) -> succeeds dep (for_each xs body) s.
Proof.
  intros HP. induction xs as [| x xs IH]; intros Hb s Hs; simpl.
  - exists s. split; [reflexivity | apply written_refl].
  - destruct (Hb x s) as (s1 & E1 & W1); [left | exact Hs |].
    destruct (IH (fun y s0 Hy => Hb y s0 (list_elem_of_further _ _ _ Hy)) s1)
      as (s2 & E2 & W2); [eapply HP; eassumption |].
    exists s2. unfold bind. rewrite E1. split; [exact E2 |].
    eapply written_trans; eassumption.
Qed.

Lemma add_fixed_effect_succeeds fe l dep var df g :
  has_column dep df = true ->
  succeeds dep (add_fixed_effect fe l dep var) (df, g).
Proof.
  intros Hdep. unfold succeeds, add_fixed_effect.
  run_stmt (local_has_column l var df g).
  destruct (has_column var df) eqn:Hvar.
  - apply has_column_getitem in Hvar as [x Hx].
    apply has_column_getitem in Hdep as [old Hold].
    run_stmt (local_getitem l _ _ g _ Hx).
    rewrite (local_iadd _ _ _ _ _ _ Hold).
    eexists. split; [reflexivity |]. right. eexists. reflexivity.
  - eexists. split; [reflexivity | apply written_refl].
Qed.

Variable random_effects : gmap string (gmap string Q).
Hypothesis Hnonneg : std_devs_nonneg random_effects.

Lemma resolved_std_dev_nonneg group d part :
  random_effects !! group = Some d -> (0 <= default (1 # 2) (d !! part))%Q.
Proof.
  intros Hg. destruct (d !! part) as [sd |] eqn:E; simpl.
  - eapply Hnonneg; eassumption.
  - discriminate.
Qed.

(** A random slope on a name that is not a column: the draws are made and
    nothing is added. *)
Lemma local_resolve_std_dev group part d df g :
  random_effects !! group = Some d ->
  resolve_std_dev random_effects group part (df, g) =
    (inr (default (1 # 2)%Q (d !! part)), (df, g)).
Proof. intros Hd. unfold resolve_std_dev. rewrite Hd. reflexivity. Qed.

Lemma add_random_part_missing_slope l dep hi group part df g :
  has_column group df = true ->
  is_Some (random_effects !! group) ->
  part_name part <> "Intercept" ->
  has_column (part_name part) df = false ->
  exists g',
    add_random_part random_effects l dep hi group part (df, g) = (inr tt, (df, g')).
Proof.
  intros Hgrp [d Hd] Hname Hcol.
  unfold add_random_part. fold (part_name part).
  run_stmt (local_resolve_std_dev group (part_name part) d df g Hd).
  apply has_column_getitem in Hgrp as [groups Hgroups].
  run_stmt (local_getitem l _ _ g _ Hgroups).
  destruct (local_draw_per_group (default (1 # 2)%Q (d !! part_name part))
              (unique groups) df g) as (dict & g' & E).
  { eapply resolved_std_dev_nonneg; eassumption. }
  run_stmt E.
  apply String.eqb_neq in Hname. rewrite Hname.
  run_stmt (local_has_column l (part_name part) df g').
  rewrite Hcol. eexists. reflexivity.
Qed.

Lemma add_random_part_succeeds l dep hi group part df g :
  has_column dep df = true ->
  has_column group df = true ->
  is_Some (random_effects !! group) ->
  succeeds dep (add_random_part random_effects l dep hi group part) (df, g).
Proof.
  intros Hdep Hgrp [d Hd].
  unfold succeeds, add_random_part. fold (part_name part).
  run_stmt (local_resolve_std_dev group (part_name part) d df g Hd).
  apply has_column_getitem in Hgrp as [groups Hgroups].
  apply has_column_getitem in Hdep as [old Hold].
  run_stmt (local_getitem l _ _ g _ Hgroups).
  destruct (local_draw_per_group (default (1 # 2)%Q (d !! part_name part))
              (unique groups) df g) as (dict & g' & E).
  { eapply resolved_std_dev_nonneg; eassumption. }
  run_stmt E.
  destruct (String.eqb (part_name part) "Intercept").
  - destruct hi.
    + run_stmt (local_getitem l _ _ g' _ Hgroups).
      rewrite (local_iadd _ _ _ _ _ _ Hold).
      eexists. split; [reflexivity |]. right. eexists. reflexivity.
    + eexists. split; [reflexivity | apply written_refl].
  - run_stmt (local_has_column l (part_name part) df g').
    destruct (has_column (part_name part) df) eqn:Hcol.
    + apply has_column_getitem in Hcol as [x Hx].
      run_stmt (local_getitem l _ _ g' _ Hgroups).
      run_stmt (local_getitem l _ _ g' _ Hx).
      rewrite (local_iadd _ _ _ _ _ _ Hold).
      eexists. split; [reflexivity |]. right. eexists. reflexivity.
    + eexists. split; [reflexivity | apply written_refl].
Qed.

Lemma add_random_term_succeeds l dep hi term df g :
  has_column dep df = true ->
  has_column (Py.strip (snd term)) df = true ->
  is_Some (random_effects !! Py.strip (snd term)) ->
  succeeds dep (add_random_term random_effects l dep hi term) (df, g).
Proof.
  intros Hdep Hgrp Hre. unfold add_random_term.
  unfold succeeds. run_stmt (local_has_column l (Py.strip (snd term)) df g).
  rewrite Hgrp. cbn [negb].
  apply (succeeds_for_each dep
           (fun df0 => has_column dep df0 = true /\
                       has_column (Py.strip (snd term)) df0 = true)).
  - intros df1 df2 W [H1 H2]. split; eapply has_column_written; eassumption.
  - intros part [df1 g1] _ [H1 H2]. apply add_random_part_succeeds; assumption.
  - split; assumption.
Qed.

Lemma simulate_succeeds formula fe fv l dep rhs noise df g :
  groups_available formula random_effects df ->
  (0 <= noise)%Q ->
  exists s', simulate formula fe random_effects fv l dep rhs noise (df, g)
             = (inr tt, s').
Proof.
  intros Havail Hnoise. unfold simulate.
  erewrite bind_ok by apply local_setitem_scalar.
  set (df1 := setitem dep _ df).
  assert (Hdep1 : has_column dep df1 = true) by apply has_column_setitem_eq.
  pose (P := fun df0 : frame =>
          has_column dep df0 = true /\
          forall term, term ∈ Re.findall2 term_pattern formula ->
            has_column (Py.strip (snd term)) df0 = true).
  assert (HP : forall df0 df', written dep df0 df' -> P df0 -> P df').
  { intros df0 df' W [H1 H2]. split.
    - eapply has_column_written; eassumption.
    - intros term Hterm. eapply has_column_written; [exact W | auto]. }
  assert (P1 : P df1).
  { split; [exact Hdep1 |]. intros term Hterm.
    apply has_column_setitem_mono. apply Havail. exact Hterm. }
  destruct (succeeds_for_each dep P fv (add_fixed_effect fe l dep) HP) with (s := (df1, g))
    as ([df2 g2] & E2 & W2).
  { intros var [df0 g0] _ [H1 _]. apply add_fixed_effect_succeeds. exact H1. }
  { exact P1. }
  run_stmt E2.
  assert (P2 : P df2) by (eapply HP; [exact W2 | exact P1]).
  destruct (succeeds_for_each dep P (Re.findall2 term_pattern formula)
              (add_random_term random_effects l dep (has_intercept_of fe rhs)) HP)
    with (s := (df2, g2)) as ([df3 g3] & E3 & W3).
  { intros term [df0 g0] Hterm [H1 H2].
    apply add_random_term_succeeds; [exact H1 | auto | apply Havail; exact Hterm]. }
  { exact P2. }
  run_stmt E3.
  assert (P3 : P df3) by (eapply HP; [exact W3 | exact P2]).
  run_stmt (local_len l df3 g3).
  destruct (local_normal_n 0 noise (nrows df3) df3 g3 Hnoise) as (zs & g4 & E4 & _).
  run_stmt E4.
  destruct P3 as [Hdep3 _]. apply has_column_getitem in Hdep3 as [old Hold].
  rewrite (local_iadd _ _ _ _ _ _ Hold). eexists. reflexivity.
Qed.
End NoError.

(** ** Lemmas: the per-group draws cover every label *)

Lemma bind_inr {Sigma A B} (m : St Sigma A) (k : A -> St Sigma B) s b s' :
  bind m k s = (inr b, s') ->
  exists a s1, m s = (inr a, s1) /\ k a s1 = (inr b, s').
Proof.
  unfold bind. destruct (m s) as [[e | a] s1]; [discriminate | eauto].
Qed.

Lemma draw_per_group_keys {Sigma} `{Machine Sigma} std_dev labels
    (s s' : Sigma) d :
  draw_per_group std_dev labels s = (inr d, s') -> d.*1 = labels.
Proof.
  revert s s' d. induction labels as [| x xs IH]; intros s s' d; simpl.
  - intros E. injection E as <- _. reflexivity.
  - intros E. apply bind_inr in E as (v & s1 & _ & E).
    apply bind_inr in E as (d' & s2 & Hd & E).
    injection E as <- _. cbn [fmap list_fmap fst]. f_equal.
    exact (IH _ _ _ Hd).
Qed.

Lemma Qeq_bool_sym a b : Qeq_bool a b = Qeq_bool b a.
Proof.
  apply eq_true_iff_eq. rewrite !Qeq_bool_iff. split; intros E; symmetry; exact E.
Qed.

Lemma Qeq_bool_trans a b c :
  Qeq_bool a b = true -> Qeq_bool b c = true -> Qeq_bool a c = true.
Proof.
  rewrite !Qeq_bool_iff. intros E1 E2. rewrite E1. exact E2.
Qed.

Lemma unique_from_covers seen s x :
  x ∈ s ->
  existsb (Qeq_bool x) seen = true \/
  existsb (fun k => Qeq_bool k x) (unique_from seen s) = true.
Proof.
  revert seen. induction s as [| y s IH]; intros seen Hin; [inversion Hin |].
  apply elem_of_cons in Hin as [-> | Hin]; simpl.
  - destruct (existsb (Qeq_bool y) seen) eqn:E; [left; reflexivity |].
    right. simpl. rewrite (proj2 (Qeq_bool_iff y y)); reflexivity.
  - destruct (existsb (Qeq_bool y) seen) eqn:E.
    + apply IH. exact Hin.
    + destruct (IH (y :: seen) Hin) as [Hs | Hu].
      * simpl in Hs. apply orb_true_iff in Hs as [Hs | Hs].
        -- right. simpl. rewrite Qeq_bool_sym, Hs. reflexivity.
        -- left. exact Hs.
      * right. simpl. rewrite Hu. apply orb_true_r.
Qed.

Lemma dict_get_is_Some (d : list (Q * Q)) x :
  existsb (fun k => Qeq_bool k x) d.*1 = true -> is_Some (dict_get d x).
Proof.
  induction d as [| [k v] d IH]; simpl; [discriminate |].
  destruct (Qeq_bool k x); [eauto | exact IH].
Qed.

(** In [run] the dictionary given to [map] has the keys
    [groups.unique()]: every label of [groups] has an entry. *)
Lemma series_map_total (d : list (Q * Q)) (groups : series) :
  d.*1 = unique groups ->
  Forall (fun x => is_Some (dict_get d x)) groups.
Proof.
  intros Hd. apply Forall_forall. intros x Hx.
  apply dict_get_is_Some. rewrite Hd.
  destruct (unique_from_covers [] groups x Hx) as [Hs | Hu]; [discriminate | exact Hu].
Qed.

(** ** Lemmas: the random intercept in the spelling [(1|g)] *)

Section RandomIntercept.
Context {G : Type} `{RandomSource G}.
Variable random_effects : gmap string (gmap string Q).
Hypothesis Hnonneg : std_devs_nonneg random_effects.

(** With an active fixed intercept the draw of each row's group is added
    to the dependent column. *)
Lemma add_random_intercept_active l dep group part df (g : G) groups old :
  part_name part = "Intercept" ->
  getitem group df = Some groups ->
  getitem dep df = Some old ->
  is_Some (random_effects !! group) ->
  exists d g',
    d.*1 = unique groups /\
    add_random_part random_effects l dep true group part (df, g) =
      (inr tt, (setitem dep (series_add old (series_map d groups)) df, g')).
Proof.
  intros Hname Hgroups Hold [sds Hsds].
  unfold add_random_part. fold (part_name part). rewrite Hname.
  run_stmt (local_resolve_std_dev random_effects group "Intercept" sds df g Hsds).
  run_stmt (local_getitem l _ _ g _ Hgroups).
  destruct (local_draw_per_group (default (1 # 2)%Q (sds !! "Intercept"))
              (unique groups) df g) as (d & g' & E).
  { eapply resolved_std_dev_nonneg; eassumption. }
  run_stmt E. cbn [String.eqb Ascii.eqb Bool.eqb].
  exists d, g'. split; [eapply draw_per_group_keys; exact E |].
  run_stmt (local_getitem l _ _ g' _ Hgroups).
  apply (local_iadd l dep _ df g' old Hold).
Qed.

(** Without a fixed intercept the draws are made and nothing is added. *)
Lemma add_random_intercept_inactive l dep group part df (g : G) :
  part_name part = "Intercept" ->
  has_column group df = true ->
  is_Some (random_effects !! group) ->
  exists g',
    add_random_part random_effects l dep false group part (df, g) =
      (inr tt, (df, g')).
Proof.
  intros Hname Hgrp [sds Hsds].
  apply has_column_getitem in Hgrp as [groups Hgroups].
  unfold add_random_part. fold (part_name part). rewrite Hname.
  run_stmt (local_resolve_std_dev random_effects group "Intercept" sds df g Hsds).
  run_stmt (local_getitem l _ _ g _ Hgroups).
  destruct (local_draw_per_group (default (1 # 2)%Q (sds !! "Intercept"))
              (unique groups) df g) as (d & g' & E).
  { eapply resolved_std_dev_nonneg; eassumption. }
  run_stmt E. exists g'. reflexivity.
Qed.
End RandomIntercept.

(** ** Lemmas: strings and patterns *)

Lemma ascii_leb_le a b :
  Ascii.leb a b = true <-> (N_of_ascii a <= N_of_ascii b)%N.
Proof.
  unfold Ascii.leb, Ascii.compare, N.le.
  destruct (N_of_ascii a ?= N_of_ascii b)%N; split; congruence.
Qed.

Lemma lower_bounds c :
  Re.lower c = true <-> (97 <= N_of_ascii c <= 122)%N.
Proof.
  unfold Re.lower. rewrite andb_true_iff, !ascii_leb_le. reflexivity.
Qed.

Lemma lower_not_space c : Re.lower c = true -> Py.isspace c = false.
Proof.
  rewrite lower_bounds. intros [H1 H2]. unfold Py.isspace. cbv zeta.
  apply orb_false_iff. split; apply andb_false_iff.
  - right. apply N.leb_gt. lia.
  - right. apply N.leb_gt. lia.
Qed.

Lemma rstrip_cons_not_space c s :
  Py.isspace c = false -> exists r, Py.rstrip (String c s) = String c r.
Proof.
  intros Hc. simpl. destruct (Py.rstrip s); [rewrite Hc |]; eauto.
Qed.

Lemma strip_starts_lower s :
  starts_lower s = true -> starts_lower (Py.strip s) = true.
Proof.
  destruct s as [| c s]; [discriminate |]. simpl. intros Hc.
  unfold Py.strip. simpl. rewrite (lower_not_space c Hc).
  destruct (rstrip_cons_not_space c s (lower_not_space c Hc)) as [r ->].
  exact Hc.
Qed.

Lemma rep_result {A} greedy p b s (k : option ascii -> string -> option A) v :
  Re.rep greedy p b s k = Some v ->
  exists b' s', k b' s' = Some v /\ String.length s' <= String.length s.
Proof.
  revert b. induction s as [| c s IH]; intros b; simpl.
  - intros Hk. eauto.
  - destruct (p c); [| intros Hk; exists b, (String c s); eauto].
    assert (Hrec : Re.rep greedy p (Some c) s k = Some v ->
                   exists b' s', k b' s' = Some v /\
                     String.length s' <= S (String.length s)).
    { intros Hr. destruct (IH _ Hr) as (b' & s' & Hk & Hlen).
      exists b', s'. split; [exact Hk | lia]. }
    assert (Hhere : k b (String c s) = Some v ->
                    exists b' s', k b' s' = Some v /\
                      String.length s' <= S (String.length s)).
    { intros Hk. exists b, (String c s). split; [exact Hk | simpl; lia]. }
    destruct greedy; unfold Re.orelse.
    + destruct (Re.rep true p (Some c) s k) eqn:E; [exact Hrec | exact Hhere].
    + destruct (k b (String c s)) eqn:E; [exact Hhere | exact Hrec].
Qed.

Lemma consumed_cons c s s' :
  String.length s' <= String.length s ->
  exists r, Re.consumed (String c s) s' = String c r.
Proof.
  intros Hlen. unfold Re.consumed. simpl String.length.
  replace (S (String.length s) - String.length s')
    with (S (String.length s - String.length s')) by lia.
  simpl. eauto.
Qed.

(** A match of the fixed-effect pattern begins with a lowercase letter. *)
Lemma match_fixed_pattern_starts_lower b s m :
  Re.match_at fixed_pattern b s = Some m -> starts_lower (fst m) = true.
Proof.
  unfold Re.match_at, fixed_pattern.
  destruct s as [| c s]; [discriminate |].
  cbn [Re.exec Re.rest Re.caps Re.before].
  destruct (Re.lower c) eqn:Hc; [| discriminate].
  destruct (Re.rep _ _ _ _ _) as [cur |] eqn:E; [| discriminate].
  intros Hm. injection Hm as <-.
  apply rep_result in E as (b' & s' & Hk & Hlen).
  destruct (Re.rep true (Re.isnt "(") b' s' _); [discriminate |].
  injection Hk as <-. simpl.
  destruct (consumed_cons c s s' Hlen) as [r ->]. exact Hc.
Qed.

Lemma scan_fixed_pattern_starts_lower s skip b m :
  m ∈ Re.scan fixed_pattern skip b s -> starts_lower (fst m) = true.
Proof.
  revert skip b. induction s as [| c s IH]; intros skip b.
  - destruct skip; intros Hin; simpl in Hin; inversion Hin.
  - cbn [Re.scan]. destruct skip as [| n]; [| apply IH].
    destruct (Re.match_at fixed_pattern b (String c s)) as [m0 |] eqn:E; [| apply IH].
    intros Hin. apply elem_of_cons in Hin as [-> | Hin].
    + eapply match_fixed_pattern_starts_lower. exact E.
    + eapply IH. exact Hin.
Qed.

Lemma findall_fixed_pattern_starts_lower rhs x :
  x ∈ Re.findall fixed_pattern rhs -> starts_lower x = true.
Proof.
  unfold Re.findall. intros Hin.
  apply list_elem_of_fmap in Hin as (m & -> & Hm).
  eapply scan_fixed_pattern_starts_lower. exact Hm.
Qed.

(** [sorted(list(set(l)))] has the elements of [l]. *)
Lemma elem_of_sorted_set x l : x ∈ Py.sorted_set l <-> x ∈ l.
Proof.
  unfold Py.sorted_set. rewrite merge_sort_Permutation.
  apply elem_of_remove_dups.
Qed.

Lemma NoDup_sorted_set l : NoDup (Py.sorted_set l).
Proof.
  unfold Py.sorted_set. rewrite merge_sort_Permutation. apply NoDup_remove_dups.
Qed.

Lemma elem_of_foldl_extend x init reffects :
  x ∈ foldl extend_with_reffect init reffects <->
  x ∈ init \/
  exists reffect, reffect ∈ reffects /\
    x ∈ Py.split "+" (Py.replace "1 + " "" (fst reffect)).
Proof.
  revert init. induction reffects as [| r rs IH]; intros init; simpl.
  - split; [auto |]. intros [Hin | (r & Hr & _)]; [exact Hin | inversion Hr].
  - rewrite IH. unfold extend_with_reffect. rewrite elem_of_app. split.
    + intros [[Hin | Hin] | (r' & Hr' & Hx)]; [auto | |].
      * right. exists r. split; [left | exact Hin].
      * right. exists r'. split; [right; exact Hr' | exact Hx].
    + intros [Hin | (r' & Hr' & Hx)]; [auto |].
      apply elem_of_cons in Hr' as [-> | Hr']; [auto |].
      right. exists r'. auto.
Qed.

(** Where the fixed-effect names of the parser come from. *)
Lemma fixed_variable_origin formula d rhs name :
  Py.split "~" formula = [d; rhs] ->
  exists fv groups,
    _extract_variable_names formula = inr (Py.strip d, fv, groups) /\
    (name ∈ fv <->
       (exists x, x ∈ Re.findall fixed_pattern rhs /\ Py.strip x = name) \/
       (exists reffect piece,
          reffect ∈ Re.findall2 random_pattern rhs /\
          piece ∈ Py.split "+" (Py.replace "1 + " "" (fst reffect)) /\
          Py.strip piece = name)).
Proof.
  intros Hs. unfold _extract_variable_names. rewrite Hs.
  eexists _, _. split; [reflexivity |].
  rewrite elem_of_sorted_set, list_elem_of_fmap. split.
  - intros (x & -> & Hx). apply elem_of_foldl_extend in Hx as [Hx | (r & Hr & Hx)].
    + left. eauto.
    + right. eauto.
  - intros [(x & Hx & <-) | (r & piece & Hr & Hp & <-)].
    + exists x. split; [reflexivity |]. apply elem_of_foldl_extend. auto.
    + exists piece. split; [reflexivity |]. apply elem_of_foldl_extend. eauto.
Qed.

Lemma for_each_ext_in {Sigma A} (xs : list A) (body body' : A -> St Sigma unit) :
  (forall x, x ∈ xs -> body x = body' x) ->
  for_each xs body = for_each xs body'.
Proof.
  induction xs as [| x xs IH]; intros Hb; simpl; [reflexivity |].
  rewrite (Hb x) by left. rewrite IH; [reflexivity |].
  intros y Hy. apply Hb. right. exact Hy.
Qed.

Lemma coefficient_insert_ne (fe : gmap string Q) name c var :
  name <> var -> coefficient (<[name := c]> fe) var = coefficient fe var.
Proof. intros Hne. unfold coefficient. rewrite lookup_insert_ne by exact Hne. reflexivity. Qed.

Lemma has_intercept_of_insert_ne (fe : gmap string Q) name c rhs :
  name <> "1" -> has_intercept_of (<[name := c]> fe) rhs = has_intercept_of fe rhs.
Proof.
  intros Hne. unfold has_intercept_of. rewrite lookup_insert_ne by exact Hne.
  reflexivity.
Qed.

Section UnusedCoefficient.
Context {Sigma : Type} `{Machine Sigma}.

(** A coefficient under a name that is neither a fixed variable nor a
    reserved key plays no part in the statements. *)
Lemma simulate_insert_unused formula (fe : gmap string Q) re fv name c l dep rhs noise :
  name ∉ fv -> name <> "Intercept" -> name <> "1" ->
  simulate (Sigma := Sigma) formula (<[name := c]> fe) re fv l dep rhs noise =
  simulate formula fe re fv l dep rhs noise.
Proof.
  intros Hfv Hi H1. unfold simulate.
  rewrite (has_intercept_of_insert_ne fe name c rhs H1).
  rewrite (coefficient_insert_ne fe name c "Intercept" Hi).
  rewrite (for_each_ext_in fv (add_fixed_effect (<[name := c]> fe) l dep)
             (add_fixed_effect fe l dep)); [reflexivity |].
  intros var Hvar. unfold add_fixed_effect.
  rewrite coefficient_insert_ne; [reflexivity |].
  intros ->. contradiction.
Qed.
End UnusedCoefficient.

(** ** Lemmas: the formula [y ~ 1 + x] *)

Lemma all_chars_app p a b :
  all_chars p (a ++ b) = all_chars p a && all_chars p b.
Proof.
  induction a as [| c a IH]; simpl; [reflexivity |].
  rewrite IH, andb_assoc. reflexivity.
Qed.

Lemma all_chars_impl (p q : ascii -> bool) s :
  (forall c, p c = true -> q c = true) ->
  all_chars p s = true -> all_chars q s = true.
Proof.
  intros Hpq. induction s as [| c s IH]; simpl; [reflexivity |].
  rewrite !andb_true_iff. intros [Hc Hs]. auto.
Qed.

Lemma word_bounds c :
  Re.word c = true ->
  (48 <= N_of_ascii c <= 57 \/ 65 <= N_of_ascii c <= 90 \/
   N_of_ascii c = 95 \/ 97 <= N_of_ascii c <= 122)%N.
Proof.
  unfold Re.word, Re.lower, Re.upper, Re.digit.
  rewrite !orb_true_iff, !andb_true_iff, !ascii_leb_le. simpl.
  intros [[[H | H] | H] | H]; [lia | lia | lia |].
  apply Ascii.eqb_eq in H. subst c. simpl. lia.
Qed.

Lemma ascii_eqb_false_of_code c x :
  N_of_ascii c <> N_of_ascii x -> Ascii.eqb c x = false.
Proof. intros Hne. apply Ascii.eqb_neq. intros ->. contradiction. Qed.

Lemma word_not_space c : Re.word c = true -> Py.isspace c = false.
Proof.
  intros Hw. apply word_bounds in Hw. unfold Py.isspace. cbv zeta.
  apply orb_false_iff. split; apply andb_false_iff.
  - destruct (N.leb_spec 9 (N_of_ascii c)); [right | left; reflexivity].
    apply N.leb_gt. lia.
  - destruct (N.leb_spec 28 (N_of_ascii c)); [right | left; reflexivity].
    apply N.leb_gt. lia.
Qed.

Lemma word_isnt c x :
  Re.word x = false -> Re.word c = true -> Re.isnt x c = true.
Proof.
  intros Hx Hc. unfold Re.isnt. apply negb_true_iff, Ascii.eqb_neq.
  intros ->. congruence.
Qed.

Lemma lower_not_zero c : Re.lower c = true -> Ascii.eqb c "0" = false.
Proof.
  rewrite lower_bounds. intros Hc. apply ascii_eqb_false_of_code. simpl. lia.
Qed.

(** [split] *)
Lemma split_without_sep sep s :
  all_chars (Re.isnt sep) s = true -> Py.split sep s = [s].
Proof.
  induction s as [| c s IH]; simpl; [reflexivity |].
  rewrite andb_true_iff. intros [Hc Hs]. unfold Re.isnt in Hc.
  apply negb_true_iff in Hc. rewrite Hc, (IH Hs). reflexivity.
Qed.

Lemma split_at_sep sep a b :
  all_chars (Re.isnt sep) a = true ->
  Py.split sep (a ++ String sep b) = a :: Py.split sep b.
Proof.
  induction a as [| c a IH]; simpl.
  - intros _. rewrite Ascii.eqb_refl. reflexivity.
  - rewrite andb_true_iff. intros [Hc Ha]. unfold Re.isnt in Hc.
    apply negb_true_iff in Hc. rewrite Hc, (IH Ha). reflexivity.
Qed.

(** [strip] *)
Lemma rstrip_no_space s :
  all_chars (fun c => negb (Py.isspace c)) s = true -> Py.rstrip s = s.
Proof.
  induction s as [| c s IH]; simpl; [reflexivity |].
  rewrite andb_true_iff. intros [Hc Hs]. rewrite (IH Hs).
  apply negb_true_iff in Hc. rewrite Hc. destruct s; reflexivity.
Qed.

Lemma rstrip_app_space s :
  all_chars (fun c => negb (Py.isspace c)) s = true ->
  Py.rstrip (s ++ " ") = s.
Proof.
  induction s as [| c s IH]; simpl; [reflexivity |].
  rewrite andb_true_iff. intros [Hc Hs]. rewrite (IH Hs).
  apply negb_true_iff in Hc. rewrite Hc. destruct s; reflexivity.
Qed.

Lemma lstrip_no_space s :
  all_chars (fun c => negb (Py.isspace c)) s = true -> Py.lstrip s = s.
Proof.
  destruct s as [| c s]; simpl; [reflexivity |].
  rewrite andb_true_iff. intros [Hc _]. apply negb_true_iff in Hc.
  rewrite Hc. reflexivity.
Qed.

Lemma identifier_no_space s :
  identifier s -> all_chars (fun c => negb (Py.isspace c)) s = true.
Proof.
  apply all_chars_impl. intros c Hc. apply negb_true_iff, word_not_space, Hc.
Qed.

Lemma strip_identifier s : identifier s -> Py.strip s = s.
Proof.
  intros Hs. apply identifier_no_space in Hs. unfold Py.strip.
  rewrite (lstrip_no_space s Hs). apply rstrip_no_space. exact Hs.
Qed.

Lemma strip_identifier_space s : identifier s -> Py.strip (s ++ " ") = s.
Proof.
  intros Hs. apply identifier_no_space in Hs. unfold Py.strip.
  destruct s as [| c s]; [reflexivity |].
  assert (Hc : Py.isspace c = false).
  { simpl in Hs. apply andb_true_iff in Hs as [Hc _]. apply negb_true_iff, Hc. }
  change (String c s ++ " ") with (String c (s ++ " ")).
  cbn [Py.lstrip]. rewrite Hc.
  change (String c (s ++ " ")) with (String c s ++ " ").
  apply rstrip_app_space. exact Hs.
Qed.

(** Patterns on text without parentheses, and on identifiers. *)

Lemma substring_all s : String.substring 0 (String.length s) s = s.
Proof. induction s as [| c s IH]; simpl; [reflexivity | rewrite IH; reflexivity]. Qed.

Lemma consumed_all s : Re.consumed s "" = s.
Proof.
  unfold Re.consumed. simpl String.length. rewrite Nat.sub_0_r.
  apply substring_all.
Qed.

(** A greedy repetition over text made of the class runs to its end, when
    the continuation accepts there. *)
Lemma rep_greedy_all {A} p s b (k : option ascii -> string -> option A) :
  all_chars p s = true ->
  (forall b', is_Some (k b' "")) ->
  exists b', Re.rep true p b s k = k b' "".
Proof.
  intros Hs Hk. revert b. induction s as [| c s IH]; intros b; simpl.
  - eauto.
  - simpl in Hs. apply andb_true_iff in Hs as [Hc Hs]. rewrite Hc.
    destruct (IH Hs (Some c)) as [b' E]. exists b'. rewrite E.
    destruct (Hk b') as [v Hv]. rewrite Hv. reflexivity.
Qed.

Lemma scan_skip_all r s b :
  (forall b', Re.match_at r b' "" = None) ->
  Re.scan r (String.length s) b s = [].
Proof.
  intros Hend. revert b. induction s as [| c s IH]; intros b; simpl.
  - rewrite Hend. reflexivity.
  - apply IH.
Qed.

Lemma match_fixed_pattern_identifier b x :
  lower_identifier x -> Re.match_at fixed_pattern b x = Some (x, []).
Proof.
  intros [Hlow Hword]. destruct x as [| c x]; [discriminate |].
  simpl in Hlow, Hword. apply andb_true_iff in Hword as [_ Hword].
  unfold Re.match_at, fixed_pattern.
  cbn [Re.exec Re.rest Re.caps Re.before]. rewrite Hlow.
  destruct (rep_greedy_all Re.word x (Some c)
              (fun b0 s0 =>
                 Re.exec (Re.NotAhead (Re.Cat (Re.Rep true (Re.isnt "(")) (Re.Lit ")")))
                   (Re.Cursor b0 s0 []) Some) Hword) as [b' E].
  { intros b'. simpl. eauto. }
  cbn [Re.exec Re.rest Re.caps Re.before] in E |- *. rewrite E. simpl.
  rewrite consumed_all. reflexivity.
Qed.

Lemma scan_fixed_pattern_identifier b x :
  lower_identifier x -> Re.scan fixed_pattern 0 b x = [(x, [])].
Proof.
  intros Hx. pose proof (match_fixed_pattern_identifier b x Hx) as Hm.
  destruct x as [| c x]; [destruct Hx; discriminate |].
  cbn [Re.scan]. rewrite Hm. cbn [fst String.length].
  rewrite Nat.sub_succ, Nat.sub_0_r, scan_skip_all; reflexivity.
Qed.

Lemma findall_fixed_pattern_linear x :
  lower_identifier x -> Re.findall fixed_pattern (" 1 + " ++ x) = [x].
Proof.
  intros Hx. unfold Re.findall. simpl.
  rewrite (scan_fixed_pattern_identifier _ x Hx). reflexivity.
Qed.

(** No match of a pattern that opens with [(] in text without [(]. *)
Lemma scan_without_open r s skip b :
  all_chars (Re.isnt "(") s = true ->
  Re.scan (Re.Cat (Re.Lit "(") r) skip b s = [].
Proof.
  revert skip b. induction s as [| c s IH]; intros skip b Hs.
  - destruct skip; reflexivity.
  - simpl in Hs. apply andb_true_iff in Hs as [Hc Hs].
    unfold Re.isnt in Hc. apply negb_true_iff in Hc.
    cbn [Re.scan]. destruct skip; [| apply IH; exact Hs].
    unfold Re.match_at. cbn [Re.exec Re.rest]. rewrite Hc. apply IH. exact Hs.
Qed.

Lemma findall2_without_open r s :
  all_chars (Re.isnt "(") s = true ->
  Re.findall2 (Re.Cat (Re.Lit "(") r) s = [].
Proof.
  intros Hs. unfold Re.findall2. rewrite scan_without_open by exact Hs.
  reflexivity.
Qed.

(** No standalone [0] inside an identifier. *)
Lemma scan_zero_pattern_in_word s b :
  Re.word b = true -> all_chars Re.word s = true ->
  Re.scan zero_pattern 0 (Some b) s = [].
Proof.
  revert b. induction s as [| c s IH]; intros b Hb Hs.
  - simpl. unfold Re.match_at, zero_pattern. simpl. rewrite Hb. reflexivity.
  - simpl in Hs. apply andb_true_iff in Hs as [Hc Hs].
    cbn [Re.scan]. unfold Re.match_at, zero_pattern.
    cbn [Re.exec Re.rest Re.before Re.next_char Re.is_word_opt].
    rewrite Hb, Hc. simpl. apply IH; assumption.
Qed.

Lemma search_zero_pattern_linear x :
  lower_identifier x -> Re.search zero_pattern (" 1 + " ++ x) = false.
Proof.
  intros [Hlow Hword]. destruct x as [| c x]; [discriminate |].
  simpl in Hlow, Hword. apply andb_true_iff in Hword as [Hc Hword].
  unfold Re.search. simpl.
  unfold Re.match_at. unfold zero_pattern at 1.
  cbn [Re.exec Re.rest Re.before Re.next_char Re.is_word_opt].
  rewrite Hc. simpl. rewrite (lower_not_zero c Hlow).
  rewrite (scan_zero_pattern_in_word x c Hc Hword). reflexivity.
Qed.

Lemma identifier_isnt y x :
  Re.word x = false -> identifier y -> all_chars (Re.isnt x) y = true.
Proof.
  intros Hx. apply all_chars_impl. intros c. apply word_isnt. exact Hx.
Qed.

Lemma string_app_assoc (a b c : string) : (a ++ b) ++ c = a ++ (b ++ c).
Proof.
  induction a as [| ch a IH]; [reflexivity |].
  change (String ch (((a ++ b) ++ c)) = String ch (a ++ (b ++ c))).
  rewrite IH. reflexivity.
Qed.

(** The parse of [y ~ 1 + x]. *)
Lemma split_linear_formula y x :
  identifier y -> lower_identifier x ->
  Py.split "~" (y ++ " ~ 1 + " ++ x) = [y ++ " "; " 1 + " ++ x].
Proof.
  intros Hy [_ Hx].
  assert (E : y ++ " ~ 1 + " ++ x = (y ++ " ") ++ String "~" (" 1 + " ++ x)).
  { rewrite string_app_assoc. reflexivity. }
  rewrite E. rewrite split_at_sep.
  - rewrite split_without_sep; [reflexivity |].
    simpl. apply (identifier_isnt x "~"); [reflexivity | exact Hx].
  - rewrite all_chars_app. rewrite (identifier_isnt y "~"); [reflexivity | reflexivity | exact Hy].
Qed.

Lemma extract_linear_formula y x :
  identifier y -> lower_identifier x ->
  _extract_variable_names (y ++ " ~ 1 + " ++ x) = inr (y, [x], []).
Proof.
  intros Hy Hx. unfold _extract_variable_names.
  rewrite (split_linear_formula y x Hy Hx).
  rewrite (strip_identifier_space y Hy).
  rewrite (findall_fixed_pattern_linear x Hx).
  unfold random_pattern. rewrite findall2_without_open.
  2: { simpl. apply (identifier_isnt x "("); [reflexivity | apply Hx]. }
  simpl. rewrite (strip_identifier x (proj2 Hx)). reflexivity.
Qed.

Lemma terms_linear_formula y x :
  identifier y -> lower_identifier x ->
  Re.findall2 term_pattern (y ++ " ~ 1 + " ++ x) = [].
Proof.
  intros Hy [_ Hx]. unfold term_pattern. apply findall2_without_open.
  rewrite all_chars_app. rewrite (identifier_isnt y "("); [| reflexivity | exact Hy].
  simpl. apply (identifier_isnt x "("); [reflexivity | exact Hx].
Qed.

Lemma lookup_col_length name cs v n :
  Forall (fun c : string * series => length (snd c) = n) cs ->
  lookup_col name cs = Some v -> length v = n.
Proof.
  induction 1 as [| [k u] cs Hc _ IH]; simpl; [discriminate |].
  destruct (String.eqb k name); [| exact IH].
  intros E. injection E as <-. exact Hc.
Qed.

Lemma getitem_length name df v :
  well_formed df -> getitem name df = Some v -> length v = nrows df.
Proof. apply lookup_col_length. Qed.

Lemma linear_series a b xs zs n :
  length xs = n -> length zs = n ->
  Forall (fun z => exists v, z = (0 + 0 * v)%Q) zs ->
  Forall2 (fun v xv => (v == a + b * xv)%Q)
    (series_add (series_add (replicate n a) (series_scale b xs)) zs) xs.
Proof.
  revert zs n. induction xs as [| x xs IH]; intros zs n Hx Hz Hall.
  - subst n. destruct zs; [constructor | discriminate].
  - destruct n as [| n]; [discriminate |].
    destruct zs as [| z zs]; [discriminate |].
    simpl in Hx, Hz. injection Hx as Hx. injection Hz as Hz.
    apply Forall_cons in Hall as [[v ->] Hall].
    simpl. constructor.
    + ring.
    + apply IH; assumption.
Qed.

(** ** When the missing-group error is raised *)

Lemma for_each_app {Sigma A} (xs ys : list A) (body : A -> St Sigma unit) s :
  for_each (xs ++ ys) body s = bind (for_each xs body) (fun _ => for_each ys body) s.
Proof.
  revert s. induction xs as [| x xs IH]; intros s; simpl; [reflexivity |].
  destruct (body x s) as [[e | []] s1] eqn:E.
  - rewrite (bind_fail _ _ _ _ _ E).
    erewrite bind_fail; [reflexivity |]. apply bind_fail. exact E.
  - rewrite (bind_ok _ _ _ _ _ E). rewrite IH.
    unfold bind at 2 3. rewrite E. reflexivity.
Qed.

Section MissingGroup.
Context {G : Type} `{RandomSource G}.

Lemma has_column_written_ne dep name df df' :
  written dep df df' -> dep <> name ->
  has_column name df' = has_column name df.
Proof.
  intros [-> | [v ->]] Hne; [reflexivity | apply has_column_setitem_ne, Hne].
Qed.

Lemma add_random_term_missing_group re l dep hi term df (g : G) :
  has_column (Py.strip (snd term)) df = false ->
  add_random_term re l dep hi term (df, g) =
    (inl (GroupNotFound (Py.strip (snd term))), (df, g)).
Proof.
  intros Hcol. unfold add_random_term.
  run_stmt (local_has_column l (Py.strip (snd term)) df g).
  rewrite Hcol. reflexivity.
Qed.

(** The first random-effect term whose grouping variable is not a column
    raises the missing-group error, provided the terms before it have
    their groups in the table and in the random-effects specification. *)
Lemma run_missing_group
    formula fe re fv conditions noise rs (w : world G) df d rhs pre term post :
  Py.split "~" formula = [d; rhs] ->
  frames w !! conditions = Some df ->
  seed_ok rs = true ->
  std_devs_nonneg re ->
  Re.findall2 term_pattern formula = (pre ++ term :: post)%list ->
  (forall t, t ∈ pre ->
     has_column (Py.strip (snd t)) df = true /\ is_Some (re !! Py.strip (snd t))) ->
  has_column (Py.strip (snd term)) df = false ->
  Py.strip (snd term) <> Py.strip d ->
  outcome (run formula fe re fv conditions noise rs w) =
    inl (GroupNotFound (Py.strip (snd term))).
Proof.
  intros Hs Hc Hseed Hnonneg Hterms Hpre Hmiss Hdep.
  rewrite (outcome_run _ _ _ _ _ _ _ _ _ _ _ Hs Hc Hseed). cbn zeta.
  set (g0 := initial_generator rs w). set (dep := Py.strip d) in *.
  assert (E : simulate_local formula fe re fv dep rhs noise df g0 =
              (inl (GroupNotFound (Py.strip (snd term))),
               snd (simulate_local formula fe re fv dep rhs noise df g0))).
  { unfold simulate_local, simulate. rewrite Hterms.
    erewrite bind_ok by apply local_setitem_scalar.
    set (df1 := setitem dep _ df).
    pose (P := fun df0 : frame =>
            has_column dep df0 = true /\
            has_column (Py.strip (snd term)) df0 = false /\
            forall t, t ∈ pre -> has_column (Py.strip (snd t)) df0 = true).
    assert (HP : forall df0 df', written dep df0 df' -> P df0 -> P df').
    { intros df0 df' W (H1 & H2 & H3). split; [| split].
      - eapply has_column_written; eassumption.
      - rewrite (has_column_written_ne dep _ df0 df' W) by congruence. exact H2.
      - intros t Ht. eapply has_column_written; [exact W | auto]. }
    assert (P1 : P df1).
    { split; [apply has_column_setitem_eq | split].
      - unfold df1. rewrite has_column_setitem_ne by congruence. exact Hmiss.
      - intros t Ht. apply has_column_setitem_mono. apply Hpre. exact Ht. }
    destruct (succeeds_for_each dep P fv (add_fixed_effect fe 0%nat dep) HP)
      with (s := (df1, g0)) as ([df2 g2] & E2 & W2).
    { intros var [df0 g1] _ [H1 _]. apply add_fixed_effect_succeeds. exact H1. }
    { exact P1. }
    run_stmt E2.
    assert (P2 : P df2) by (eapply HP; [exact W2 | exact P1]).
    destruct (succeeds_for_each dep P pre
                (add_random_term re 0%nat dep (has_intercept_of fe rhs)) HP)
      with (s := (df2, g2)) as ([df3 g3] & E3 & W3).
    { intros t [df0 g1] Ht (H1 & _ & H3).
      apply add_random_term_succeeds; [exact Hnonneg | exact H1 | auto | apply Hpre; exact Ht]. }
    { exact P2. }
    assert (P3 : P df3) by (eapply HP; [exact W3 | exact P2]).
    destruct P3 as (_ & Hmiss3 & _).
    erewrite bind_fail; [reflexivity |].
    rewrite for_each_app. run_stmt E3. cbn [for_each].
    erewrite bind_fail; [reflexivity |].
    apply add_random_term_missing_group. exact Hmiss3. }
  rewrite E. reflexivity.
Qed.
End MissingGroup.

(** ** The parser's lists are sorted and without duplicates *)

#[local] Instance str_le_total : Total Py.str_le.
Proof. intros a b. apply String.leb_total. Qed.

Lemma sorted_set_sorted l : Sorted Py.str_le (Py.sorted_set l).
Proof. unfold Py.sorted_set. apply Sorted_merge_sort; apply _. Qed.

Lemma extract_variable_names_sorted formula dependent fixed_effects random_groups :
  _extract_variable_names formula = inr (dependent, fixed_effects, random_groups) ->
  Sorted Py.str_le fixed_effects /\ NoDup fixed_effects /\
  Sorted Py.str_le random_groups /\ NoDup random_groups.
Proof.
  unfold _extract_variable_names.
  destruct (Py.split "~" formula) as [| d [| rhs [| ? ?]]]; try discriminate.
  intros E. injection E as _ <- <-.
  repeat split; first [apply sorted_set_sorted | apply NoDup_sorted_set].
Qed.

(** ** What the intercept test computes *)

Lemma has_intercept_of_spec (fe : gmap string Q) rhs :
  has_intercept_of fe rhs = true <->
  is_Some (fe !! "1") \/ Re.search zero_pattern rhs = false.
Proof.
  unfold has_intercept_of.
  rewrite orb_true_iff, bool_decide_eq_true, negb_true_iff. reflexivity.
Qed.

(** * The claims *)

(** ** C1: when the intercept is active *)

(** C1.  The intercept test looks for the key ['1'], not ['Intercept']:
    with a standalone [0] in the formula, an explicit [Intercept]
    coefficient does not make the intercept active, and the dependent
    column starts from 0 instead of the coefficient. *)
Theorem intercept_entry_does_not_activate_intercept :
  has_intercept_of {[ "Intercept" := 1%Q; "x1" := 2%Q ]} " 0 + x1" = false /\
  has_intercept_of {[ "1" := 1%Q; "x1" := 2%Q ]} " 0 + x1" = true /\
  exists f,
    lmm_experiment (H := counter_source) "rt ~ 0 + x1"
      (Some {[ "Intercept" := 1%Q; "x1" := 2%Q ]}) None = inr f /\
    observed (outcome (f 0%nat 0%Q None (World {[ 0%nat := linspace_conditions ]} 0%nat None)))
    = inr (Frame 5 [("x1", [0; 1 # 4; 1 # 2; 3 # 4; 1]%Q);
                    ("rt", [0; 1 # 2; 1; 3 # 2; 2]%Q)]).
Proof.
  split; [vm_compute; reflexivity |]. split; [vm_compute; reflexivity |].
  eexists. split; [reflexivity | vm_compute; reflexivity].
Qed.

(** ** C2: the linear formula [y ~ 1 + x] without noise *)

Section Linear.
Context {G : Type} `{RandomSource G}.

(** C2, amended.  For the formula [y ~ 1 + x], with [y] a name of word
    characters and [x] a different name that begins with a lowercase
    letter (the names the fixed-effect pattern matches), coefficients
    [Intercept = a] and [x = b], noise 0 and a [random_state] that is
    absent or not negative: on every proper table with the column [x] on
    which the fixed part stays in the [int64] range, the dependent column
    of the result is [a + b * x] row by row. *)
Theorem linear_formula_output
    y x a b (fe : gmap string Q) re rs (w : world G) conditions df xs :
  identifier y -> lower_identifier x -> y <> x ->
  fe !! "Intercept" = Some a -> fe !! x = Some b ->
  frames w !! conditions = Some df ->
  proper_table df ->
  getitem x df = Some xs ->
  seed_ok rs = true ->
  fixed_part_in_int64 fe [x] a df = true ->
  exists f,
    lmm_experiment (y ++ " ~ 1 + " ++ x) (Some fe) re = inr f /\
    exists df' ys,
      outcome (f conditions 0%Q rs w) = inr df' /\
      getitem y df' = Some ys /\
      Forall2 (fun v xv => (v == a + b * xv)%Q) ys xs.
Proof.
  intros Hy Hx Hne Ha Hb Hc [Hwf _] Hxs Hseed _.
  unfold lmm_experiment. rewrite (extract_linear_formula y x Hy Hx).
  eexists. split; [reflexivity |].
  change (default ∅ (Some fe)) with fe.
  rewrite (outcome_run _ _ _ _ _ _ _ _ df (y ++ " ") (" 1 + " ++ x)
             (split_linear_formula y x Hy Hx) Hc Hseed).
  cbn zeta. rewrite (strip_identifier_space y Hy).
  set (g0 := initial_generator rs w).
  set (res := simulate_local _ _ _ _ _ _ _ _ _).
  assert (Hres : exists df2 ys g1,
            res = (inr tt, (setitem y ys df2, g1)) /\
            Forall2 (fun v xv => (v == a + b * xv)%Q) ys xs).
  { unfold res, simulate_local, simulate.
    rewrite (terms_linear_formula y x Hy Hx).
    assert (Hi : has_intercept_of fe (" 1 + " ++ x) = true).
    { unfold has_intercept_of. rewrite (search_zero_pattern_linear x Hx).
      apply orb_true_r. }
    rewrite Hi.
    assert (Hca : coefficient fe "Intercept" = a).
    { unfold coefficient. rewrite Ha. reflexivity. }
    assert (Hcb : coefficient fe x = b).
    { unfold coefficient. rewrite Hb. reflexivity. }
    rewrite Hca.
    erewrite bind_ok by apply local_setitem_scalar.
    set (df1 := setitem y (replicate (nrows df) a) df).
    assert (Hx1 : getitem x df1 = Some xs).
    { unfold df1. rewrite getitem_setitem_ne by exact Hne. exact Hxs. }
    assert (Hy1 : getitem y df1 = Some (replicate (nrows df) a)).
    { apply getitem_setitem_eq. }
    assert (Hfix : add_fixed_effect fe 0%nat y x (df1, g0) =
              (inr tt, (setitem y (series_add (replicate (nrows df) a)
                                     (series_scale b xs)) df1, g0))).
    { unfold add_fixed_effect.
      run_stmt (local_has_column 0%nat x df1 g0).
      replace (has_column x df1) with true.
      2: { symmetry. apply has_column_getitem. rewrite Hx1. eauto. }
      run_stmt (local_getitem 0%nat x df1 g0 xs Hx1).
      rewrite Hcb.
      apply (local_iadd 0%nat y _ df1 g0 _ Hy1). }
    cbn [for_each].
    erewrite bind_ok by (erewrite bind_ok by exact Hfix; reflexivity).
    set (df2 := setitem y _ df1).
    erewrite bind_ok by reflexivity.
    run_stmt (local_len 0%nat df2 g0).
    destruct (local_normal_n 0 0 (nrows df2) df2 g0) as (zs & g1 & E & Hlen & Hall);
      [discriminate |].
    run_stmt E.
    assert (Hy2 : getitem y df2 =
              Some (series_add (replicate (nrows df) a) (series_scale b xs))).
    { apply getitem_setitem_eq. }
    rewrite (local_iadd 0%nat y zs df2 g1 _ Hy2).
    eexists _, _, _. split; [reflexivity |].
    apply linear_series; [| exact Hlen | exact Hall].
    apply (getitem_length x df xs Hwf Hxs). }
  destruct Hres as (df2 & ys & g1 & -> & Hall). cbn [fst snd].
  exists (setitem y ys df2), ys.
  split; [reflexivity |]. split; [apply getitem_setitem_eq | exact Hall].
Qed.
End Linear.

Lemma linear_formula_output_witness :
  exists f,
    lmm_experiment (H := counter_source) "rt ~ 1 + x1"
      (Some {[ "Intercept" := 1%Q; "x1" := 2%Q ]}) None = inr f /\
    exists df' ys,
      outcome (f 0%nat 0%Q None (World {[ 0%nat := linspace_conditions ]} 0%nat None))
        = inr df' /\
      getitem "rt" df' = Some ys /\
      Forall2 (fun v xv => (v == 1 + 2 * xv)%Q) ys [0; 1 # 4; 1 # 2; 3 # 4; 1]%Q.
Proof.
  apply (linear_formula_output (H := counter_source) "rt" "x1" 1 2
           {[ "Intercept" := 1%Q; "x1" := 2%Q ]} None None
           (World {[ 0%nat := linspace_conditions ]} 0%nat None) 0%nat
           linspace_conditions [0; 1 # 4; 1 # 2; 3 # 4; 1]%Q).
  - reflexivity.
  - split; reflexivity.
  - discriminate.
  - reflexivity.
  - reflexivity.
  - reflexivity.
  - split; [repeat constructor | apply NoDup_singleton].
  - reflexivity.
  - reflexivity.
  - reflexivity.
Defined.

(** The claim as first stated fails for a covariate that begins with an
    upper-case letter: the parser does not list it, so its coefficient is
    never applied and the dependent column is the intercept alone
    ([a + b * x] would be 3 and 5).  It also fails for a negative
    [random_state], which the generator rejects. *)
Lemma uppercase_covariate_is_not_applied :
  (exists f,
     lmm_experiment (H := counter_source) "rt ~ 1 + X1"
       (Some {[ "Intercept" := 1%Q; "X1" := 2%Q ]}) None = inr f /\
     observed (outcome (f 0%nat 0%Q None (World {[ 0%nat := upper_conditions ]} 0%nat None)))
     = inr (Frame 2 [("X1", [1; 2]%Q); ("subject", [1; 1]%Q); ("rt", [1; 1]%Q)])) /\
  (exists f,
     lmm_experiment (H := counter_source) "rt ~ 1 + x1"
       (Some {[ "Intercept" := 1%Q; "x1" := 2%Q ]}) None = inr f /\
     outcome (f 0%nat 0%Q (Some (-1)%Z) (World {[ 0%nat := linspace_conditions ]} 0%nat None))
     = inl SeedError).
Proof.
  split; eexists; (split; [reflexivity | vm_compute; reflexivity]).
Qed.

Example doc_example_linear :
  exists f,
    lmm_experiment (H := counter_source) "rt ~ 1 + x1"
      (Some {[ "Intercept" := 1%Q; "x1" := 2%Q ]}) None = inr f /\
    observed (outcome (f 0%nat 0%Q None (World {[ 0%nat := linspace_conditions ]} 0%nat None)))
    = inr (Frame 5 [("x1", [0; 1 # 4; 1 # 2; 3 # 4; 1]%Q);
                    ("rt", [1; 3 # 2; 2; 5 # 2; 3]%Q)]).
Proof. eexists. split; [reflexivity | vm_compute; reflexivity]. Qed.

(** ** C3: a grouping variable missing from the table *)

(** C3.  With no random-effects specification, a formula whose second
    grouping variable is missing from the table does not reach the
    missing-group check: the first term already raises [KeyError] (for
    every noise level and every [random_state] that the generator
    accepts; a negative one is rejected before anything else). *)
Theorem missing_group_preempted_by_key_error :
  forall (G : Type) (H : RandomSource G) (g : G) noise rs,
  exists f,
    lmm_experiment "rt ~ (1|subject) + (1|site)" None None = inr f /\
    has_column "site" example_conditions = false /\
    outcome (f 0%nat noise rs (World {[ 0%nat := example_conditions ]} g None))
    = if seed_ok rs then inl (KeyError "subject") else inl SeedError.
Proof.
  intros G H g noise rs. eexists. split; [reflexivity |].
  split; [vm_compute; reflexivity |].
  destruct rs as [[| p | p] |]; vm_compute; reflexivity.
Qed.

Example doc_missing_group :
  forall (G : Type) (H : RandomSource G) (g : G) noise rs,
  outcome (run "rt ~ 1 + (1|site)" {[ "Intercept" := 1%Q ]} ∅ []
             0%nat noise rs (World {[ 0%nat := example_conditions ]} g None))
  = if seed_ok rs then inl (GroupNotFound "site") else inl SeedError.
Proof. intros. destruct rs as [[| p | p] |]; vm_compute; reflexivity. Qed.

(** A grouping variable with the name of the dependent variable passes
    the check although the table has no such column: the check reads the
    copy, where the dependent column has just been written. *)
Example group_named_like_dependent :
  has_column "rt" example_conditions = false /\
  observed (outcome (run (H := counter_source) "rt ~ 1 + (1|rt)"
                       {[ "Intercept" := 1%Q ]} {[ "rt" := {[ "Intercept" := (1 # 10)%Q ]} ]} ["1"]
                       0%nat 0%Q (Some 42%Z) example_world))
  = inr (Frame 6 [("x1", [0; 1 # 2; 1; 0; 1 # 2; 1]%Q);
                  ("subject", [1; 1; 1; 2; 2; 2]%Q);
                  ("rt", [79 # 40; 79 # 40; 79 # 40; 79 # 40; 79 # 40; 79 # 40]%Q)]).
Proof. split; vm_compute; reflexivity. Qed.

(** ** C4: the standard deviation of a random-effect term *)

(** C4.  The default of 0.5 covers a term missing from the mapping of its
    group, not a group missing from the specification: looking the group
    up raises [KeyError], and so does the simulation (for every noise
    level and every [random_state] that the generator accepts; a negative
    one is rejected before anything else). *)
Theorem unspecified_group_raises_key_error :
  forall (G : Type) (H : RandomSource G) (g : G) noise rs,
  (forall group part (w : world G),
     resolve_std_dev ∅ group part w = (inl (KeyError group), w)) /\
  (forall part (w : world G),
     resolve_std_dev {[ "subject" := {[ "x1" := (1 # 10)%Q ]} ]} "subject" part w
     = (inr (if String.eqb part "x1" then (1 # 10)%Q else (1 # 2)%Q), w)) /\
  exists f,
    lmm_experiment "rt ~ 1 + (1|subject)" (Some {[ "Intercept" := 1%Q ]}) None = inr f /\
    outcome (f 0%nat noise rs (World {[ 0%nat := example_conditions ]} g None))
    = if seed_ok rs then inl (KeyError "subject") else inl SeedError.
Proof.
  intros G H g noise rs. split; [| split].
  - intros group part w. unfold resolve_std_dev. rewrite lookup_empty. reflexivity.
  - intros part w. unfold resolve_std_dev. rewrite lookup_singleton_eq.
    destruct (String.eqb part "x1") eqn:E.
    + apply String.eqb_eq in E. subst part. rewrite lookup_singleton_eq. reflexivity.
    + apply String.eqb_neq in E. rewrite lookup_singleton_ne by congruence. reflexivity.
  - eexists. split; [reflexivity |].
    destruct rs as [[| p | p] |]; vm_compute; reflexivity.
Qed.

(** ** C5: the random intercept *)

(** C5.  In the spelling [(1 + x1|subject)] the piece ['1 '] is compared
    with ['1'] before it is stripped, so it is not taken for the random
    intercept: with an active fixed intercept no per-group draw is added
    (every row keeps the fixed intercept 1), whereas [(1|subject)] adds
    the draws of the two subjects. *)
Theorem spaced_random_intercept_not_added :
  Py.split "+" "1 + x1" = ["1 "; " x1"] /\
  part_name "1 " = "1" /\
  part_name "1" = "Intercept" /\
  (exists f,
     lmm_experiment (H := counter_source) "rt ~ 1 + (1 + x1|subject)"
       (Some {[ "Intercept" := 1%Q ]})
       (Some {[ "subject" := {[ "Intercept" := (1 # 10)%Q; "x1" := 0%Q ]} ]}) = inr f /\
     observed (outcome (f 0%nat 0%Q (Some 42%Z) example_world))
     = inr (Frame 6 [("x1", [0; 1 # 2; 1; 0; 1 # 2; 1]%Q);
                     ("subject", [1; 1; 1; 2; 2; 2]%Q);
                     ("rt", [1; 1; 1; 1; 1; 1]%Q)])) /\
  (exists f,
     lmm_experiment (H := counter_source) "rt ~ 1 + (1|subject)"
       (Some {[ "Intercept" := 1%Q ]})
       (Some {[ "subject" := {[ "Intercept" := (1 # 10)%Q; "x1" := 0%Q ]} ]}) = inr f /\
     observed (outcome (f 0%nat 0%Q (Some 42%Z) example_world))
     = inr (Frame 6 [("x1", [0; 1 # 2; 1; 0; 1 # 2; 1]%Q);
                     ("subject", [1; 1; 1; 2; 2; 2]%Q);
                     ("rt", [79 # 40; 79 # 40; 79 # 40; 2; 2; 2]%Q)])).
Proof.
  repeat split; try reflexivity;
    (eexists; split; [reflexivity | vm_compute; reflexivity]).
Qed.

(** ** C6: the names the parser returns *)

(** C6.  Only the exact text ['1 + '] is removed from a term list, and it
    is removed wherever it occurs: the marker [1] of [(1|g)] and of
    [(1+x|g)] becomes a fixed-effect name, and [(x1 + x2|g)] yields the
    single name [xx2]. *)
Theorem random_intercept_marker_kept_as_name :
  _extract_variable_names "y ~ x1 + x2 + (1 + x1|group) + (x2|subject)"
    = inr ("y", ["x1"; "x2"], ["group"; "subject"]) /\
  _extract_variable_names "y ~ (1|g)" = inr ("y", ["1"], ["g"]) /\
  _extract_variable_names "y ~ (1+x|g)" = inr ("y", ["1"; "x"], ["g"]) /\
  _extract_variable_names "y ~ (x1 + x2|g)" = inr ("y", ["xx2"], ["g"]).
Proof. repeat split; vm_compute; reflexivity. Qed.

(** ** C7: determinism under an explicit seed *)

Section Determinism.
Context {G : Type} `{RandomSource G}.

(** C7.  Two calls of [run] with the same explicit [random_state], on
    tables with the same contents, give the caller the same result (the
    same exception or the same frame), whatever the store and the shared
    generator look like at each call.  Per-group draws and noise are
    part of the frame compared. *)
Theorem run_same_seed_same_output
    formula fe re fv noise seed (w1 w2 : world G) c1 c2 df :
  frames w1 !! c1 = Some df ->
  frames w2 !! c2 = Some df ->
  outcome (run formula fe re fv c1 noise (Some seed) w1) =
  outcome (run formula fe re fv c2 noise (Some seed) w2).
Proof.
  intros H1 H2.
  rewrite (outcome_run_seeded _ _ _ _ _ _ _ _ df H1).
  rewrite (outcome_run_seeded _ _ _ _ _ _ _ _ df H2).
  reflexivity.
Qed.

(** Two calls in a row: the second starts in the world the first left. *)
Corollary run_twice_same_seed formula fe re fv noise seed (w : world G) c df :
  frames w !! c = Some df ->
  let r1 := run formula fe re fv c noise (Some seed) w in
  let r2 := run formula fe re fv c noise (Some seed) (snd r1) in
  outcome r1 = outcome r2.
Proof.
  intros Hc r1 r2.
  assert (Hc' : frames (snd r1) !! c = Some df).
  { unfold r1. rewrite (run_keeps_store _ _ _ _ _ _ _ _ df) by eauto. exact Hc. }
  unfold r2.
  rewrite (outcome_run_seeded _ _ _ _ _ _ _ _ df Hc').
  unfold r1. apply (outcome_run_seeded _ _ _ _ _ _ _ _ df Hc).
Qed.
End Determinism.

(** Without a seed the shared generator is consumed, and two calls in a
    row differ: here on the module's random-intercept example. *)
Example run_twice_unseeded_differs :
  let f := run (H := counter_source) "rt ~ 1 + (1|subject)"
             {[ "Intercept" := 1%Q ]} {[ "subject" := {[ "Intercept" := (1 # 10)%Q ]} ]} [] in
  let r1 := f 0%nat 0%Q None example_world in
  let r2 := f 0%nat 0%Q None (snd r1) in
  outcome r1 <> outcome r2.
Proof. vm_compute. discriminate. Qed.

Lemma run_same_seed_same_output_witness :
  let f := run (H := counter_source) "rt ~ 1 + (1|subject)"
             {[ "Intercept" := 1%Q ]} {[ "subject" := {[ "Intercept" := (1 # 10)%Q ]} ]} [] in
  outcome (f 0%nat (1 # 100)%Q (Some 42%Z) example_world) =
  outcome (f 0%nat (1 # 100)%Q (Some 42%Z)
             (snd (f 0%nat (1 # 100)%Q None example_world))).
Proof.
  apply (run_same_seed_same_output (H := counter_source) _ _ _ _ _ _ _ _ _ _
           example_conditions); reflexivity.
Defined.

(** ** C8: the caller's table is not mutated *)

Section NoMutation.
Context {G : Type} `{RandomSource G}.

(** C8.  A call of [run] on the table behind [conditions] leaves that
    object, and every other object of the store, as it was.  A successful
    call returns a reference to a new object: the table with the
    dependent-variable column assigned (an existing column of that name is
    overwritten where it stands, otherwise the column is appended), the
    same rows, and every other column unchanged. *)
Theorem run_does_not_mutate_conditions
    formula fe re fv conditions noise rs (w : world G) df :
  frames w !! conditions = Some df ->
  let r := run formula fe re fv conditions noise rs w in
  frames (snd r) !! conditions = Some df /\
  (forall l, is_Some (frames w !! l) -> frames (snd r) !! l = frames w !! l) /\
  (forall l, fst r = inr l ->
     frames w !! l = None /\ l <> conditions /\
     exists d rhs v,
       Py.split "~" formula = [d; rhs] /\
       frames (snd r) !! l = Some (setitem (Py.strip d) v df) /\
       nrows (setitem (Py.strip d) v df) = nrows df /\
       getitem (Py.strip d) (setitem (Py.strip d) v df) = Some v /\
       columns (setitem (Py.strip d) v df) =
         (if has_column (Py.strip d) df then columns df
          else (columns df ++ [Py.strip d])%list) /\
       (forall name, name <> Py.strip d ->
          getitem name (setitem (Py.strip d) v df) = getitem name df)).
Proof.
  intros Hc r. subst r. split; [| split].
  - rewrite (run_keeps_store _ _ _ _ _ _ _ _ df) by eauto. exact Hc.
  - intros l Hl. apply (run_keeps_store _ _ _ _ _ _ _ _ df); assumption.
  - intros l.
    destruct (seed_ok rs) eqn:Hseed;
      [| rewrite run_seed_error by exact Hseed; discriminate].
    destruct (Py.split "~" formula) as [| d [| rhs [| ? ?]]] eqn:Hs.
    1,2,4: rewrite run_unpack_error
             by first [exact Hseed | intros ? ?; rewrite Hs; discriminate];
           discriminate.
    rewrite (run_unfold _ _ _ _ _ _ _ _ _ _ _ Hs Hc Hseed). cbn zeta.
    set (l0 := fresh (dom (frames w))).
    assert (Hfresh : frames w !! l0 = None).
    { apply not_elem_of_dom. apply is_fresh. }
    assert (Hne : l0 <> conditions).
    { intros ->. rewrite Hc in Hfresh. discriminate. }
    destruct (simulate_local_written (Py.strip d) formula fe re fv rhs noise df
                (initial_generator rs w)) as [v Hv].
    simpl. intros Hl.
    destruct (fst (simulate_local _ _ _ _ _ _ _ _ _)); [discriminate |].
    injection Hl as <-. split; [exact Hfresh | split; [exact Hne |]].
    exists d, rhs, v. split; [reflexivity |].
    rewrite lookup_insert_eq, Hv.
    split; [reflexivity |]. split; [reflexivity |].
    split; [apply getitem_setitem_eq |].
    split; [apply columns_setitem |].
    intros name Hname. apply getitem_setitem_ne. congruence.
Qed.
End NoMutation.

Lemma run_does_not_mutate_conditions_witness :
  let r := run (H := counter_source) "rt ~ 1 + x1"
             {[ "Intercept" := 1%Q; "x1" := 2%Q ]} ∅ ["x1"]
             0%nat 0%Q None example_world in
  frames (snd r) !! 0%nat = Some example_conditions.
Proof.
  apply (run_does_not_mutate_conditions (H := counter_source)
           "rt ~ 1 + x1" _ _ _ _ _ _ _ example_conditions).
  reflexivity.
Defined.

(** ** C9: a random slope on a missing column *)

Section MissingSlope.
Context {G : Type} `{RandomSource G}.

(** C9, amended.  On a proper table, with a [random_state] that is
    absent or not negative: when every grouping variable found in the
    formula is a column of the conditions table and a key of the
    random-effects specification, and no standard deviation nor the noise
    level is negative, [run] raises nothing, whichever slope variables
    are missing from the table.  And for each piece of a term list of the
    formula that names a random slope on a variable that is neither a
    column of the conditions table nor the dependent variable, the
    statements executed for it leave every frame of the store as it was,
    in every frame the call passes through (the table, with or without
    the dependent column assigned): nothing is added to the dependent
    column. *)
Theorem missing_slope_column_is_tolerated
    formula fe re fv conditions noise rs (w : world G) df d rhs :
  Py.split "~" formula = [d; rhs] ->
  frames w !! conditions = Some df ->
  proper_table df ->
  seed_ok rs = true ->
  groups_available formula re df ->
  std_devs_nonneg re ->
  (0 <= noise)%Q ->
  (exists l, fst (run formula fe re fv conditions noise rs w) = inr l) /\
  (forall term part,
     term ∈ Re.findall2 term_pattern formula ->
     part ∈ Py.split "+" (fst term) ->
     part_name part <> "Intercept" ->
     part_name part <> Py.strip d ->
     has_column (part_name part) df = false ->
     forall l hi (w0 : world G) df0,
       frames w0 !! l = Some df0 ->
       written (Py.strip d) df df0 ->
       exists w1,
         add_random_part re l (Py.strip d) hi (Py.strip (snd term)) part w0
           = (inr tt, w1) /\
         frames w1 = frames w0).
Proof.
  intros Hs Hc _ Hseed Havail Hnonneg Hnoise. split.
  - rewrite (run_unfold _ _ _ _ _ _ _ _ _ _ _ Hs Hc Hseed). cbn zeta. simpl.
    destruct (simulate_succeeds re Hnonneg formula fe fv 0%nat (Py.strip d) rhs
                noise df (initial_generator rs w) Havail Hnoise) as [s' E].
    unfold simulate_local. rewrite E. simpl. eauto.
  - intros term part Hterm _ Hname Hdep Hmiss l hi w0 df0 Hl Hwritten.
    set (dep := Py.strip d) in *. set (group := Py.strip (snd term)).
    destruct (Havail term Hterm) as [Hgrp0 Hre].
    assert (Hgrp : has_column group df0 = true)
      by (eapply has_column_written; eassumption).
    assert (Hcol : has_column (part_name part) df0 = false).
    { rewrite (has_column_written_ne dep _ df df0 Hwritten) by congruence.
      exact Hmiss. }
    set (g0 := match rng_ w0 with Some g => g | None => rng w0 end).
    destruct (add_random_part_missing_slope re Hnonneg l dep hi group part df0
                g0 Hgrp Hre Hname Hcol) as [g' E].
    pose proof (sim_add_random_part (bool_decide (is_Some (rng_ w0))) l w0
                  re dep hi group part (df0, g0)) as Hsim.
    rewrite E in Hsim. cbn [fst snd] in Hsim. unfold g0 in Hsim.
    rewrite <- (world_as_at w0 l df0 Hl) in Hsim.
    eexists. split; [exact Hsim |].
    simpl. apply insert_id. exact Hl.
Qed.
End MissingSlope.

(** The claim as first stated fails where the grouping variable is missing
    as well: the slope variable [x2] is not a column, and the call raises. *)
Lemma missing_slope_with_missing_group_raises :
  has_column "x2" example_conditions = false /\
  Re.findall2 term_pattern "rt ~ (x2|site)" = [("x2", "site")] /\
  outcome (run (H := counter_source) "rt ~ (x2|site)"
             ∅ {[ "site" := {[ "x2" := (1 # 10)%Q ]} ]} ["x2"]
             0%nat 0%Q (Some 42%Z) example_world)
  = inl (GroupNotFound "site").
Proof. repeat split; vm_compute; reflexivity. Qed.

(** A slope on the dependent variable itself is not a slope on a missing
    column, although the table has no such column: when the term is
    processed the dependent column has been assigned, and the draws times
    that column are added (without the term every row would be 1). *)
Example slope_on_dependent_variable_is_added :
  has_column "rt" example_conditions = false /\
  exists f,
    lmm_experiment (H := counter_source) "rt ~ 1 + (rt|subject)"
      (Some {[ "Intercept" := 1%Q ]}) (Some {[ "subject" := {[ "rt" := (1 # 10)%Q ]} ]})
      = inr f /\
    observed (outcome (f 0%nat 0%Q (Some 42%Z) example_world))
    = inr (Frame 6 [("x1", [0; 1 # 2; 1; 0; 1 # 2; 1]%Q);
                    ("subject", [1; 1; 1; 2; 2; 2]%Q);
                    ("rt", [79 # 40; 79 # 40; 79 # 40; 2; 2; 2]%Q)]).
Proof.
  split; [reflexivity |]. eexists. split; [reflexivity | vm_compute; reflexivity].
Qed.

Lemma missing_slope_column_is_tolerated_witness :
  (exists l,
     fst (run (H := counter_source) "rt ~ (x2|subject)"
            ∅ {[ "subject" := {[ "x2" := (1 # 10)%Q ]} ]} ["x2"]
            0%nat 0%Q (Some 42%Z) example_world) = inr l) /\
  (exists w1,
     add_random_part (Sigma := world nat) (H := world_machine (H := counter_source))
       {[ "subject" := {[ "x2" := (1 # 10)%Q ]} ]} 0%nat "rt" true
       "subject" "x2" example_world = (inr tt, w1) /\
     frames w1 = frames example_world).
Proof.
  destruct (missing_slope_column_is_tolerated (H := counter_source)
              "rt ~ (x2|subject)" ∅ {[ "subject" := {[ "x2" := (1 # 10)%Q ]} ]} ["x2"]
              0%nat 0%Q (Some 42%Z) example_world example_conditions
              "rt " " (x2|subject)") as [Hrun Hpart].
  - reflexivity.
  - reflexivity.
  - split; [repeat constructor | ].
    apply NoDup_cons. split; [| apply NoDup_singleton].
    intros Hin. apply list_elem_of_singleton in Hin. discriminate.
  - reflexivity.
  - intros term Hin.
    assert (E : Re.findall2 term_pattern "rt ~ (x2|subject)" = [("x2", "subject")])
      by reflexivity.
    rewrite E in Hin. apply list_elem_of_singleton in Hin. subst term.
    split; [reflexivity | eexists; reflexivity].
  - intros group d0 name sd Hg Hd.
    apply lookup_singleton_Some in Hg as [<- <-].
    apply lookup_singleton_Some in Hd as [<- <-].
    discriminate.
  - discriminate.
  - split; [exact Hrun |].
    assert (Hterm : ("x2", "subject") ∈ Re.findall2 term_pattern "rt ~ (x2|subject)")
      by left.
    assert (Hpiece : "x2" ∈ Py.split "+" (fst ("x2", "subject"))) by left.
    assert (Hslope : part_name "x2" <> "Intercept") by discriminate.
    assert (Hdep : part_name "x2" <> Py.strip "rt ") by discriminate.
    exact (Hpart ("x2", "subject") "x2" Hterm Hpiece Hslope Hdep eq_refl
             0%nat true example_world example_conditions eq_refl
             (or_introl eq_refl)).
Defined.

(** ** C10: names the fixed-effect pattern does not match *)

Section UnmatchedNames.
Context {G : Type} `{RandomSource G}.

(** C10, amended.  A name that does not begin with a lowercase letter is
    never produced by the fixed-effect pattern; it is a fixed-effect name
    of the parser only if it is one of the pieces of a random-effect term
    list.  When it is not, the parser omits it, and (for names other than
    the reserved keys [Intercept] and [1]) the simulation is the same
    whatever coefficient is supplied for it. *)
Theorem unmatched_name_is_ignored formula d rhs name :
  Py.split "~" formula = [d; rhs] ->
  starts_lower name = false ->
  (forall reffect piece,
     reffect ∈ Re.findall2 random_pattern rhs ->
     piece ∈ Py.split "+" (Py.replace "1 + " "" (fst reffect)) ->
     Py.strip piece <> name) ->
  exists fv groups,
    _extract_variable_names formula = inr (Py.strip d, fv, groups) /\
    (name ∉ fv) /\
    (name <> "Intercept" -> name <> "1" ->
     forall fe re c conditions noise rs (w : world G),
       run formula (<[name := c]> fe) re fv conditions noise rs w =
       run formula fe re fv conditions noise rs w).
Proof.
  intros Hs Hlow Hrand.
  destruct (fixed_variable_origin formula d rhs name Hs) as (fv & groups & E & Hin).
  exists fv, groups. split; [exact E |].
  assert (Hfv : name ∉ fv).
  { rewrite Hin. intros [(x & Hx & Hstrip) | (r & piece & Hr & Hp & Hstrip)].
    - apply findall_fixed_pattern_starts_lower in Hx.
      apply strip_starts_lower in Hx. rewrite Hstrip in Hx. congruence.
    - exact (Hrand r piece Hr Hp Hstrip). }
  split; [exact Hfv |].
  intros Hi H1 fe re c conditions noise rs w.
  assert (Hb : forall w0 : world G,
            run_body formula (<[name := c]> fe) re fv conditions noise w0 =
            run_body formula fe re fv conditions noise w0).
  { intros w0. unfold run_body. rewrite Hs. apply bind_ext. intros l w1.
    rewrite (simulate_insert_unused formula fe re fv name c l (Py.strip d) rhs
               noise Hfv Hi H1).
    reflexivity. }
  unfold run, with_generator. rewrite Hb. reflexivity.
Qed.
End UnmatchedNames.

(** The claim as first stated fails for a bare term that also occurs in a
    random-effect clause: [X1] is a fixed-effect name, and its coefficient
    is applied (the result differs from the one without a coefficient). *)
Lemma uppercase_name_from_random_clause_is_used :
  _extract_variable_names "rt ~ X1 + (X1|subject)" = inr ("rt", ["X1"], ["subject"]) /\
  exists f,
    lmm_experiment (H := counter_source) "rt ~ X1 + (X1|subject)"
      (Some {[ "X1" := 2%Q ]}) (Some {[ "subject" := {[ "X1" := 0%Q ]} ]}) = inr f /\
    observed (outcome (f 0%nat 0%Q (Some 42%Z) (World {[ 0%nat := upper_conditions ]} 0%nat None)))
    = inr (Frame 2 [("X1", [1; 2]%Q); ("subject", [1; 1]%Q); ("rt", [2; 4]%Q)]) /\
    exists f0,
      lmm_experiment (H := counter_source) "rt ~ X1 + (X1|subject)"
        None (Some {[ "subject" := {[ "X1" := 0%Q ]} ]}) = inr f0 /\
      observed (outcome (f0 0%nat 0%Q (Some 42%Z) (World {[ 0%nat := upper_conditions ]} 0%nat None)))
      = inr (Frame 2 [("X1", [1; 2]%Q); ("subject", [1; 1]%Q); ("rt", [0; 0]%Q)]).
Proof.
  split; [vm_compute; reflexivity |].
  eexists. split; [reflexivity |]. split; [vm_compute; reflexivity |].
  eexists. split; [reflexivity | vm_compute; reflexivity].
Qed.

Lemma unmatched_name_is_ignored_witness :
  exists fv groups,
    _extract_variable_names "rt ~ 1 + X1" = inr ("rt", fv, groups) /\
    ("X1" ∉ fv) /\
    ("X1" <> "Intercept" -> "X1" <> "1" ->
     forall fe re c conditions noise rs (w : world nat),
       run (H := counter_source) "rt ~ 1 + X1" (<["X1" := c]> fe) re fv conditions noise rs w =
       run (H := counter_source) "rt ~ 1 + X1" fe re fv conditions noise rs w).
Proof.
  apply (unmatched_name_is_ignored (H := counter_source) "rt ~ 1 + X1" "rt " " 1 + X1" "X1").
  - reflexivity.
  - reflexivity.
  - intros reffect piece Hin.
    assert (E : Re.findall2 random_pattern " 1 + X1" = []) by reflexivity.
    rewrite E in Hin. inversion Hin.
Defined.

(** * Further properties of the code *)

(** ** The parser and the construction of an experiment *)

Lemma length_split sep s : length (Py.split sep s) = S (count_char sep s).
Proof.
  induction s as [| c s IH]; simpl; [reflexivity |].
  destruct (Ascii.eqb c sep); simpl.
  - rewrite IH. reflexivity.
  - destruct (Py.split sep s) as [| h t]; [discriminate |]. exact IH.
Qed.

Lemma split_two_iff sep s :
  (exists a b, Py.split sep s = [a; b]) <-> count_char sep s = 1.
Proof.
  pose proof (length_split sep s) as Hlen. split.
  - intros (a & b & E). rewrite E in Hlen. simpl in Hlen. lia.
  - intros Hc. rewrite Hc in Hlen.
    destruct (Py.split sep s) as [| a [| b [| ? ?]]]; try discriminate. eauto.
Qed.

(** X1.  The parser raises exactly when the formula does not contain one
    tilde: no tilde and two tildes are both rejected. *)
Theorem extract_variable_names_unpack_error formula :
  _extract_variable_names formula = inl UnpackError <->
  count_char "~" formula <> 1.
Proof.
  rewrite <- split_two_iff. unfold _extract_variable_names. split.
  - intros E (a & b & Hs). rewrite Hs in E. discriminate.
  - intros Hn. destruct (Py.split "~" formula) as [| a [| b [| ? ?]]];
      try reflexivity.
    exfalso. apply Hn. eauto.
Qed.

(** ** The exceptions of a call *)

Section Exceptions.
Context {G : Type} `{RandomSource G}.
Implicit Types (df : frame) (g : G) (l : loc).

Lemma succeeds_fails_only dep E (m : St (frame * G) unit) s :
  succeeds dep m s -> fails_only dep E m s.
Proof. intros (s' & Em & W). unfold fails_only. rewrite Em. split; [exact W | exact I]. Qed.

Lemma fails_only_for_each {A} dep E (P : frame -> Prop) (xs : list A)
    (body : A -> St (frame * G) unit) :
  (forall df df', written dep df df' -> P df -> P df') ->
  (forall x s, x ∈ xs -> P (fst s) -> fails_only dep E (body x) s) ->
  forall s, P (fst s) -> fails_only dep E (for_each xs body) s.
Proof.
  intros HP. induction xs as [| x xs IH]; intros Hb s Hs; simpl.
  - split; [apply written_refl | exact I].
  - destruct (Hb x s) as [W1 E1]; [left | exact Hs |].
    unfold fails_only, bind.
    destruct (body x s) as [[e | []] s1] eqn:Ex; simpl in *.
    + split; assumption.
    + destruct (IH (fun y s0 Hy => Hb y s0 (list_elem_of_further _ _ _ Hy)) s1)
        as [W2 E2]; [eapply HP; eassumption |].
      split; [eapply written_trans; eassumption | exact E2].
Qed.

Variable random_effects : gmap string (gmap string Q).
Hypothesis Hnonneg : std_devs_nonneg random_effects.

Lemma add_random_part_fails_only l dep hi group part df g :
  has_column dep df = true ->
  has_column group df = true ->
  fails_only dep (fun e => e = KeyError group /\ random_effects !! group = None)
    (add_random_part random_effects l dep hi group part) (df, g).
Proof.
  intros Hdep Hgrp.
  destruct (random_effects !! group) as [d |] eqn:Hd.
  - apply succeeds_fails_only.
    apply add_random_part_succeeds; [exact Hnonneg | exact Hdep | exact Hgrp |].
    rewrite Hd. eauto.
  - unfold fails_only, add_random_part.
    erewrite bind_fail by (unfold resolve_std_dev; rewrite Hd; reflexivity).
    simpl. split; [apply written_refl | split; reflexivity].
Qed.

Lemma add_random_term_fails_only l dep hi term df g :
  has_column dep df = true ->
  fails_only dep
    (fun e =>
       (e = GroupNotFound (Py.strip (snd term)) /\
        has_column (Py.strip (snd term)) df = false) \/
       (e = KeyError (Py.strip (snd term)) /\
        random_effects !! Py.strip (snd term) = None))
    (add_random_term random_effects l dep hi term) (df, g).
Proof.
  intros Hdep.
  destruct (has_column (Py.strip (snd term)) df) eqn:Hgrp.
  - unfold add_random_term, fails_only.
    run_stmt (local_has_column l (Py.strip (snd term)) df g).
    rewrite Hgrp. cbn [negb].
    destruct (fails_only_for_each dep
                (fun e => e = KeyError (Py.strip (snd term)) /\
                          random_effects !! Py.strip (snd term) = None)
                (fun df0 => has_column dep df0 = true /\
                            has_column (Py.strip (snd term)) df0 = true)
                (Py.split "+" (fst term))
                (add_random_part random_effects l dep hi (Py.strip (snd term))))
      with (s := (df, g)) as [W E].
    + intros df1 df2 W0 [H1 H2]. split; eapply has_column_written; eassumption.
    + intros part [df1 g1] _ [H1 H2]. apply add_random_part_fails_only; assumption.
    + split; assumption.
    + split; [exact W |].
      destruct (fst (for_each _ _ _)); [right; exact E | exact I].
  - unfold fails_only. rewrite (add_random_term_missing_group _ _ _ _ _ _ _ Hgrp).
    simpl. split; [apply written_refl | left; split; reflexivity].
Qed.

Lemma simulate_fails_only formula fe fv l dep rhs noise df g e :
  (0 <= noise)%Q ->
  fst (simulate formula fe random_effects fv l dep rhs noise (df, g)) = inl e ->
  group_error formula random_effects df e.
Proof.
  intros Hnoise. unfold simulate.
  erewrite bind_ok by apply local_setitem_scalar.
  set (df1 := setitem dep _ df).
  pose (P := fun df0 : frame =>
          has_column dep df0 = true /\
          forall name, name <> dep -> has_column name df0 = has_column name df).
  assert (HP : forall df0 df', written dep df0 df' -> P df0 -> P df').
  { intros df0 df' W [H1 H2]. split.
    - eapply has_column_written; eassumption.
    - intros name Hne. rewrite (has_column_written_ne dep name df0 df' W) by congruence.
      apply H2. exact Hne. }
  assert (P1 : P df1).
  { split; [apply has_column_setitem_eq |].
    intros name Hne. apply has_column_setitem_ne. congruence. }
  destruct (succeeds_for_each dep P fv (add_fixed_effect fe l dep) HP) with (s := (df1, g))
    as ([df2 g2] & E2 & W2).
  { intros var [df0 g0] _ [H1 _]. apply add_fixed_effect_succeeds. exact H1. }
  { exact P1. }
  run_stmt E2.
  assert (P2 : P df2) by (eapply HP; [exact W2 | exact P1]).
  destruct (fails_only_for_each dep (group_error formula random_effects df) P
              (Re.findall2 term_pattern formula)
              (add_random_term random_effects l dep (has_intercept_of fe rhs)) HP)
    with (s := (df2, g2)) as [W3 E3].
  { intros term [df0 g0] Hterm [H1 H2].
    destruct (add_random_term_fails_only l dep (has_intercept_of fe rhs) term df0 g0 H1)
      as [W E].
    split; [exact W |].
    destruct (fst (add_random_term _ _ _ _ _ _)) as [e0 |]; [| exact I].
    exists term. split; [exact Hterm |].
    destruct E as [[-> Hmiss] | [-> Hnone]]; [left | right; auto].
    split; [reflexivity |]. rewrite <- (H2 (Py.strip (snd term))); [exact Hmiss |].
    intros Heq. rewrite Heq in Hmiss. simpl in H1. congruence. }
  { exact P2. }
  unfold bind at 1.
  destruct (for_each (Re.findall2 term_pattern formula) _ (df2, g2))
    as [[e3 | []] [df3 g3]] eqn:Eterms; simpl in W3, E3.
  - simpl. intros E. injection E as <-. exact E3.
  - assert (P3 : P df3) by (eapply HP; [exact W3 | exact P2]).
    run_stmt (local_len l df3 g3).
    destruct (local_normal_n 0 noise (nrows df3) df3 g3 Hnoise) as (zs & g4 & E4 & _).
    run_stmt E4.
    destruct P3 as [Hdep3 _]. apply has_column_getitem in Hdep3 as [old Hold].
    rewrite (local_iadd _ _ _ _ _ _ Hold). discriminate.
Qed.

(** X2.  On a proper table of numeric columns, with coefficients in the
    [int64] range and non-negative standard deviations and noise level,
    a call of [run] on a formula with one tilde raises only in these
    cases: the generator's error for a negative [random_state], before
    anything else; and, for a grouping variable of the formula, the
    missing-group error when it is not a column of the table, or
    [KeyError] with its name when it is not a key of the random-effects
    specification.  A missing fixed-effect or slope column never
    raises. *)
Theorem run_raises_only_for_groups
    formula fe fv conditions noise rs (w : world G) df d rhs e :
  Py.split "~" formula = [d; rhs] ->
  frames w !! conditions = Some df ->
  proper_table df ->
  coefficients_in_int64 fe ->
  (0 <= noise)%Q ->
  fst (run formula fe random_effects fv conditions noise rs w) = inl e ->
  (seed_ok rs = false /\ e = SeedError) \/
  (seed_ok rs = true /\ group_error formula random_effects df e).
Proof.
  intros Hs Hc _ _ Hnoise.
  destruct (seed_ok rs) eqn:Hseed.
  - rewrite (run_unfold _ _ _ _ _ _ _ _ _ _ _ Hs Hc Hseed). cbn zeta. simpl.
    unfold simulate_local.
    destruct (fst (simulate _ _ _ _ _ _ _ _ _)) as [e0 |] eqn:E; [| discriminate].
    intros E0. injection E0 as <-. right. split; [reflexivity |].
    eapply simulate_fails_only; eassumption.
  - rewrite run_seed_error by exact Hseed. simpl.
    intros E0. injection E0 as <-. left. split; reflexivity.
Qed.
End Exceptions.

Lemma std_devs_nonneg_empty : std_devs_nonneg ∅.
Proof. intros group d name sd Hg. rewrite lookup_empty in Hg. discriminate. Qed.

Lemma std_devs_nonneg_singleton group (d : gmap string Q) :
  map_Forall (fun _ sd => (0 <= sd)%Q) d -> std_devs_nonneg {[ group := d ]}.
Proof.
  intros Hd group' d' name sd Hg Hn.
  apply lookup_singleton_Some in Hg as [_ <-]. exact (Hd name sd Hn).
Qed.

Lemma proper_example_conditions : proper_table example_conditions.
Proof.
  split; [repeat constructor |].
  apply NoDup_cons. split; [| apply NoDup_singleton].
  intros Hin. apply list_elem_of_singleton in Hin. discriminate.
Qed.

Lemma proper_linspace_conditions : proper_table linspace_conditions.
Proof. split; [repeat constructor | apply NoDup_singleton]. Qed.

Lemma coefficients_in_int64_empty : coefficients_in_int64 ∅.
Proof. apply map_Forall_empty. Qed.

Lemma coefficients_in_int64_insert name c (fe : gmap string Q) :
  in_int64 c = true -> coefficients_in_int64 fe ->
  coefficients_in_int64 (<[name := c]> fe).
Proof. intros Hc Hfe. apply map_Forall_insert_2; assumption. Qed.

Lemma run_raises_only_for_groups_witness :
  (seed_ok None = false /\ KeyError "subject" = SeedError) \/
  (seed_ok None = true /\
   group_error "rt ~ (1|subject) + (1|site)" ∅ example_conditions (KeyError "subject")).
Proof.
  apply (run_raises_only_for_groups (H := counter_source) ∅ std_devs_nonneg_empty
           "rt ~ (1|subject) + (1|site)" ∅ [] 0%nat 0%Q None example_world
           example_conditions "rt " " (1|subject) + (1|site)").
  - reflexivity.
  - reflexivity.
  - exact proper_example_conditions.
  - exact coefficients_in_int64_empty.
  - discriminate.
  - reflexivity.
Defined.

(** ** The parser: order of the names, and text inside parentheses *)

(** X3.  Both lists returned by the parser are in increasing order of
    [str] comparison and hold no name twice. *)
Theorem parser_lists_sorted formula dependent fixed_effects random_groups :
  _extract_variable_names formula = inr (dependent, fixed_effects, random_groups) ->
  Sorted Py.str_le fixed_effects /\ NoDup fixed_effects /\
  Sorted Py.str_le random_groups /\ NoDup random_groups.
Proof. apply extract_variable_names_sorted. Qed.

Lemma parser_lists_sorted_witness :
  Sorted Py.str_le ["x1"; "x2"] /\ NoDup ["x1"; "x2"] /\
  Sorted Py.str_le ["group"; "subject"] /\ NoDup ["group"; "subject"].
Proof.
  apply (parser_lists_sorted "y ~ x2 + x1 + (1 + x1|group) + (x2|subject) + (x2|group)" "y").
  vm_compute. reflexivity.
Defined.

Lemma closing_app_close s t :
  all_chars (Re.isnt "(") s = true -> closing (s ++ String ")" t) = true.
Proof.
  induction s as [| c s IH]; simpl; [reflexivity |].
  rewrite andb_true_iff. intros [Hc Hs]. unfold Re.isnt in Hc.
  apply negb_true_iff in Hc. rewrite Hc.
  destruct (Ascii.eqb c ")"); [reflexivity | exact (IH Hs)].
Qed.

Lemma rep_isnt_open_closing {A} b s (k : option ascii -> string -> option A) :
  (forall b0 t, is_Some (k b0 (String ")" t))) ->
  closing s = true ->
  is_Some (Re.rep true (Re.isnt "(") b s k).
Proof.
  intros Hk. revert b. induction s as [| c s IH]; intros b; [discriminate |].
  cbn [closing Re.rep]. destruct (Ascii.eqb c ")") eqn:Eclose.
  - intros _. apply Ascii.eqb_eq in Eclose. subst c.
    destruct (Re.isnt "(" ")"); [| apply Hk].
    unfold Re.orelse. destruct (Re.rep _ _ _ _ _); [eauto | apply Hk].
  - destruct (Ascii.eqb c "(") eqn:Eopen; [discriminate |].
    intros Hs. change (Re.isnt "(" c) with (negb (Ascii.eqb c "(")).
    rewrite Eopen. cbn [negb].
    destruct (IH (Some c) Hs) as [v Hv]. rewrite Hv. simpl. eauto.
Qed.

(** Where the first parenthesis is a closing one, the lookahead text
    [[^\(]*\)] matches. *)
Lemma lookahead_matches_closing b s caps :
  closing s = true ->
  is_Some (Re.exec (Re.Cat (Re.Rep true (Re.isnt "(")) (Re.Lit ")"))
             (Re.Cursor b s caps) Some).
Proof.
  intros Hs. cbn [Re.exec Re.rest Re.before Re.caps].
  apply rep_isnt_open_closing; [| exact Hs].
  intros b0 t. cbn. eauto.
Qed.

Lemma word_not_paren c :
  Re.word c = true -> Ascii.eqb c ")" = false /\ Ascii.eqb c "(" = false.
Proof.
  intros Hc. split; apply Ascii.eqb_neq; intros ->; discriminate.
Qed.

Lemma rep_word_closing {A} greedy b s (k : option ascii -> string -> option A) :
  closing s = true ->
  (forall b0 s0, closing s0 = true -> k b0 s0 = None) ->
  Re.rep greedy Re.word b s k = None.
Proof.
  intros Hs Hk. revert b Hs. induction s as [| c s IH]; intros b Hs; [discriminate |].
  simpl. destruct (Re.word c) eqn:Hc; [| apply Hk; exact Hs].
  destruct (word_not_paren c Hc) as [E1 E2].
  assert (Hs' : closing s = true) by (simpl in Hs; rewrite E1, E2 in Hs; exact Hs).
  rewrite (IH (Some c) Hs'), (Hk b (String c s) Hs). destruct greedy; reflexivity.
Qed.

Lemma match_fixed_pattern_closing b s :
  closing s = true -> Re.match_at fixed_pattern b s = None.
Proof.
  intros Hs. unfold Re.match_at, fixed_pattern.
  destruct s as [| c s]; [reflexivity |].
  cbn [Re.exec Re.rest Re.caps Re.before].
  destruct (Re.lower c) eqn:Hc; [| reflexivity].
  assert (Hw : Re.word c = true) by (unfold Re.word; rewrite Hc; reflexivity).
  destruct (word_not_paren c Hw) as [E1 E2].
  assert (Hs' : closing s = true) by (simpl in Hs; rewrite E1, E2 in Hs; exact Hs).
  rewrite rep_word_closing; [reflexivity | exact Hs' |].
  intros b0 s0 H0.
  destruct (lookahead_matches_closing b0 s0 [] H0) as [v Hv].
  cbn [Re.exec Re.rest Re.caps Re.before] in Hv |- *. rewrite Hv. reflexivity.
Qed.

(** The fixed-effect pattern does not look behind the cursor. *)
Lemma scan_fixed_pattern_before s skip b b' :
  Re.scan fixed_pattern skip b s = Re.scan fixed_pattern skip b' s.
Proof.
  revert skip b b'. induction s as [| c s IH]; intros skip b b'.
  - destruct skip; reflexivity.
  - cbn [Re.scan]. destruct skip; [| reflexivity].
    assert (E : Re.match_at fixed_pattern b (String c s) =
                Re.match_at fixed_pattern b' (String c s)) by reflexivity.
    rewrite E. reflexivity.
Qed.

Lemma scan_fixed_pattern_before_close s t b :
  all_chars (Re.isnt "(") s = true ->
  Re.scan fixed_pattern 0 b (s ++ String ")" t) = Re.scan fixed_pattern 0 None t.
Proof.
  revert b. induction s as [| c s IH]; intros b Hs.
  - change ("" ++ String ")" t) with (String ")" t). cbn [Re.scan].
    rewrite match_fixed_pattern_closing by reflexivity.
    apply scan_fixed_pattern_before.
  - change (String c s ++ String ")" t) with (String c (s ++ String ")" t)).
    cbn [Re.scan].
    rewrite match_fixed_pattern_closing.
    + apply IH. simpl in Hs. apply andb_true_iff in Hs as [_ Hs]. exact Hs.
    + apply (closing_app_close (String c s) t Hs).
Qed.

(** X4.  The fixed-effect pattern takes no name from text that is followed
    by a closing parenthesis with no opening one in between: the names of
    a clause [(terms|group)] are skipped, and so is everything before an
    unmatched closing parenthesis. *)
Theorem fixed_pattern_skips_text_before_close s t :
  all_chars (Re.isnt "(") s = true ->
  Re.findall fixed_pattern (s ++ String ")" t) = Re.findall fixed_pattern t /\
  Re.findall fixed_pattern (String "(" (s ++ String ")" t)) = Re.findall fixed_pattern t.
Proof.
  intros Hs. unfold Re.findall. split.
  - rewrite (scan_fixed_pattern_before_close s t None Hs). reflexivity.
  - cbn [Re.scan].
    assert (E : Re.match_at fixed_pattern None (String "(" (s ++ String ")" t)) = None)
      by reflexivity.
    rewrite E. rewrite (scan_fixed_pattern_before_close s t _ Hs). reflexivity.
Qed.

Lemma fixed_pattern_skips_text_before_close_witness :
  Re.findall fixed_pattern ("x1 + x2" ++ String ")" " + x3") = ["x3"] /\
  Re.findall fixed_pattern (String "(" ("1 + x1|group" ++ String ")" " + x3")) = ["x3"].
Proof.
  split.
  - apply (proj1 (fixed_pattern_skips_text_before_close "x1 + x2" " + x3" eq_refl)).
  - apply (proj2 (fixed_pattern_skips_text_before_close "1 + x1|group" " + x3" eq_refl)).
Defined.

(** ** Formulas without random-effect terms *)

Lemma has_column_false_getitem name df :
  has_column name df = false -> getitem name df = None.
Proof.
  intros Hc. destruct (getitem name df) eqn:E; [| reflexivity].
  assert (Ht : has_column name df = true) by (apply has_column_getitem; eauto).
  congruence.
Qed.

Lemma length_series_add a b : length (series_add a b) = min (length a) (length b).
Proof. apply length_zip_with. Qed.

Lemma length_series_scale c a : length (series_scale c a) = length a.
Proof. apply length_fmap. Qed.

Lemma fixed_part_length fe fv intercept df :
  well_formed df -> length (fixed_part fe fv intercept df) = nrows df.
Proof.
  intros Hwf. unfold fixed_part.
  assert (Hacc : length (replicate (nrows df) intercept) = nrows df)
    by apply length_replicate.
  revert Hacc. generalize (replicate (nrows df) intercept).
  induction fv as [| var fv IH]; intros acc Hacc; simpl; [exact Hacc |].
  apply IH. destruct (getitem var df) as [x |] eqn:Hx; [| exact Hacc].
  rewrite length_series_add, length_series_scale, Hacc.
  rewrite (getitem_length _ _ _ Hwf Hx). lia.
Qed.

Lemma assign_col_normalise name v cs :
  map (fun c : string * series => (fst c, map Qred (snd c))) (assign_col name v cs) =
  assign_col name (map Qred v)
    (map (fun c : string * series => (fst c, map Qred (snd c))) cs).
Proof.
  induction cs as [| [n old] cs IH]; simpl; [reflexivity |].
  destruct (String.eqb n name); simpl; [reflexivity | rewrite IH; reflexivity].
Qed.

Lemma normalise_setitem name v df :
  normalise (setitem name v df) = setitem name (map Qred v) (normalise df).
Proof.
  unfold normalise, setitem. simpl. rewrite assign_col_normalise. reflexivity.
Qed.

(** Noise of scale 0 leaves every value as it is. *)
Lemma series_add_zero_noise a zs :
  length zs = length a ->
  map Qred (series_add a (scaled 0 0 zs)) = map Qred a.
Proof.
  revert zs. induction a as [| x a IH]; intros [| z zs] Hlen; try discriminate;
    [reflexivity |].
  simpl. f_equal.
  - apply Qred_complete. ring.
  - apply IH. simpl in Hlen. congruence.
Qed.

Section FixedOnly.
Context {G : Type} `{RandomSource G}.
Implicit Types (df : frame) (g : G) (l : loc).

Lemma length_variates n g : length (variates n g) = n.
Proof.
  revert g. induction n as [| n IH]; intros g; simpl; [reflexivity |].
  rewrite IH. reflexivity.
Qed.

Lemma local_draw_n_variates loc_ scale n df g :
  draw_n loc_ scale n (df, g) =
    (inr (scaled loc_ scale (variates n g)), (df, advance n g)).
Proof.
  revert g. induction n as [| n IH]; intros g; [reflexivity |].
  cbn [draw_n]. erewrite bind_ok by reflexivity.
  run_stmt (IH (snd (standard_normal g))). reflexivity.
Qed.

Lemma local_normal_n_variates loc_ scale n df g :
  (0 <= scale)%Q ->
  normal_n loc_ scale n (df, g) =
    (inr (scaled loc_ scale (variates n g)), (df, advance n g)).
Proof.
  intros Hs. unfold normal_n. run_stmt (local_check_scale _ df g Hs).
  apply local_draw_n_variates.
Qed.

(** The loop over the fixed variables, when the dependent variable is not
    one of them: every column it reads is a column of the caller's
    table. *)
Lemma fixed_loop_local fe l dep fv df g acc :
  dep ∉ fv ->
  for_each fv (add_fixed_effect fe l dep) (setitem dep acc df, g) =
    (inr tt,
     (setitem dep
        (foldl
           (fun acc var =>
              match getitem var df with
              | Some x => series_add acc (series_scale (coefficient fe var) x)
              | None => acc
              end) acc fv) df, g)).
Proof.
  revert acc. induction fv as [| var fv IH]; intros acc Hdep; [reflexivity |].
  apply not_elem_of_cons in Hdep as [Hne Hdep].
  cbn [for_each foldl]. unfold add_fixed_effect at 1.
  erewrite bind_ok; [apply IH; exact Hdep |].
  run_stmt (local_has_column l var (setitem dep acc df) g).
  rewrite has_column_setitem_ne by exact Hne.
  destruct (getitem var df) as [x |] eqn:Hx.
  - assert (Hc : has_column var df = true) by (apply has_column_getitem; eauto).
    rewrite Hc.
    erewrite bind_ok
      by (apply local_getitem; rewrite getitem_setitem_ne by exact Hne; exact Hx).
    rewrite (local_iadd _ _ _ _ _ _ (getitem_setitem_eq dep acc df)).
    rewrite setitem_setitem. reflexivity.
  - destruct (has_column var df) eqn:Hc; [| reflexivity].
    apply has_column_getitem in Hc as [x Hx']. congruence.
Qed.

Lemma simulate_fixed_only formula fe re fv l dep rhs noise df g :
  Re.findall2 term_pattern formula = [] ->
  dep ∉ fv ->
  (0 <= noise)%Q ->
  simulate formula fe re fv l dep rhs noise (df, g) =
    (inr tt,
     (setitem dep
        (series_add
           (fixed_part fe fv
              (if has_intercept_of fe rhs then coefficient fe "Intercept" else 0%Q) df)
           (scaled 0 noise (variates (nrows df) g))) df,
      advance (nrows df) g)).
Proof.
  intros Hterms Hdep Hnoise. unfold simulate. rewrite Hterms.
  run_stmt (local_setitem_scalar l dep
              (if has_intercept_of fe rhs then coefficient fe "Intercept" else 0%Q) df g).
  run_stmt (fixed_loop_local fe l dep fv df g
              (replicate (nrows df)
                 (if has_intercept_of fe rhs then coefficient fe "Intercept" else 0%Q))
              Hdep).
  fold (fixed_part fe fv
          (if has_intercept_of fe rhs then coefficient fe "Intercept" else 0%Q) df).
  erewrite bind_ok by reflexivity.
  erewrite bind_ok by apply local_len.
  cbn [setitem nrows].
  erewrite bind_ok by (apply local_normal_n_variates; exact Hnoise).
  rewrite (local_iadd _ _ _ _ _ _ (getitem_setitem_eq dep _ df)).
  rewrite setitem_setitem. reflexivity.
Qed.

(** X5.  For a formula without random-effect terms whose dependent
    variable is not among the fixed variables, a call with non-negative
    noise and a [random_state] that is absent or not negative, on a
    proper table on which the fixed part stays in the [int64] range,
    returns a new table equal to the caller's with the dependent column
    set to the fixed part plus noise, the noise being made from one
    variate per row; without a seed the shared generator is advanced by
    exactly that many variates, with a seed it is left as it was. *)
Theorem run_without_random_terms formula fe re fv c noise rs (w : world G) df d rhs :
  Py.split "~" formula = [d; rhs] ->
  Re.findall2 term_pattern formula = [] ->
  Py.strip d ∉ fv ->
  (0 <= noise)%Q ->
  frames w !! c = Some df ->
  proper_table df ->
  seed_ok rs = true ->
  fixed_part_in_int64 fe fv
    (if has_intercept_of fe rhs then coefficient fe "Intercept" else 0%Q) df = true ->
  run formula fe re fv c noise rs w =
    (inr (fresh (dom (frames w))),
     World
       (<[fresh (dom (frames w)) :=
            setitem (Py.strip d)
              (series_add
                 (fixed_part fe fv
                    (if has_intercept_of fe rhs then coefficient fe "Intercept" else 0%Q)
                    df)
                 (scaled 0 noise (variates (nrows df) (initial_generator rs w))))
              df]> (frames w))
       (match rs with Some _ => rng w | None => advance (nrows df) (rng w) end)
       (rng_ w)).
Proof.
  intros Hs Hterms Hdep Hnoise Hc _ Hseed _.
  rewrite (run_unfold _ _ _ _ _ _ _ _ _ _ _ Hs Hc Hseed). unfold simulate_local.
  rewrite (simulate_fixed_only _ _ _ _ _ _ _ _ _ _ Hterms Hdep Hnoise).
  destruct rs; reflexivity.
Qed.

(** X6.  The ground truth of a formula without random-effect terms, on a
    proper table on which the fixed part stays in the [int64] range, is
    the fixed part alone, whatever the state of the shared generator and
    whatever the [random_state], as long as it is absent or not negative:
    the caller's table with the dependent column set to the fixed part. *)
Theorem ground_truth_without_random_terms formula fe re fv c rs (w : world G) df d rhs :
  Py.split "~" formula = [d; rhs] ->
  Re.findall2 term_pattern formula = [] ->
  Py.strip d ∉ fv ->
  proper_table df ->
  frames w !! c = Some df ->
  seed_ok rs = true ->
  fixed_part_in_int64 fe fv
    (if has_intercept_of fe rhs then coefficient fe "Intercept" else 0%Q) df = true ->
  observed (outcome (ground_truth formula fe re fv c rs w)) =
  observed
    (inr (setitem (Py.strip d)
            (fixed_part fe fv
               (if has_intercept_of fe rhs then coefficient fe "Intercept" else 0%Q) df)
            df)).
Proof.
  intros Hs Hterms Hdep [Hwf _] Hc Hseed _. unfold ground_truth.
  rewrite (outcome_run _ _ _ _ _ _ _ _ _ _ _ Hs Hc Hseed). unfold simulate_local.
  rewrite (simulate_fixed_only _ _ _ _ _ _ _ _ _ _ Hterms Hdep (Qle_refl 0)).
  cbn [fst snd observed]. f_equal. rewrite !normalise_setitem. f_equal.
  apply series_add_zero_noise.
  rewrite length_variates, fixed_part_length by exact Hwf. reflexivity.
Qed.
End FixedOnly.

Lemma run_without_random_terms_witness :
  exists l w',
    run (H := counter_source) "rt ~ 1 + x1" {[ "Intercept" := 1%Q; "x1" := 2%Q ]} ∅
      ["x1"] 0%nat (1 # 10)%Q None (World {[ 0%nat := linspace_conditions ]} 7%nat None)
      = (inr l, w') /\
    rng w' = 12%nat.
Proof.
  eexists _, _. split.
  - apply (run_without_random_terms (H := counter_source) "rt ~ 1 + x1"
             {[ "Intercept" := 1%Q; "x1" := 2%Q ]} ∅ ["x1"] 0%nat (1 # 10)%Q None
             (World {[ 0%nat := linspace_conditions ]} 7%nat None)
             linspace_conditions "rt " " 1 + x1").
    + reflexivity.
    + reflexivity.
    + intros Hin. apply list_elem_of_singleton in Hin. discriminate.
    + discriminate.
    + reflexivity.
    + exact proper_linspace_conditions.
    + reflexivity.
    + reflexivity.
  - reflexivity.
Defined.

Lemma ground_truth_without_random_terms_witness :
  observed
    (outcome
       (ground_truth (H := counter_source) "rt ~ 1 + x1"
          {[ "Intercept" := 1%Q; "x1" := 2%Q ]} ∅ ["x1"] 0%nat (Some 42%Z)
          (World {[ 0%nat := linspace_conditions ]} 7%nat None))) =
  observed
    (inr (setitem "rt"
            (fixed_part {[ "Intercept" := 1%Q; "x1" := 2%Q ]} ["x1"]
               (if has_intercept_of {[ "Intercept" := 1%Q; "x1" := 2%Q ]} " 1 + x1"
                then coefficient {[ "Intercept" := 1%Q; "x1" := 2%Q ]} "Intercept"
                else 0%Q)
               linspace_conditions)
            linspace_conditions)).
Proof.
  apply (ground_truth_without_random_terms (H := counter_source) "rt ~ 1 + x1"
           {[ "Intercept" := 1%Q; "x1" := 2%Q ]} ∅ ["x1"] 0%nat (Some 42%Z)
           (World {[ 0%nat := linspace_conditions ]} 7%nat None)
           linspace_conditions "rt " " 1 + x1").
  - reflexivity.
  - reflexivity.
  - intros Hin. apply list_elem_of_singleton in Hin. discriminate.
  - exact proper_linspace_conditions.
  - reflexivity.
  - reflexivity.
  - reflexivity.
Defined.

Lemma extract_variable_names_ok formula d rhs :
  Py.split "~" formula = [d; rhs] ->
  exists fv groups, _extract_variable_names formula = inr (Py.strip d, fv, groups).
Proof. intros Hs. unfold _extract_variable_names. rewrite Hs. eauto. Qed.

Section NoParentheses.
Context {G : Type} `{RandomSource G}.

Lemma simulate_without_terms_succeeds formula fe re fv l dep rhs noise df (g : G) :
  Re.findall2 term_pattern formula = [] ->
  (0 <= noise)%Q ->
  exists s', simulate formula fe re fv l dep rhs noise (df, g) = (inr tt, s').
Proof.
  intros Hterms Hnoise.
  assert (E : simulate formula fe re fv l dep rhs noise (df, g) =
              simulate formula fe ∅ fv l dep rhs noise (df, g)).
  { unfold simulate. rewrite Hterms. reflexivity. }
  rewrite E. apply (simulate_succeeds ∅ std_devs_nonneg_empty); [| exact Hnoise].
  intros term Hin. rewrite Hterms in Hin. inversion Hin.
Qed.

(** X7.  A formula with one tilde and no opening parenthesis gives an
    experiment (built with the default [random_state]), and with
    coefficients in the [int64] range its [run] raises nothing on any
    proper table of numeric columns, for every non-negative noise level
    and every [random_state] that is absent or not negative: fixed
    variables that are not columns are passed over, and the
    random-effects specification is not consulted. *)
Theorem experiment_without_parentheses_never_fails formula fe re :
  count_char "~" formula = 1 ->
  all_chars (Re.isnt "(") formula = true ->
  coefficients_in_int64 (default ∅ fe) ->
  exists f,
    lmm_experiment formula fe re = inr f /\
    forall c noise rs (w : world G) df,
      (0 <= noise)%Q ->
      seed_ok rs = true ->
      frames w !! c = Some df ->
      proper_table df ->
      exists df', outcome (f c noise rs w) = inr df'.
Proof.
  intros Hcount Hopen _.
  apply split_two_iff in Hcount as (d & rhs & Hs).
  destruct (extract_variable_names_ok formula d rhs Hs) as (fv & groups & E).
  unfold lmm_experiment. rewrite E. eexists. split; [reflexivity |].
  intros c noise rs w df Hnoise Hseed Hc _.
  rewrite (outcome_run _ _ _ _ _ _ _ _ _ _ _ Hs Hc Hseed). unfold simulate_local.
  destruct (simulate_without_terms_succeeds formula (default ∅ fe) (default ∅ re) fv
              0%nat (Py.strip d) rhs noise df (initial_generator rs w)) as [s' Es'].
  - unfold term_pattern. apply findall2_without_open. exact Hopen.
  - exact Hnoise.
  - cbn zeta. rewrite Es'. eauto.
Qed.
End NoParentheses.

Lemma experiment_without_parentheses_never_fails_witness :
  exists f,
    lmm_experiment (H := counter_source) "rt ~ x1 + x2" (Some {[ "x1" := 2%Q ]}) None
      = inr f /\
    forall c noise rs (w : world nat) df,
      (0 <= noise)%Q ->
      seed_ok rs = true ->
      frames w !! c = Some df ->
      proper_table df ->
      exists df', outcome (f c noise rs w) = inr df'.
Proof.
  apply (experiment_without_parentheses_never_fails (H := counter_source)
           "rt ~ x1 + x2" (Some {[ "x1" := 2%Q ]}) None).
  - reflexivity.
  - reflexivity.
  - apply coefficients_in_int64_insert; [reflexivity |].
    exact coefficients_in_int64_empty.
Defined.

(** ** The first random-effect term that cannot be processed *)

Section FirstOffendingTerm.
Context {G : Type} `{RandomSource G}.

Lemma add_random_term_unspecified_group re l dep hi term df (g : G) :
  has_column (Py.strip (snd term)) df = true ->
  re !! Py.strip (snd term) = None ->
  add_random_term re l dep hi term (df, g) =
    (inl (KeyError (Py.strip (snd term))), (df, g)).
Proof.
  intros Hcol Hnone. unfold add_random_term.
  run_stmt (local_has_column l (Py.strip (snd term)) df g).
  rewrite Hcol. cbn [negb].
  pose proof (length_split "+" (fst term)) as Hlen.
  destruct (Py.split "+" (fst term)) as [| part parts]; [discriminate |].
  cbn [for_each]. erewrite bind_fail; [reflexivity |].
  unfold add_random_part, resolve_std_dev. rewrite Hnone.
  apply bind_fail. reflexivity.
Qed.

(** The first random-effect term whose grouping variable has no entry in
    the random-effects specification raises [KeyError], provided the
    terms before it have their groups in the table and in the
    specification. *)
Lemma run_unspecified_group
    formula fe re fv conditions noise rs (w : world G) df d rhs pre term post :
  Py.split "~" formula = [d; rhs] ->
  frames w !! conditions = Some df ->
  seed_ok rs = true ->
  std_devs_nonneg re ->
  Re.findall2 term_pattern formula = (pre ++ term :: post)%list ->
  (forall t, t ∈ pre ->
     has_column (Py.strip (snd t)) df = true /\ is_Some (re !! Py.strip (snd t))) ->
  has_column (Py.strip (snd term)) df = true \/ Py.strip (snd term) = Py.strip d ->
  re !! Py.strip (snd term) = None ->
  outcome (run formula fe re fv conditions noise rs w) =
    inl (KeyError (Py.strip (snd term))).
Proof.
  intros Hs Hc Hseed Hnonneg Hterms Hpre Hcol Hnone.
  rewrite (outcome_run _ _ _ _ _ _ _ _ _ _ _ Hs Hc Hseed). cbn zeta.
  set (g0 := initial_generator rs w). set (dep := Py.strip d) in *.
  assert (E : simulate_local formula fe re fv dep rhs noise df g0 =
              (inl (KeyError (Py.strip (snd term))),
               snd (simulate_local formula fe re fv dep rhs noise df g0))).
  { unfold simulate_local, simulate. rewrite Hterms.
    erewrite bind_ok by apply local_setitem_scalar.
    set (df1 := setitem dep _ df).
    pose (P := fun df0 : frame =>
            has_column dep df0 = true /\
            has_column (Py.strip (snd term)) df0 = true /\
            forall t, t ∈ pre -> has_column (Py.strip (snd t)) df0 = true).
    assert (HP : forall df0 df', written dep df0 df' -> P df0 -> P df').
    { intros df0 df' W (H1 & H2 & H3). split; [| split].
      - eapply has_column_written; eassumption.
      - eapply has_column_written; eassumption.
      - intros t Ht. eapply has_column_written; [exact W | auto]. }
    assert (P1 : P df1).
    { split; [apply has_column_setitem_eq | split].
      - destruct Hcol as [Hcol | ->].
        + apply has_column_setitem_mono. exact Hcol.
        + apply has_column_setitem_eq.
      - intros t Ht. apply has_column_setitem_mono. apply Hpre. exact Ht. }
    destruct (succeeds_for_each dep P fv (add_fixed_effect fe 0%nat dep) HP)
      with (s := (df1, g0)) as ([df2 g2] & E2 & W2).
    { intros var [df0 g1] _ [H1 _]. apply add_fixed_effect_succeeds. exact H1. }
    { exact P1. }
    run_stmt E2.
    assert (P2 : P df2) by (eapply HP; [exact W2 | exact P1]).
    destruct (succeeds_for_each dep P pre
                (add_random_term re 0%nat dep (has_intercept_of fe rhs)) HP)
      with (s := (df2, g2)) as ([df3 g3] & E3 & W3).
    { intros t [df0 g1] Ht (H1 & _ & H3).
      apply add_random_term_succeeds; [exact Hnonneg | exact H1 | auto | apply Hpre; exact Ht]. }
    { exact P2. }
    assert (P3 : P df3) by (eapply HP; [exact W3 | exact P2]).
    destruct P3 as (_ & Hcol3 & _).
    erewrite bind_fail; [reflexivity |].
    rewrite for_each_app. run_stmt E3. cbn [for_each].
    erewrite bind_fail; [reflexivity |].
    apply add_random_term_unspecified_group; assumption. }
  rewrite E. reflexivity.
Qed.

(** X8.  On a proper table of numeric columns, with a [random_state]
    that is absent or not negative, coefficients in the [int64] range
    and no negative standard deviation in the random-effects
    specification, the exception of a call is decided by the first
    random-effect term that cannot be processed.  When every earlier term
    has its grouping variable in the table and in the specification: a
    grouping variable that is neither a column nor the dependent variable
    raises the missing-group error, and one that is a column (or the
    dependent variable) without an entry in the specification raises
    [KeyError]; the values of the fixed effects, the noise level (even a
    negative one) and the later terms play no part. *)
Theorem first_offending_term_decides_exception
    formula fe re fv conditions noise rs (w : world G) df d rhs pre term post :
  Py.split "~" formula = [d; rhs] ->
  frames w !! conditions = Some df ->
  proper_table df ->
  seed_ok rs = true ->
  coefficients_in_int64 fe ->
  std_devs_nonneg re ->
  Re.findall2 term_pattern formula = (pre ++ term :: post)%list ->
  (forall t, t ∈ pre ->
     has_column (Py.strip (snd t)) df = true /\ is_Some (re !! Py.strip (snd t))) ->
  (has_column (Py.strip (snd term)) df = false ->
   Py.strip (snd term) <> Py.strip d ->
   outcome (run formula fe re fv conditions noise rs w) =
     inl (GroupNotFound (Py.strip (snd term)))) /\
  (has_column (Py.strip (snd term)) df = true \/ Py.strip (snd term) = Py.strip d ->
   re !! Py.strip (snd term) = None ->
   outcome (run formula fe re fv conditions noise rs w) =
     inl (KeyError (Py.strip (snd term)))).
Proof.
  intros Hs Hc _ Hseed _ Hnonneg Hterms Hpre. split.
  - intros Hmiss Hdep. eapply run_missing_group; eassumption.
  - intros Hcol Hnone. eapply run_unspecified_group; eassumption.
Qed.
End FirstOffendingTerm.

Lemma first_offending_term_decides_exception_witness :
  outcome
    (run (H := counter_source) "rt ~ x1 + (1|subject) + (x1|site) + (1|lab)"
       ∅ {[ "subject" := ∅ ]} ["x1"] 0%nat (-1)%Q None example_world) =
    inl (GroupNotFound "site") /\
  outcome
    (run (H := counter_source) "rt ~ x1 + (1|subject) + (x1|site) + (1|lab)"
       ∅ ∅ ["x1"] 0%nat (-1)%Q None example_world) =
    inl (KeyError "subject").
Proof.
  split.
  - destruct (first_offending_term_decides_exception (H := counter_source)
                "rt ~ x1 + (1|subject) + (x1|site) + (1|lab)" ∅ {[ "subject" := ∅ ]} ["x1"]
                0%nat (-1)%Q None example_world example_conditions
                "rt " " x1 + (1|subject) + (x1|site) + (1|lab)"
                [("1", "subject")] ("x1", "site") [("1", "lab")]) as [Hmissing _].
    + reflexivity.
    + reflexivity.
    + exact proper_example_conditions.
    + reflexivity.
    + exact coefficients_in_int64_empty.
    + apply std_devs_nonneg_singleton. apply map_Forall_empty.
    + reflexivity.
    + intros t Ht. apply list_elem_of_singleton in Ht. subst t.
      split; [reflexivity | eexists; reflexivity].
    + apply Hmissing; [reflexivity | discriminate].
  - destruct (first_offending_term_decides_exception (H := counter_source)
                "rt ~ x1 + (1|subject) + (x1|site) + (1|lab)" ∅ ∅ ["x1"]
                0%nat (-1)%Q None example_world example_conditions
                "rt " " x1 + (1|subject) + (x1|site) + (1|lab)"
                [] ("1", "subject") [("x1", "site"); ("1", "lab")]) as [_ Hunspecified].
    + reflexivity.
    + reflexivity.
    + exact proper_example_conditions.
    + reflexivity.
    + exact coefficients_in_int64_empty.
    + apply std_devs_nonneg_empty.
    + reflexivity.
    + intros t Ht. inversion Ht.
    + apply Hunspecified; [left; reflexivity | reflexivity].
Defined.

(** ** One piece of a random-effect term *)

Section RandomPart.
Context {G : Type} `{RandomSource G}.
Implicit Types (df : frame) (g : G) (l : loc).

Lemma local_normal loc_ scale df g :
  (0 <= scale)%Q ->
  normal loc_ scale (df, g) =
    (inr (loc_ + scale * fst (standard_normal g))%Q, (df, snd (standard_normal g))).
Proof.
  intros Hs. unfold normal. run_stmt (local_check_scale _ df g Hs).
  erewrite bind_ok by reflexivity. reflexivity.
Qed.

Lemma local_draw_per_group_variates std_dev labels df g :
  (0 <= std_dev)%Q ->
  draw_per_group std_dev labels (df, g) =
    (inr (zip labels (scaled 0 std_dev (variates (length labels) g))),
     (df, advance (length labels) g)).
Proof.
  intros Hs. revert g. induction labels as [| x xs IH]; intros g; [reflexivity |].
  cbn [draw_per_group]. run_stmt (local_normal 0 std_dev df g Hs).
  run_stmt (IH (snd (standard_normal g))). reflexivity.
Qed.

(** X9.  One piece of a random-effect term, for a grouping variable that
    is a column with an entry in the specification and a non-negative
    standard deviation: exactly one variate is drawn per distinct group
    label, in order of first appearance, whether or not anything is added
    to the dependent column.  For the piece [1] the draw of each row's
    group is added when the fixed intercept is active; for a slope on a
    column the draw of each row's group times that column is added; a
    slope on a name that is not a column adds nothing. *)
Theorem random_part_draws_one_variate_per_group
    re l dep hi group part df g sds groups old :
  re !! group = Some sds ->
  (0 <= default (1 # 2) (sds !! part_name part))%Q ->
  getitem group df = Some groups ->
  getitem dep df = Some old ->
  let labels := unique groups in
  let std_dev := default (1 # 2)%Q (sds !! part_name part) in
  let per_row :=
    series_map (zip labels (scaled 0 std_dev (variates (length labels) g))) groups in
  add_random_part re l dep hi group part (df, g) =
    (inr tt,
     (if String.eqb (part_name part) "Intercept" then
        if hi then setitem dep (series_add old per_row) df else df
      else
        match getitem (part_name part) df with
        | Some x => setitem dep (series_add old (series_mul per_row x)) df
        | None => df
        end,
      advance (length labels) g)).
Proof.
  intros Hsds Hsd Hgroups Hold labels std_dev per_row.
  unfold add_random_part. fold (part_name part).
  run_stmt (local_resolve_std_dev re group (part_name part) sds df g Hsds).
  run_stmt (local_getitem l _ _ g _ Hgroups).
  run_stmt (local_draw_per_group_variates std_dev labels df g Hsd).
  fold per_row.
  destruct (String.eqb (part_name part) "Intercept").
  - destruct hi; [| reflexivity].
    run_stmt (local_getitem l _ _ (advance (length labels) g) _ Hgroups).
    apply (local_iadd l dep _ df _ old Hold).
  - run_stmt (local_has_column l (part_name part) df (advance (length labels) g)).
    destruct (getitem (part_name part) df) as [x |] eqn:Hx.
    + assert (Hc : has_column (part_name part) df = true)
        by (apply has_column_getitem; eauto).
      rewrite Hc.
      run_stmt (local_getitem l _ _ (advance (length labels) g) _ Hgroups).
      run_stmt (local_getitem l _ _ (advance (length labels) g) _ Hx).
      apply (local_iadd l dep _ df _ old Hold).
    + destruct (has_column (part_name part) df) eqn:Hc; [| reflexivity].
      apply has_column_getitem in Hc as [x Hx']. congruence.
Qed.
End RandomPart.

Lemma random_part_draws_one_variate_per_group_witness :
  add_random_part (Sigma := frame * nat) (H := local_machine (H := counter_source))
    {[ "subject" := {[ "Intercept" := (1 # 10)%Q ]} ]} 0%nat "rt" true "subject" "1"
    (setitem "rt" (replicate 6 1%Q) example_conditions, 42%nat) =
  (inr tt,
   (Frame 6 [("x1", [0; 1 # 2; 1; 0; 1 # 2; 1]%Q);
             ("subject", [1; 1; 1; 2; 2; 2]%Q);
             ("rt", series_add (replicate 6 1%Q)
                      (series_map
                         [(1%Q, (0 + (1 # 10) * (39 # 4))%Q);
                          (2%Q, (0 + (1 # 10) * (40 # 4))%Q)]
                         [1; 1; 1; 2; 2; 2]%Q))],
    44%nat)).
Proof.
  rewrite (random_part_draws_one_variate_per_group (H := counter_source)
             {[ "subject" := {[ "Intercept" := (1 # 10)%Q ]} ]} 0%nat "rt" true
             "subject" "1" (setitem "rt" (replicate 6 1%Q) example_conditions) 42%nat
             {[ "Intercept" := (1 # 10)%Q ]} [1; 1; 1; 2; 2; 2]%Q (replicate 6 1%Q)).
  - reflexivity.
  - reflexivity.
  - discriminate.
  - reflexivity.
  - reflexivity.
Defined.

(** ** The shape of the returned table

    A small logic of the statements in the call's own view: the frame is
    the caller's table with the dependent column assigned one value per
    row, and a statement's result satisfies a postcondition. *)

Lemma well_formed_setitem name v df :
  well_formed df -> length v = nrows df -> well_formed (setitem name v df).
Proof.
  unfold well_formed, setitem. cbn [cols nrows]. generalize (nrows df) as n.
  intros n Hwf Hv. induction Hwf as [| [c old] cs Hc Hcs IH]; simpl.
  - repeat constructor. exact Hv.
  - destruct (String.eqb c name); constructor; assumption.
Qed.

Lemma local_getitem_none {G} `{RandomSource G} (l : loc) name df (g : G) :
  getitem name df = None ->
  df_getitem l name (df, g) = (inl (KeyError name), (df, g)).
Proof. intros Hv. unfold df_getitem, bind. simpl. rewrite Hv. reflexivity. Qed.

Section Shape.
Context {G : Type} `{RandomSource G}.
Variable dep : string.
Variable table : frame.
Hypothesis Hwf : well_formed table.

#[local] Abbreviation shaped := (shaped dep table).
#[local] Abbreviation hoare := (@hoare G dep table _).

Lemma shaped_well_formed df : shaped df -> well_formed df /\ nrows df = nrows table.
Proof.
  intros (ys & Hlen & ->). split; [| reflexivity].
  apply well_formed_setitem; assumption.
Qed.

Lemma hoare_ret {A} (a : A) (Q : A -> Prop) : Q a -> hoare (ret a) Q.
Proof. intros Ha s Hs. split; [exact Hs |]. intros a' E. injection E as <-. exact Ha. Qed.

Lemma hoare_raise {A} e (Q : A -> Prop) : hoare (raise e) Q.
Proof. intros s Hs. split; [exact Hs | discriminate]. Qed.

Lemma hoare_bind {A B} (m : St (frame * G) A) (k : A -> St (frame * G) B)
    (Q : A -> Prop) (R : B -> Prop) :
  hoare m Q -> (forall a, Q a -> hoare (k a) R) -> hoare (bind m k) R.
Proof.
  intros Hm Hk s Hs. destruct (Hm s Hs) as [H1 H2]. unfold bind.
  destruct (m s) as [[e | a] s1]; simpl in *.
  - split; [exact H1 | discriminate].
  - apply (Hk a (H2 a eq_refl) s1 H1).
Qed.

Lemma hoare_weaken {A} (m : St (frame * G) A) (Q R : A -> Prop) :
  hoare m Q -> (forall a, Q a -> R a) -> hoare m R.
Proof.
  intros Hm HQR s Hs. destruct (Hm s Hs) as [H1 H2]. split; [exact H1 | auto].
Qed.

Lemma hoare_for_each {A} (xs : list A) (body : A -> St (frame * G) unit) :
  (forall x, hoare (body x) (fun _ => True)) ->
  hoare (for_each xs body) (fun _ => True).
Proof.
  intros Hb. induction xs as [| x xs IH]; simpl.
  - apply hoare_ret. exact I.
  - eapply hoare_bind; [apply Hb | intros _ _; exact IH].
Qed.

Lemma hoare_has_column l name : hoare (df_has_column l name) (fun _ => True).
Proof. intros [df g] Hs. split; [exact Hs | auto]. Qed.

Lemma hoare_len l : hoare (df_len l) (fun n => n = nrows table).
Proof.
  intros [df g] Hs. split; [exact Hs |].
  intros n E. injection E as <-. apply shaped_well_formed. exact Hs.
Qed.

Lemma hoare_getitem l name :
  hoare (df_getitem l name) (fun v => length v = nrows table).
Proof.
  intros [df g] Hs.
  destruct (shaped_well_formed df Hs) as [Hwf' Hn].
  destruct (getitem name df) as [v |] eqn:Hv.
  - rewrite (local_getitem l name df g v Hv). split; [exact Hs |].
    intros a E. injection E as <-.
    rewrite <- Hn. eapply getitem_length; eassumption.
  - rewrite (local_getitem_none l name df g Hv). split; [exact Hs | discriminate].
Qed.

Lemma hoare_iadd l v :
  length v = nrows table -> hoare (df_iadd l dep v) (fun _ => True).
Proof.
  intros Hv [df g] Hs. split; [| auto].
  cbn [fst] in Hs. destruct Hs as (ys & Hlen & ->).
  rewrite (local_iadd l dep v _ g ys (getitem_setitem_eq dep ys table)).
  cbn [fst snd]. rewrite setitem_setitem. eexists. split; [| reflexivity].
  rewrite length_series_add. lia.
Qed.

Lemma hoare_check_scale scale : hoare (check_scale scale) (fun _ => True).
Proof.
  unfold check_scale. destruct (Qle_bool 0 scale);
    [apply hoare_ret; exact I | apply hoare_raise].
Qed.

Lemma hoare_draw_standard_normal : hoare draw_standard_normal (fun _ => True).
Proof. intros [df g] Hs. split; [exact Hs | auto]. Qed.

Lemma hoare_normal loc_ scale : hoare (normal loc_ scale) (fun _ => True).
Proof.
  unfold normal. eapply hoare_bind; [apply hoare_check_scale |]. intros _ _.
  eapply hoare_bind; [apply hoare_draw_standard_normal |]. intros z _.
  apply hoare_ret. exact I.
Qed.

Lemma hoare_draw_n loc_ scale n :
  hoare (draw_n loc_ scale n) (fun zs => length zs = n).
Proof.
  induction n as [| n IH]; simpl.
  - apply hoare_ret. reflexivity.
  - eapply hoare_bind; [apply hoare_draw_standard_normal |]. intros z _.
    eapply hoare_bind; [exact IH |]. intros zs Hzs.
    apply hoare_ret. simpl. congruence.
Qed.

Lemma hoare_normal_n loc_ scale n :
  hoare (normal_n loc_ scale n) (fun zs => length zs = n).
Proof.
  unfold normal_n. eapply hoare_bind; [apply hoare_check_scale |]. intros _ _.
  apply hoare_draw_n.
Qed.

Lemma hoare_draw_per_group std_dev labels :
  hoare (draw_per_group std_dev labels) (fun _ => True).
Proof.
  induction labels as [| x xs IH]; simpl.
  - apply hoare_ret. exact I.
  - eapply hoare_bind; [apply hoare_normal |]. intros v _.
    eapply hoare_bind; [exact IH |]. intros d _. apply hoare_ret. exact I.
Qed.

Lemma hoare_resolve_std_dev re group part :
  hoare (resolve_std_dev re group part) (fun _ => True).
Proof.
  unfold resolve_std_dev. destruct (re !! group);
    [apply hoare_ret; exact I | apply hoare_raise].
Qed.

Lemma length_series_map d groups : length (series_map d groups) = length groups.
Proof. apply length_fmap. Qed.

Lemma length_series_mul a b : length (series_mul a b) = min (length a) (length b).
Proof. apply length_zip_with. Qed.

Lemma hoare_add_fixed_effect fe l var :
  hoare (add_fixed_effect fe l dep var) (fun _ => True).
Proof.
  unfold add_fixed_effect.
  eapply hoare_bind; [apply hoare_has_column |]. intros [|] _.
  - eapply hoare_bind; [apply hoare_getitem |]. intros x Hx.
    apply hoare_iadd. rewrite length_series_scale. exact Hx.
  - apply hoare_ret. exact I.
Qed.

Lemma hoare_add_random_part re l hi group part :
  hoare (add_random_part re l dep hi group part) (fun _ => True).
Proof.
  unfold add_random_part.
  eapply hoare_bind; [apply hoare_resolve_std_dev |]. intros std_dev _.
  eapply hoare_bind; [apply hoare_getitem |]. intros groups _.
  eapply hoare_bind; [apply hoare_draw_per_group |]. intros d _.
  destruct (String.eqb _ "Intercept").
  - destruct hi; [| apply hoare_ret; exact I].
    eapply hoare_bind; [apply hoare_getitem |]. intros groups' Hg.
    apply hoare_iadd. rewrite length_series_map. exact Hg.
  - eapply hoare_bind; [apply hoare_has_column |]. intros [|] _.
    + eapply hoare_bind; [apply hoare_getitem |]. intros groups' Hg.
      eapply hoare_bind; [apply hoare_getitem |]. intros x Hx.
      cbv beta in Hg, Hx.
      apply hoare_iadd. rewrite length_series_mul, length_series_map. lia.
    + apply hoare_ret. exact I.
Qed.

Lemma hoare_add_random_term re l hi term :
  hoare (add_random_term re l dep hi term) (fun _ => True).
Proof.
  unfold add_random_term.
  eapply hoare_bind; [apply hoare_has_column |]. intros present _.
  destruct (negb present); [apply hoare_raise |].
  apply hoare_for_each. intros part. apply hoare_add_random_part.
Qed.

Lemma simulate_shaped formula fe re fv l rhs noise (g : G) :
  shaped (fst (snd (simulate formula fe re fv l dep rhs noise (table, g)))).
Proof.
  unfold simulate.
  erewrite bind_ok by apply local_setitem_scalar.
  match goal with
  | |- shaped (fst (snd (?m ?s))) =>
      assert (Hm : hoare m (fun _ => True)); [| apply (Hm s)]
  end.
  - eapply hoare_bind;
      [apply hoare_for_each; intros var; apply hoare_add_fixed_effect |].
    intros _ _.
    eapply hoare_bind;
      [apply hoare_for_each; intros term; apply hoare_add_random_term |].
    intros _ _.
    eapply hoare_bind; [apply hoare_len |]. intros n ->.
    eapply hoare_bind; [apply hoare_normal_n |]. intros zs Hzs.
    apply hoare_iadd. exact Hzs.
  - eexists. split; [| reflexivity]. apply length_replicate.
Qed.
End Shape.

(** X10.  A successful call on a well-formed table returns a well-formed
    table with the same number of rows: the caller's table with the
    dependent column assigned exactly one value per row, whatever the
    formula, the effects and the draws. *)
Theorem run_returns_table_of_same_shape {G} `{RandomSource G}
    formula fe re fv c noise rs (w : world G) df d rhs df' :
  Py.split "~" formula = [d; rhs] ->
  frames w !! c = Some df ->
  well_formed df ->
  outcome (run formula fe re fv c noise rs w) = inr df' ->
  well_formed df' /\ nrows df' = nrows df /\
  exists ys, length ys = nrows df /\ df' = setitem (Py.strip d) ys df.
Proof.
  intros Hs Hc Hwf.
  destruct (seed_ok rs) eqn:Hseed;
    [| rewrite run_seed_error by exact Hseed; discriminate].
  rewrite (outcome_run _ _ _ _ _ _ _ _ _ _ _ Hs Hc Hseed). cbn zeta.
  pose proof (simulate_shaped (Py.strip d) df Hwf formula fe re fv 0%nat rhs noise
                (initial_generator rs w)) as Hshape.
  unfold simulate_local.
  destruct (simulate formula fe re fv 0%nat (Py.strip d) rhs noise
              (df, initial_generator rs w)) as [[e | []] [df1 g1]];
    cbn [fst snd] in *; [discriminate |].
  intros E. injection E as <-.
  destruct (shaped_well_formed (Py.strip d) df Hwf df1 Hshape) as [Hwf1 Hn].
  repeat split; assumption.
Qed.

Lemma run_returns_table_of_same_shape_witness :
  exists df',
    outcome
      (run (H := counter_source) "rt ~ 1 + (1|subject) + x1"
         {[ "Intercept" := 1%Q; "x1" := 2%Q ]} {[ "subject" := {[ "Intercept" := (1 # 10)%Q ]} ]}
         ["x1"] 0%nat (1 # 100)%Q (Some 42%Z) example_world) = inr df' /\
    well_formed df' /\ nrows df' = 6%nat /\
    exists ys, length ys = 6%nat /\ df' = setitem "rt" ys example_conditions.
Proof.
  eexists. split; [vm_compute; reflexivity |].
  apply (run_returns_table_of_same_shape (H := counter_source)
           "rt ~ 1 + (1|subject) + x1"
           {[ "Intercept" := 1%Q; "x1" := 2%Q ]} {[ "subject" := {[ "Intercept" := (1 # 10)%Q ]} ]}
           ["x1"] 0%nat (1 # 100)%Q (Some 42%Z) example_world example_conditions
           "rt " " 1 + (1|subject) + x1").
  - reflexivity.
  - reflexivity.
  - repeat constructor.
  - vm_compute. reflexivity.
Defined.

(** ** The implicit intercept *)

Lemma findall_fixed_pattern_bare x :
  lower_identifier x -> Re.findall fixed_pattern (" " ++ x) = [x].
Proof.
  intros Hx. unfold Re.findall. simpl.
  rewrite (scan_fixed_pattern_identifier _ x Hx). reflexivity.
Qed.

Lemma search_zero_pattern_bare x :
  lower_identifier x -> Re.search zero_pattern (" " ++ x) = false.
Proof.
  intros [Hlow Hword]. destruct x as [| c x]; [discriminate |].
  simpl in Hlow, Hword. apply andb_true_iff in Hword as [Hc Hword].
  unfold Re.search. simpl.
  unfold Re.match_at. unfold zero_pattern at 1.
  cbn [Re.exec Re.rest Re.before Re.next_char Re.is_word_opt].
  rewrite Hc. simpl. rewrite (lower_not_zero c Hlow).
  rewrite (scan_zero_pattern_in_word x c Hc Hword). reflexivity.
Qed.

Lemma split_bare_formula y x :
  identifier y -> lower_identifier x ->
  Py.split "~" (y ++ " ~ " ++ x) = [y ++ " "; " " ++ x].
Proof.
  intros Hy [_ Hx].
  assert (E : y ++ " ~ " ++ x = (y ++ " ") ++ String "~" (" " ++ x)).
  { rewrite string_app_assoc. reflexivity. }
  rewrite E. rewrite split_at_sep.
  - rewrite split_without_sep; [reflexivity |].
    simpl. apply (identifier_isnt x "~"); [reflexivity | exact Hx].
  - rewrite all_chars_app. rewrite (identifier_isnt y "~"); [reflexivity | reflexivity | exact Hy].
Qed.

Lemma extract_bare_formula y x :
  identifier y -> lower_identifier x ->
  _extract_variable_names (y ++ " ~ " ++ x) = inr (y, [x], []).
Proof.
  intros Hy Hx. unfold _extract_variable_names.
  rewrite (split_bare_formula y x Hy Hx).
  rewrite (strip_identifier_space y Hy).
  rewrite (findall_fixed_pattern_bare x Hx).
  unfold random_pattern. rewrite findall2_without_open.
  2: { simpl. apply (identifier_isnt x "("); [reflexivity | apply Hx]. }
  simpl. rewrite (strip_identifier x (proj2 Hx)). reflexivity.
Qed.

Lemma terms_bare_formula y x :
  identifier y -> lower_identifier x ->
  Re.findall2 term_pattern (y ++ " ~ " ++ x) = [].
Proof.
  intros Hy [_ Hx]. unfold term_pattern. apply findall2_without_open.
  rewrite all_chars_app. rewrite (identifier_isnt y "("); [| reflexivity | exact Hy].
  simpl. apply (identifier_isnt x "("); [reflexivity | exact Hx].
Qed.

Section ImplicitIntercept.
Context {G : Type} `{RandomSource G}.

(** X11.  The intercept is implicit: for names [y] and [x], the
    experiments of the formulas [y ~ x] and [y ~ 1 + x] built with the
    same dictionaries behave alike on every table, noise level, seed
    and state: both add the coefficient stored under Intercept. *)
Theorem intercept_is_implicit y x fe re :
  identifier y -> lower_identifier x ->
  exists f1 f2,
    lmm_experiment (y ++ " ~ " ++ x) fe re = inr f1 /\
    lmm_experiment (y ++ " ~ 1 + " ++ x) fe re = inr f2 /\
    forall c noise rs (w : world G), f1 c noise rs w = f2 c noise rs w.
Proof.
  intros Hy Hx. unfold lmm_experiment.
  rewrite (extract_bare_formula y x Hy Hx), (extract_linear_formula y x Hy Hx).
  eexists _, _. split; [reflexivity |]. split; [reflexivity |].
  intros c noise rs w. unfold run, with_generator, run_body.
  rewrite (split_bare_formula y x Hy Hx), (split_linear_formula y x Hy Hx).
  unfold simulate.
  rewrite (terms_bare_formula y x Hy Hx).
  rewrite (terms_linear_formula y x Hy Hx).
  unfold has_intercept_of.
  rewrite (search_zero_pattern_bare x Hx), (search_zero_pattern_linear x Hx).
  reflexivity.
Qed.
End ImplicitIntercept.

Lemma intercept_is_implicit_witness :
  exists f1 f2,
    lmm_experiment (H := counter_source) ("rt" ++ " ~ " ++ "x1")
      (Some {[ "Intercept" := 1%Q; "x1" := 2%Q ]}) None = inr f1 /\
    lmm_experiment (H := counter_source) ("rt" ++ " ~ 1 + " ++ "x1")
      (Some {[ "Intercept" := 1%Q; "x1" := 2%Q ]}) None = inr f2 /\
    forall c noise rs (w : world nat), f1 c noise rs w = f2 c noise rs w.
Proof.
  apply (intercept_is_implicit (H := counter_source) "rt" "x1"
           (Some {[ "Intercept" := 1%Q; "x1" := 2%Q ]}) None).
  - reflexivity.
  - split; reflexivity.
Defined.

(** ** Calls in sequence, and a negative noise level *)

Section Sequence.
Context {G : Type} `{RandomSource G}.
Implicit Types (df : frame) (g : G) (l : loc).

(** X12.  A call with an explicit seed is invisible to every later call
    of the same experiment: the later call, seeded or not, returns what
    it would have returned had the seeded call not been made.  (An
    unseeded call is not: it advances the shared generator.) *)
Theorem seeded_call_is_invisible
    formula fe re fv c1 noise1 seed c2 noise2 rs (w : world G) df1 df2 :
  frames w !! c1 = Some df1 ->
  frames w !! c2 = Some df2 ->
  outcome (run formula fe re fv c2 noise2 rs
             (snd (run formula fe re fv c1 noise1 (Some seed) w))) =
  outcome (run formula fe re fv c2 noise2 rs w).
Proof.
  intros H1 H2.
  set (w' := snd (run formula fe re fv c1 noise1 (Some seed) w)).
  assert (H2' : frames w' !! c2 = Some df2).
  { unfold w'. rewrite (run_keeps_store _ _ _ _ _ _ _ _ df1) by eauto. exact H2. }
  assert (Hrng : rng w' = rng w) by (eapply run_with_seed_keeps_rng; exact H1).
  destruct (seed_ok rs) eqn:Hseed;
    [| rewrite !run_seed_error by exact Hseed; reflexivity].
  destruct (Py.split "~" formula) as [| d [| rhs [| ? ?]]] eqn:Hs.
  1,2,4: rewrite !run_unpack_error
           by first [exact Hseed | intros ? ?; rewrite Hs; discriminate];
         reflexivity.
  rewrite (outcome_run _ _ _ _ _ _ _ _ _ _ _ Hs H2' Hseed).
  rewrite (outcome_run _ _ _ _ _ _ _ _ _ _ _ Hs H2 Hseed).
  assert (Hg : initial_generator rs w' = initial_generator rs w)
    by (destruct rs; [reflexivity | exact Hrng]).
  cbn zeta. rewrite Hg. reflexivity.
Qed.

Lemma written_nrows dep df df' : written dep df df' -> nrows df' = nrows df.
Proof. intros [-> | [v ->]]; reflexivity. Qed.

Lemma iadd_keeps_generator l name v df g :
  snd (snd (df_iadd l name v (df, g))) = g.
Proof.
  destruct (getitem name df) as [old |] eqn:Hold.
  - rewrite (local_iadd l name v df g old Hold). reflexivity.
  - unfold df_iadd. erewrite bind_fail by (apply local_getitem_none; exact Hold).
    reflexivity.
Qed.

(** With a negative noise level the statements fail at the noise, in the
    state in which the same statements with noise 0 draw it. *)
Lemma simulate_negative_noise re formula fe fv l dep rhs noise df g :
  std_devs_nonneg re ->
  groups_available formula re df ->
  (noise < 0)%Q ->
  exists df3 g3,
    simulate formula fe re fv l dep rhs noise (df, g) = (inl ScaleError, (df3, g3)) /\
    snd (snd (simulate formula fe re fv l dep rhs 0 (df, g))) = advance (nrows df) g3.
Proof.
  intros Hnonneg Havail Hnoise.
  destruct (simulate_succeeds re Hnonneg formula fe fv l dep rhs 0 df g Havail
              (Qle_refl 0)) as [s' E].
  pose proof E as E0. unfold simulate in E0.
  apply bind_inr in E0 as (u1 & s1 & E1 & E0).
  apply bind_inr in E0 as (u2 & s2 & E2 & E0).
  apply bind_inr in E0 as (u3 & [df3 g3] & E3 & E0).
  assert (Efail : simulate formula fe re fv l dep rhs noise (df, g) =
                  (inl ScaleError, (df3, g3))).
  { unfold simulate. run_stmt E1. run_stmt E2. run_stmt E3.
    run_stmt (local_len l df3 g3).
    apply bind_fail. unfold normal_n. apply bind_fail. unfold check_scale.
    assert (Hb : Qle_bool 0 noise = false).
    { destruct (Qle_bool 0 noise) eqn:Hb; [| reflexivity].
      apply Qle_bool_iff in Hb. exfalso. exact (Qlt_not_le _ _ Hnoise Hb). }
    rewrite Hb. reflexivity. }
  exists df3, g3. split; [exact Efail |].
  rewrite E. cbn [snd].
  rewrite (bind_ok _ _ _ _ _ (local_len l df3 g3)) in E0.
  rewrite (bind_ok _ _ _ _ _
             (local_normal_n_variates 0 0 (nrows df3) df3 g3 (Qle_refl 0))) in E0.
  pose proof (iadd_keeps_generator l dep (scaled 0 0 (variates (nrows df3) g3)) df3
                (advance (nrows df3) g3)) as Hgen.
  rewrite E0 in Hgen. cbn [snd] in Hgen. rewrite Hgen.
  pose proof (wo_simulate dep formula fe re fv l rhs noise (df, g)) as W.
  rewrite Efail in W. cbn [fst snd] in W.
  rewrite (written_nrows dep df df3 W). reflexivity.
Qed.

(** X13.  A negative noise level is rejected, but only at the end of
    the call.  On a proper table of numeric columns, with a
    [random_state] that is absent or not negative, coefficients in the
    [int64] range, every grouping variable of the formula a column with
    an entry in the random-effects specification and no negative standard
    deviation: a call with a negative noise level raises the generator's
    scale error, and it does so after the draws of the random effects
    have been made: an unseeded call leaves the shared generator one
    variate per row short of where the same call with noise 0 leaves
    it. *)
Theorem negative_noise_raises_scale_error
    formula fe re fv c noise rs (w : world G) df d rhs :
  Py.split "~" formula = [d; rhs] ->
  frames w !! c = Some df ->
  proper_table df ->
  seed_ok rs = true ->
  coefficients_in_int64 fe ->
  std_devs_nonneg re ->
  groups_available formula re df ->
  (noise < 0)%Q ->
  outcome (run formula fe re fv c noise rs w) = inl ScaleError /\
  advance (nrows df) (rng (snd (run formula fe re fv c noise None w))) =
    rng (snd (run formula fe re fv c 0 None w)).
Proof.
  intros Hs Hc _ Hseed _ Hnonneg Havail Hnoise. split.
  - rewrite (outcome_run _ _ _ _ _ _ _ _ _ _ _ Hs Hc Hseed). cbn zeta.
    unfold simulate_local.
    destruct (simulate_negative_noise re formula fe fv 0%nat (Py.strip d) rhs noise df
                (initial_generator rs w) Hnonneg Havail Hnoise) as (df3 & g3 & E & _).
    rewrite E. reflexivity.
  - rewrite !(run_unfold _ _ _ _ _ _ None _ _ _ _ Hs Hc eq_refl). cbn zeta.
    unfold simulate_local. cbn [snd rng].
    destruct (simulate_negative_noise re formula fe fv 0%nat (Py.strip d) rhs noise df
                (initial_generator None w) Hnonneg Havail Hnoise) as (df3 & g3 & E & E0).
    rewrite E, E0. reflexivity.
Qed.
End Sequence.

Lemma seeded_call_is_invisible_witness :
  outcome
    (run (H := counter_source) "rt ~ 1 + (1|subject)"
       {[ "Intercept" := 1%Q ]} {[ "subject" := {[ "Intercept" := (1 # 10)%Q ]} ]} []
       0%nat 0%Q None
       (snd (run (H := counter_source) "rt ~ 1 + (1|subject)"
               {[ "Intercept" := 1%Q ]} {[ "subject" := {[ "Intercept" := (1 # 10)%Q ]} ]} []
               0%nat (1 # 100)%Q (Some 42%Z) example_world))) =
  outcome
    (run (H := counter_source) "rt ~ 1 + (1|subject)"
       {[ "Intercept" := 1%Q ]} {[ "subject" := {[ "Intercept" := (1 # 10)%Q ]} ]} []
       0%nat 0%Q None example_world).
Proof.
  apply (seeded_call_is_invisible (H := counter_source) "rt ~ 1 + (1|subject)"
           {[ "Intercept" := 1%Q ]} {[ "subject" := {[ "Intercept" := (1 # 10)%Q ]} ]} []
           0%nat (1 # 100)%Q 42%Z 0%nat 0%Q None example_world
           example_conditions example_conditions); reflexivity.
Defined.

Lemma negative_noise_raises_scale_error_witness :
  outcome
    (run (H := counter_source) "rt ~ 1 + (1|subject)"
       {[ "Intercept" := 1%Q ]} {[ "subject" := {[ "Intercept" := (1 # 10)%Q ]} ]} []
       0%nat (-1 # 100)%Q None example_world) = inl ScaleError /\
  advance (H := counter_source) 6
    (rng (snd (run (H := counter_source) "rt ~ 1 + (1|subject)"
                 {[ "Intercept" := 1%Q ]} {[ "subject" := {[ "Intercept" := (1 # 10)%Q ]} ]} []
                 0%nat (-1 # 100)%Q None example_world))) =
    rng (snd (run (H := counter_source) "rt ~ 1 + (1|subject)"
                {[ "Intercept" := 1%Q ]} {[ "subject" := {[ "Intercept" := (1 # 10)%Q ]} ]} []
                0%nat 0%Q None example_world)).
Proof.
  apply (negative_noise_raises_scale_error (H := counter_source) "rt ~ 1 + (1|subject)"
           {[ "Intercept" := 1%Q ]} {[ "subject" := {[ "Intercept" := (1 # 10)%Q ]} ]} []
           0%nat (-1 # 100)%Q None example_world example_conditions
           "rt " " 1 + (1|subject)").
  - reflexivity.
  - reflexivity.
  - exact proper_example_conditions.
  - reflexivity.
  - apply coefficients_in_int64_insert; [reflexivity |].
    exact coefficients_in_int64_empty.
  - apply std_devs_nonneg_singleton. intros name sd Hsd.
    apply lookup_singleton_Some in Hsd as [_ <-]. discriminate.
  - intros term Hterm.
    assert (E : Re.findall2 term_pattern "rt ~ 1 + (1|subject)" = [("1", "subject")])
      by reflexivity.
    rewrite E in Hterm. apply list_elem_of_singleton in Hterm. subst term.
    split; [reflexivity | eexists; reflexivity].
  - reflexivity.
Defined.
